(** * architect-agent: a shallow embedding of src/architect-agent.js

    The development follows the layers of the source file:
    - [Int32]: the 32-bit integer arithmetic JavaScript's bit operators use;
    - [Framer], [FramerFacts], [FramerLaws]: [deFramer], the length-prefix
      state machine, and the header written by [Transport.prototype.send];
    - [Js]: the values, the heap and the monad of the embedding;
    - [Marshal], [MarshalFrame], [Roundtrip]: [freeze] and [liven] with
      their helpers [get], [forEach] and [map];
    - [Remote], [RemoteFacts], [RemoteLaws]: the Remote, its callback
      table, the handshake and the dispatch of messages;
    - [Transport], [TransportFacts], [TransportLaws]: the Transport on top
      of its stream endpoints;
    - [Agent], [AgentLaws]: [Agent.prototype.connect]. *)

From Stdlib Require Import String Ascii ZArith List Lia Bool.
From Stdlib.Strings Require Import Byte.
Import ListNotations.
Open Scope Z_scope.

(** ** JavaScript 32-bit integer operators *)
Module Int32.

(** ToInt32: the value every operand and result of [|], [<<] and [>>] is
    reduced to (two's complement, in -2^31 .. 2^31-1). *)
Definition wrap (x : Z) : Z := (x + 2^31) mod 2^32 - 2^31.

(** [a << n] *)
Definition shl (a n : Z) : Z := wrap (Z.shiftl (wrap a) n).

(** [a | b] *)
Definition or (a b : Z) : Z := wrap (Z.lor (wrap a) (wrap b)).

(** [a >> 0] *)
Definition sar0 (a : Z) : Z := wrap a.

Definition in_range (x : Z) : Prop := - 2^31 <= x < 2^31.

Lemma wrap_range x : in_range (wrap x).
Proof.
  unfold in_range, wrap.
  pose proof (Z.mod_pos_bound (x + 2^31) (2^32) ltac:(lia)). lia.
Qed.

Lemma wrap_id x : in_range x -> wrap x = x.
Proof.
  unfold in_range, wrap. intros H.
  rewrite Z.mod_small by lia. lia.
Qed.

Lemma wrap_wrap x : wrap (wrap x) = wrap x.
Proof. apply wrap_id, wrap_range. Qed.

End Int32.

(** ** The Framer: [deFramer] (source lines 158-196) *)
Module Framer.

Definition frame := list byte.

(** [chunk[i]] for a Buffer: a number in 0..255. *)
Definition byte_val (b : byte) : Z := Z.of_N (Byte.to_N b).

(** The four variables the closure returned by [deFramer] keeps between
    calls.  [undefined] ([buffer] and [offset] outside state 4) is
    represented by the empty buffer and by 0: both variables are assigned
    in case 3 before case 4 reads them. *)
Record deframer := mkDeframer {
  buffer : list byte;
  state : Z;
  length : Z;
  offset : Z }.

(** [var buffer; var state = 0; var length = 0; var offset;] *)
Definition init : deframer := mkDeframer [] 0 0 0.

(** [new Buffer(length)].  The runtime is asked for a negative size when
    the header has its top bit set ([<<] and [|=] are signed); what Node
    does then depends on its version and is not modelled: [None]. *)
Definition new_Buffer (n : Z) : option (list byte) :=
  if n <? 0 then None else Some (repeat x00 (Z.to_nat n)).

(** [chunk.copy(buffer, offset, i, i + len)]: the bytes [i .. i+len) of
    [chunk] overwrite [buffer] from [offset] on. *)
Definition copy (chunk buf : list byte) (off i len : Z) : list byte :=
  firstn (Z.to_nat off) buf
  ++ firstn (Z.to_nat len) (skipn (Z.to_nat i) chunk)
  ++ skipn (Z.to_nat (off + len)) buf.

(** What one turn of the [for] loop's body leaves: the index [i] (before
    the [i++]), the variables, and the frames handed to [onFrame]. *)
Inductive turn :=
| Turn (i : Z) (s : deframer) (out : list frame)
| BadSize.

(** The [switch (state)] of the loop body, at index [i] of a chunk of
    length [l]. *)
Definition body (chunk : list byte) (l i : Z) (s : deframer) : turn :=
  let c := byte_val (nth (Z.to_nat i) chunk x00) in
  if state s =? 0 then
    Turn i (mkDeframer (buffer s) 1 (Int32.or (length s) (Int32.shl c 24)) (offset s)) []
  else if state s =? 1 then
    Turn i (mkDeframer (buffer s) 2 (Int32.or (length s) (Int32.shl c 16)) (offset s)) []
  else if state s =? 2 then
    Turn i (mkDeframer (buffer s) 3 (Int32.or (length s) (Int32.shl c 8)) (offset s)) []
  else if state s =? 3 then
    let length' := Int32.or (length s) c in
    match new_Buffer length' with
    | Some b => Turn i (mkDeframer b 4 length' 0) []
    | None => BadSize
    end
  else if state s =? 4 then
    let len := l - i in
    let emit := len + offset s >=? length s in
    let len := if emit then length s - offset s else len in
    let buffer' := copy chunk (buffer s) (offset s) i len in
    let offset' := offset s + len in
    let i' := i + (len - 1) in
    if emit then Turn i' (mkDeframer [] 0 0 0) [buffer']
    else Turn i' (mkDeframer buffer' 4 (length s) offset') []
  else Turn i s [].

(** The result of a call of [parse]. *)
Inductive result :=
| Done (s : deframer) (out : list frame)
| Failed          (* a negative size reached [new Buffer] *)
| NoFuel.         (* the loop did not finish within the turns given *)

(** [for (var i = 0, l = chunk.length; i < l; i++) { ... }], with the
    number of turns bounded by [fuel]. *)
Fixpoint loop (fuel : nat) (chunk : list byte) (l i : Z) (s : deframer)
    (out : list frame) : result :=
  if i <? l then
    match fuel with
    | O => NoFuel
    | S fuel' =>
        match body chunk l i s with
        | Turn i' s' fr => loop fuel' chunk l (i' + 1) s' (out ++ fr)
        | BadSize => Failed
        end
    end
  else Done s out.

(** [parse(chunk)].  A turn in state 4 that delivers an empty frame leaves
    [i] where it was, any other turn advances it, hence at most
    [2 * l + 1] turns ([parse_total] below). *)
Definition parse (chunk : list byte) (s : deframer) : result :=
  let l := Z.of_nat (List.length chunk) in
  loop (2 * List.length chunk + 1) chunk l 0 s [].

(** Feeding a sequence of chunks to one parser, in order. *)
Fixpoint feed (chunks : list (list byte)) (s : deframer) (out : list frame) : result :=
  match chunks with
  | [] => Done s out
  | c :: rest =>
      match parse c s with
      | Done s' fr => feed rest s' (out ++ fr)
      | r => r
      end
  end.

(** The 4-byte header [Transport.prototype.send] writes:
    [header.writeUInt32BE(frame.length, 0)]. *)
Definition byte_of (z : Z) : byte :=
  match Byte.of_N (Z.to_N (z mod 256)) with Some b => b | None => x00 end.

Definition writeUInt32BE (n : Z) : list byte :=
  [byte_of (n / 2^24); byte_of (n / 2^16); byte_of (n / 2^8); byte_of n].

Definition encode (b : frame) : list byte :=
  writeUInt32BE (Z.of_nat (List.length b)) ++ b.

Definition encode_all (bs : list frame) : list byte := List.concat (map encode bs).

Definition frames_of (r : result) : option (list frame) :=
  match r with Done _ out => Some out | _ => None end.

End Framer.


(** ** Properties of the Framer *)
Module FramerFacts.
Import Framer.

Definition single (b : byte) : list byte := [b].

(** The variables are consistent: in state 4 the buffer has [length]
    bytes and is not yet full, unless the frame is empty. *)
Definition wf (s : deframer) : Prop :=
  state s = 4 ->
  0 <= offset s /\
  List.length (buffer s) = Z.to_nat (length s) /\
  (offset s < length s \/ (length s = 0 /\ offset s = 0)).

Definition idle : deframer := mkDeframer [] 0 0 0.

(** The turns a call still needs from index [i]. *)
Definition turns (l i : Z) (s : deframer) : Z :=
  2 * (l - i) + (if state s =? 4 then 1 else 0).

Lemma wf_idle : wf idle.
Proof. unfold wf, idle; simpl; lia. Qed.

Lemma new_Buffer_Some n b :
  new_Buffer n = Some b -> 0 <= n /\ List.length b = Z.to_nat n.
Proof.
  unfold new_Buffer. destruct (Z.ltb_spec n 0); [discriminate|].
  intros [= <-]. rewrite repeat_length. lia.
Qed.

Lemma copy_length chunk buf off i len :
  0 <= off -> 0 <= len -> 0 <= i ->
  i + len <= Z.of_nat (List.length chunk) ->
  off + len <= Z.of_nat (List.length buf) ->
  List.length (copy chunk buf off i len) = List.length buf.
Proof.
  intros. unfold copy.
  rewrite !length_app, !length_firstn, !length_skipn. lia.
Qed.

Ltac fields := cbn [state buffer length offset] in *.

(** One turn keeps the variables consistent and uses up turns. *)
Lemma body_wf chunk i s i' s' fr :
  let l := Z.of_nat (List.length chunk) in
  wf s -> 0 <= i < l ->
  body chunk l i s = Turn i' s' fr ->
  wf s' /\ 0 <= i' + 1 <= l /\ turns l (i' + 1) s' < turns l i s.
Proof.
  intros l Hwf Hi. unfold body, turns.
  destruct (Z.eqb_spec (state s) 0) as [E0|N0].
  { intros [= <- <- <-]. unfold wf; fields. rewrite E0. cbn [Z.eqb Pos.eqb]. lia. }
  destruct (Z.eqb_spec (state s) 1) as [E1|N1].
  { intros [= <- <- <-]. unfold wf; fields. rewrite E1. cbn [Z.eqb Pos.eqb]. lia. }
  destruct (Z.eqb_spec (state s) 2) as [E2|N2].
  { intros [= <- <- <-]. unfold wf; fields. rewrite E2. cbn [Z.eqb Pos.eqb]. lia. }
  destruct (Z.eqb_spec (state s) 3) as [E3|N3].
  { destruct (new_Buffer _) as [b|] eqn:Eb; [|discriminate].
    intros [= <- <- <-]. apply new_Buffer_Some in Eb as [Hn Hb].
    unfold wf; fields. rewrite E3. cbn [Z.eqb Pos.eqb]. lia. }
  destruct (Z.eqb_spec (state s) 4) as [E4|N4].
  { destruct (Hwf E4) as (Ho & Hb & Hl).
    destruct (Z.geb_spec (l - i + offset s) (length s)) as [Ge|Lt].
    - intros [= <- <- <-]. unfold wf; fields. cbn [Z.eqb Pos.eqb]. lia.
    - intros [= <- <- <-]. unfold wf; fields. cbn [Z.eqb Pos.eqb]. split; [|lia].
      intros _. split; [lia|]. split; [|lia].
      rewrite copy_length; fold l; lia. }
  intros [= <- <- <-]. destruct (Z.eqb_spec (state s) 4); [contradiction|].
  split; [assumption|lia].
Qed.

(** With the turns it needs the loop never runs out of fuel. *)
Lemma loop_total fuel : forall chunk i s out,
  let l := Z.of_nat (List.length chunk) in
  wf s -> 0 <= i <= l -> turns l i s <= Z.of_nat fuel ->
  loop fuel chunk l i s out <> NoFuel.
Proof.
  induction fuel as [|fuel IH]; intros chunk i s out l Hwf Hi Hf.
  - simpl. destruct (Z.ltb_spec i l); [|discriminate].
    unfold turns in Hf. destruct (state s =? 4); lia.
  - cbn [loop]. fold l. destruct (Z.ltb_spec i l) as [Lt|Ge]; [|discriminate].
    destruct (body chunk l i s) as [i' s' fr|] eqn:Eb; [|discriminate].
    pose proof (body_wf chunk i s i' s' fr Hwf ltac:(lia) Eb) as (Hwf' & Hi' & Ht).
    apply IH; auto. subst l. lia.
Qed.

Lemma parse_total chunk s : wf s -> parse chunk s <> NoFuel.
Proof.
  intros Hwf. unfold parse. apply loop_total; auto; [lia|].
  unfold turns. destruct (state s =? 4); lia.
Qed.

Lemma loop_wf fuel : forall chunk i s out s' out',
  let l := Z.of_nat (List.length chunk) in
  wf s -> 0 <= i <= l ->
  loop fuel chunk l i s out = Done s' out' -> wf s'.
Proof.
  induction fuel as [|fuel IH]; intros chunk i s out s' out' l Hwf Hi.
  - simpl. destruct (Z.ltb_spec i l); [discriminate|]. now intros [= <- <-].
  - cbn [loop]. fold l. destruct (Z.ltb_spec i l) as [Lt|Ge].
    + destruct (body chunk l i s) as [i1 s1 fr|] eqn:Eb; [|discriminate].
      pose proof (body_wf chunk i s i1 s1 fr Hwf ltac:(lia) Eb) as (Hwf' & Hi' & _).
      apply IH; auto.
    + now intros [= <- <-].
Qed.

Lemma parse_wf chunk s s' out : wf s -> parse chunk s = Done s' out -> wf s'.
Proof. intros Hwf. unfold parse. apply loop_wf; auto. lia. Qed.

(** *** One byte at a time

    [step1] is what [parse] does on a chunk of one byte, in closed form. *)
Definition fill (buf : list byte) (off : Z) (xs : list byte) : list byte :=
  firstn (Z.to_nat off) buf ++ xs ++ skipn (Z.to_nat off + List.length xs) buf.

Definition step1 (b : byte) (s : deframer) : result :=
  let c := byte_val b in
  if state s =? 0 then
    Done (mkDeframer (buffer s) 1 (Int32.or (length s) (Int32.shl c 24)) (offset s)) []
  else if state s =? 1 then
    Done (mkDeframer (buffer s) 2 (Int32.or (length s) (Int32.shl c 16)) (offset s)) []
  else if state s =? 2 then
    Done (mkDeframer (buffer s) 3 (Int32.or (length s) (Int32.shl c 8)) (offset s)) []
  else if state s =? 3 then
    match new_Buffer (Int32.or (length s) c) with
    | Some buf => Done (mkDeframer buf 4 (Int32.or (length s) c) 0) []
    | None => Failed
    end
  else if state s =? 4 then
    if length s =? 0 then
      Done (mkDeframer [] 1 (Int32.or 0 (Int32.shl c 24)) 0) [buffer s]
    else if offset s + 1 =? length s then
      Done idle [fill (buffer s) (offset s) [b]]
    else Done (mkDeframer (fill (buffer s) (offset s) [b]) 4 (length s) (offset s + 1)) []
  else Done s [].

Lemma copy_fill chunk buf off i len :
  0 <= off -> 0 <= len -> 0 <= i -> i + len <= Z.of_nat (List.length chunk) ->
  copy chunk buf off i len = fill buf off (firstn (Z.to_nat len) (skipn (Z.to_nat i) chunk)).
Proof.
  intros. unfold copy, fill. do 3 f_equal.
  rewrite length_firstn, length_skipn. lia.
Qed.

Lemma parse_single b s : wf s -> parse [b] s = step1 b s.
Proof.
  intros Hwf. unfold parse, step1.
  change (Z.of_nat (List.length [b])) with 1.
  change (2 * List.length [b] + 1)%nat with 3%nat.
  cbn [loop]. change (0 <? 1) with true. cbv iota. unfold body.
  change (nth (Z.to_nat 0) [b] x00) with b.
  destruct (Z.eqb_spec (state s) 0); [reflexivity|].
  destruct (Z.eqb_spec (state s) 1); [reflexivity|].
  destruct (Z.eqb_spec (state s) 2); [reflexivity|].
  destruct (Z.eqb_spec (state s) 3).
  { destruct (new_Buffer _); reflexivity. }
  destruct (Z.eqb_spec (state s) 4) as [E4|]; [|reflexivity].
  destruct (Hwf E4) as (Ho & Hb & Hl).
  destruct (Z.eqb_spec (length s) 0) as [L0|L0].
  - assert (offset s = 0) as -> by lia. rewrite L0.
    destruct (buffer s) as [|x buf]; [|simpl in Hb; lia].
    reflexivity.
  - destruct (Z.geb_spec (1 - 0 + offset s) (length s)) as [Ge|Lt].
    + assert (E : length s - offset s = 1) by lia. rewrite E.
      destruct (Z.eqb_spec (offset s + 1) (length s)); [|lia].
      change (0 + (1 - 1) + 1 <? 1) with false. cbv iota.
      rewrite (copy_fill [b]) by (simpl; lia). reflexivity.
    + destruct (Z.eqb_spec (offset s + 1) (length s)); [lia|].
      change (0 + (1 - 0 - 1) + 1 <? 1) with false. cbv iota.
      rewrite (copy_fill [b]) by (simpl; lia). reflexivity.
Qed.

Lemma fill_nil buf off : fill buf off [] = buf.
Proof. unfold fill. simpl. rewrite Nat.add_0_r. apply firstn_skipn. Qed.

Lemma fill_cons buf off x xs :
  0 <= off -> (Z.to_nat off < List.length buf)%nat ->
  fill (fill buf off [x]) (off + 1) xs = fill buf off (x :: xs).
Proof.
  intros Ho Hlt. unfold fill.
  assert (Hf : List.length (firstn (Z.to_nat off) buf) = Z.to_nat off)
    by (rewrite length_firstn; lia).
  replace (Z.to_nat (off + 1)) with (Z.to_nat off + 1)%nat by lia.
  rewrite firstn_app, Hf, firstn_firstn.
  replace (Z.to_nat off + 1 - Z.to_nat off)%nat with 1%nat by lia.
  replace (Nat.min (Z.to_nat off + 1) (Z.to_nat off)) with (Z.to_nat off) by lia.
  cbn [app firstn List.length].
  rewrite <- app_assoc. cbn [app]. do 3 f_equal.
  rewrite skipn_app, Hf.
  rewrite (skipn_all2 (firstn (Z.to_nat off) buf)) by lia.
  replace (Z.to_nat off + 1 + List.length xs - Z.to_nat off)%nat
    with (S (List.length xs)) by lia.
  cbn [app skipn]. rewrite skipn_skipn. f_equal. lia.
Qed.

Definition bytewise (bs : list byte) (s : deframer) (out : list frame) : result :=
  feed (map single bs) s out.

Lemma bytewise_cons b bs s out :
  wf s ->
  bytewise (b :: bs) s out =
  match step1 b s with
  | Done s' fr => bytewise bs s' (out ++ fr)
  | r => r
  end.
Proof.
  intros Hwf. unfold bytewise. cbn [map feed]. unfold single at 1.
  now rewrite parse_single.
Qed.

(** In state 4, bytes that do not complete the frame are stored. *)
Lemma bytewise_store xs : forall s out,
  state s = 4 -> 0 <= offset s ->
  List.length (buffer s) = Z.to_nat (length s) ->
  offset s + Z.of_nat (List.length xs) < length s ->
  bytewise xs s out =
  Done (mkDeframer (fill (buffer s) (offset s) xs) 4 (length s)
          (offset s + Z.of_nat (List.length xs))) out.
Proof.
  induction xs as [|x xs IH]; intros s out E4 Ho Hb Hlt.
  - unfold bytewise. cbn [map feed List.length]. rewrite fill_nil, Z.add_0_r.
    destruct s; cbn in *. now subst.
  - cbn [List.length] in Hlt.
    rewrite bytewise_cons by (intros _; lia).
    unfold step1. rewrite E4. cbn [Z.eqb Pos.eqb].
    destruct (Z.eqb_spec (length s) 0); [lia|].
    destruct (Z.eqb_spec (offset s + 1) (length s)); [lia|].
    rewrite IH; fields; try lia.
    + rewrite app_nil_r, fill_cons by lia. do 2 f_equal.
      cbn [List.length]. lia.
    + unfold fill. rewrite !length_app, length_firstn, length_skipn.
      cbn [List.length]. lia.
Qed.

(** In state 4, the bytes that complete a non-empty frame deliver it and
    leave the parser idle. *)
Lemma bytewise_complete xs : forall ys s out,
  state s = 4 -> 0 <= offset s ->
  List.length (buffer s) = Z.to_nat (length s) ->
  xs <> [] ->
  offset s + Z.of_nat (List.length xs) = length s ->
  bytewise (xs ++ ys) s out =
  bytewise ys idle (out ++ [fill (buffer s) (offset s) xs]).
Proof.
  induction xs as [|x xs IH]; intros ys s out E4 Ho Hb Hne Hlt; [congruence|].
  cbn [List.length] in Hlt. cbn [app].
  rewrite bytewise_cons by (intros _; lia).
  unfold step1. rewrite E4. cbn [Z.eqb Pos.eqb].
  destruct (Z.eqb_spec (length s) 0); [lia|].
  destruct xs as [|x' xs].
  - cbn [List.length] in Hlt.
    destruct (Z.eqb_spec (offset s + 1) (length s)); [|lia]. reflexivity.
  - destruct (Z.eqb_spec (offset s + 1) (length s)); [cbn [List.length] in Hlt; lia|].
    rewrite IH; fields; try lia; try congruence.
    + rewrite app_nil_r, fill_cons by (cbn [List.length] in Hlt; lia). reflexivity.
    + unfold fill. rewrite !length_app, length_firstn, length_skipn.
      cbn [List.length] in *. lia.
Qed.

Lemma skipn_nth (chunk : list byte) (n : nat) :
  (n < List.length chunk)%nat ->
  skipn n chunk = nth n chunk x00 :: skipn (S n) chunk.
Proof.
  revert n. induction chunk as [|c chunk IH]; intros [|n] H; simpl in *; try lia.
  - reflexivity.
  - apply IH. lia.
Qed.

(** [parse] on a chunk is [parse] on its bytes, one at a time. *)
Lemma loop_bytewise fuel : forall chunk i s out,
  let l := Z.of_nat (List.length chunk) in
  wf s -> 0 <= i <= l -> turns l i s <= Z.of_nat fuel ->
  loop fuel chunk l i s out = bytewise (skipn (Z.to_nat i) chunk) s out.
Proof.
  induction fuel as [|fuel IH]; intros chunk i s out l Hwf Hi Hf.
  { assert (i = l) as -> by (unfold turns in Hf; destruct (state s =? 4); lia).
    simpl. rewrite Z.ltb_irrefl. subst l. rewrite Nat2Z.id, skipn_all. reflexivity. }
  cbn [loop]. destruct (Z.ltb_spec i l) as [Lt|Ge].
  2:{ rewrite skipn_all2 by lia. reflexivity. }
  rewrite (skipn_nth chunk (Z.to_nat i)) by lia.
  replace (S (Z.to_nat i)) with (Z.to_nat (i + 1)) by lia.
  set (b := nth (Z.to_nat i) chunk x00).
  rewrite bytewise_cons by assumption.
  destruct (body chunk l i s) as [i' s' fr|] eqn:Eb.
  2:{ revert Eb. unfold body, step1. fold b.
      repeat (destruct (_ =? _); try discriminate);
        try (destruct (_ >=? _); discriminate).
      destruct (new_Buffer _); [discriminate|reflexivity]. }
  pose proof (body_wf chunk i s i' s' fr Hwf ltac:(lia) Eb) as (Hwf' & Hi' & Ht).
  rewrite IH by (auto; subst l; lia). clear IH.
  fold l in Hi', Ht.
  pose proof (bytewise_cons b (skipn (Z.to_nat (i + 1)) chunk) s out Hwf) as Hcons.
  revert Eb. unfold body. fold b.
  destruct (Z.eqb_spec (state s) 0) as [E|];
    [intros [= <- <- <-]; unfold step1; rewrite E; reflexivity|].
  destruct (Z.eqb_spec (state s) 1) as [E|];
    [intros [= <- <- <-]; unfold step1; rewrite E; reflexivity|].
  destruct (Z.eqb_spec (state s) 2) as [E|];
    [intros [= <- <- <-]; unfold step1; rewrite E; reflexivity|].
  destruct (Z.eqb_spec (state s) 3) as [E|].
  { unfold step1; rewrite E; cbn [Z.eqb Pos.eqb].
    destruct (new_Buffer _); [now intros [= <- <- <-]|discriminate]. }
  destruct (Z.eqb_spec (state s) 4) as [E4|].
  2:{ intros [= <- <- <-]. unfold step1.
      destruct (Z.eqb_spec (state s) 0); [contradiction|].
      destruct (Z.eqb_spec (state s) 1); [contradiction|].
      destruct (Z.eqb_spec (state s) 2); [contradiction|].
      destruct (Z.eqb_spec (state s) 3); [contradiction|].
      destruct (Z.eqb_spec (state s) 4); [contradiction|]. reflexivity. }
  destruct (Hwf E4) as (Ho & Hb & Hl).
  destruct (Z.geb_spec (l - i + offset s) (length s)) as [Ge|Lt'].
  - intros [= <- <- <-].
    destruct (Z.eqb_spec (length s) 0) as [L0|L0].
    + (* the empty frame: the turn is taken again at the same index *)
      assert (O0 : offset s = 0) by lia.
      unfold step1. rewrite E4. cbn [Z.eqb Pos.eqb]. rewrite L0, O0. cbn [Z.eqb].
      replace (i + (0 - 0 - 1) + 1) with i by lia.
      destruct (buffer s) as [|x buf] eqn:Ebuf; [|simpl in Hb; lia].
      rewrite (skipn_nth chunk (Z.to_nat i)) by lia. fold b.
      rewrite bytewise_cons by apply wf_idle.
      replace (S (Z.to_nat i)) with (Z.to_nat (i + 1)) by lia.
      unfold step1, idle; fields. cbn [Z.eqb].
      rewrite app_nil_r. reflexivity.
    + (* the remaining bytes of the frame are in this chunk *)
      rewrite <- Hcons.
      set (k := length s - offset s).
      assert (Hk : 0 < k) by (subst k; lia).
      replace (i + (k - 1) + 1) with (i + k) by lia.
      rewrite copy_fill by lia.
      set (xs := firstn (Z.to_nat k) (skipn (Z.to_nat i) chunk)).
      assert (Hxs : List.length xs = Z.to_nat k).
      { subst xs. rewrite length_firstn, length_skipn. lia. }
      assert (Hsplit : skipn (Z.to_nat i) chunk = xs ++ skipn (Z.to_nat (i + k)) chunk).
      { subst xs. replace (Z.to_nat (i + k)) with (Z.to_nat k + Z.to_nat i)%nat by lia.
        rewrite <- skipn_skipn. symmetry. apply firstn_skipn. }
      assert (Hb' : b :: skipn (Z.to_nat (i + 1)) chunk = xs ++ skipn (Z.to_nat (i + k)) chunk).
      { rewrite <- Hsplit. rewrite (skipn_nth chunk (Z.to_nat i)) by lia.
        f_equal. f_equal. lia. }
      rewrite Hb'.
      rewrite bytewise_complete; auto; try lia.
      intros ->. simpl in Hxs. lia.
  - intros [= <- <- <-]. rewrite <- Hcons.
    replace (i + (l - i - 1) + 1) with l by lia.
    subst l. rewrite Nat2Z.id, skipn_all. unfold bytewise at 1. cbn [map feed].
    replace (b :: skipn (Z.to_nat (i + 1)) chunk) with (skipn (Z.to_nat i) chunk).
    2:{ rewrite (skipn_nth chunk (Z.to_nat i)) by lia. f_equal. f_equal. lia. }
    rewrite bytewise_store; auto.
    2:{ rewrite length_skipn. lia. }
    rewrite copy_fill by lia. rewrite length_skipn.
    rewrite firstn_all2 by (rewrite length_skipn; lia).
    rewrite app_nil_r. do 2 f_equal. lia.
Qed.

Theorem parse_bytewise chunk s : wf s -> parse chunk s = bytewise chunk s [].
Proof.
  intros Hwf. unfold parse. rewrite loop_bytewise; auto; [lia|].
  unfold turns. destruct (state s =? 4); lia.
Qed.

(** *** Chunking does not matter *)

Lemma feed_out chunks : forall s out,
  feed chunks s out =
  match feed chunks s [] with
  | Done s' fr => Done s' (out ++ fr)
  | r => r
  end.
Proof.
  induction chunks as [|c chunks IH]; intros s out; cbn [feed].
  - now rewrite app_nil_r.
  - destruct (parse c s) as [s' fr| |]; try reflexivity.
    rewrite (IH s' (out ++ fr)), (IH s' ([] ++ fr)).
    destruct (feed chunks s' []); try reflexivity.
    now rewrite app_assoc.
Qed.

Lemma feed_app xs ys : forall s out,
  feed (xs ++ ys) s out =
  match feed xs s out with
  | Done s' out' => feed ys s' out'
  | r => r
  end.
Proof.
  induction xs as [|x xs IH]; intros s out; cbn [app feed]; [reflexivity|].
  destruct (parse x s); auto.
Qed.

Lemma feed_wf chunks : forall s out s' out',
  wf s -> feed chunks s out = Done s' out' -> wf s'.
Proof.
  induction chunks as [|c chunks IH]; intros s out s' out' Hwf; cbn [feed].
  - now intros [= <- <-].
  - destruct (parse c s) as [s1 fr| |] eqn:E; try discriminate.
    apply IH. eapply parse_wf; eauto.
Qed.

(** Feeding chunks is feeding their bytes one at a time. *)
Theorem feed_bytewise chunks : forall s out,
  wf s -> feed chunks s out = bytewise (List.concat chunks) s out.
Proof.
  induction chunks as [|c chunks IH]; intros s out Hwf; [reflexivity|].
  cbn [feed List.concat]. unfold bytewise. rewrite map_app, feed_app.
  fold (bytewise c s out). unfold bytewise at 1. rewrite feed_out.
  fold (bytewise c s []). rewrite <- parse_bytewise by assumption.
  destruct (parse c s) as [s' fr| |] eqn:E; try reflexivity.
  apply IH. eapply parse_wf; eauto.
Qed.

(** *** The header *)

Lemma byte_val_range b : 0 <= byte_val b < 256.
Proof.
  unfold byte_val. pose proof (Byte.to_N_bounded b). lia.
Qed.

Lemma byte_val_of z : byte_val (byte_of z) = z mod 256.
Proof.
  unfold byte_val, byte_of.
  pose proof (Z.mod_pos_bound z 256 ltac:(lia)) as Hm.
  destruct (Byte.of_N (Z.to_N (z mod 256))) as [b|] eqn:E.
  - apply Byte.to_of_N in E. rewrite E. lia.
  - apply Byte.of_N_None_iff in E. lia.
Qed.

Lemma lor_disjoint a b k :
  0 <= k -> 0 <= b < 2^k -> a mod 2^k = 0 -> Z.lor a b = a + b.
Proof.
  intros Hk Hb Ha.
  assert (Hland : Z.land a b = 0).
  { apply Z.bits_inj'. intros n Hn. rewrite Z.land_spec, Z.bits_0.
    destruct (Z.ltb_spec n k) as [Lt|Ge].
    - replace a with (a / 2^k * 2^k).
      2:{ pose proof (Z.div_mod a (2^k) ltac:(lia)). lia. }
      rewrite Z.mul_pow2_bits_low by lia. reflexivity.
    - destruct (Z.eq_dec b 0) as [->|Hb0].
      + rewrite Z.bits_0. apply andb_false_r.
      + rewrite (Z.bits_above_log2 b n); [apply andb_false_r|lia|].
        assert (Z.log2 b < k) by (apply Z.log2_lt_pow2; lia). lia. }
  rewrite Z.add_nocarry_lxor by assumption.
  now rewrite Z.lxor_lor.
Qed.

Lemma header_value n :
  0 <= n < 2^31 ->
  let b0 := byte_val (byte_of (n / 2^24)) in
  let b1 := byte_val (byte_of (n / 2^16)) in
  let b2 := byte_val (byte_of (n / 2^8)) in
  let b3 := byte_val (byte_of n) in
  Int32.or (Int32.or (Int32.or (Int32.or 0 (Int32.shl b0 24)) (Int32.shl b1 16))
              (Int32.shl b2 8)) b3 = n.
Proof.
  intros Hn b0 b1 b2 b3. subst b0 b1 b2 b3. rewrite !byte_val_of.
  set (b0 := (n / 2^24) mod 256). set (b1 := (n / 2^16) mod 256).
  set (b2 := (n / 2^8) mod 256). set (b3 := n mod 256).
  assert (H0 : 0 <= b0 < 128).
  { subst b0. rewrite Z.mod_small; [split|].
    - apply Z.div_pos; lia.
    - apply Z.div_lt_upper_bound; lia.
    - split; [apply Z.div_pos; lia|apply Z.div_lt_upper_bound; lia]. }
  assert (H1 : 0 <= b1 < 256) by (apply Z.mod_pos_bound; lia).
  assert (H2 : 0 <= b2 < 256) by (apply Z.mod_pos_bound; lia).
  assert (H3 : 0 <= b3 < 256) by (apply Z.mod_pos_bound; lia).
  assert (Hsum : b0 * 2^24 + b1 * 2^16 + b2 * 2^8 + b3 = n).
  { subst b0 b1 b2 b3. change (2^24) with 16777216. change (2^16) with 65536.
    change (2^8) with 256. change (2^31) with 2147483648 in Hn.
    Z.div_mod_to_equations. lia. }
  unfold Int32.or, Int32.shl.
  rewrite !Z.shiftl_mul_pow2 by lia.
  change (2^24) with 16777216 in *. change (2^16) with 65536 in *.
  change (2^8) with 256 in *.
  assert (W : forall x, - 2147483648 <= x < 2147483648 -> Int32.wrap x = x).
  { intros x Hx. apply Int32.wrap_id. unfold Int32.in_range.
    change (2^31) with 2147483648. lia. }
  rewrite !Int32.wrap_wrap.
  rewrite (W 0), (W b0), (W b1), (W b2), (W b3) by lia.
  rewrite (W (b0 * 16777216)), (W (b1 * 65536)), (W (b2 * 256)) by lia.
  rewrite Z.lor_0_l, (W (b0 * 16777216)) by lia.
  rewrite (lor_disjoint (b0 * 16777216) (b1 * 65536) 24);
    [|lia|change (2^24) with 16777216; lia|change (2^24) with 16777216; apply Z.mod_mul; lia].
  rewrite (W (_ + _)) by lia.
  rewrite (lor_disjoint _ (b2 * 256) 16);
    [|lia|change (2^16) with 65536; lia|].
  2:{ change (2^16) with 65536.
      replace (b0 * 16777216 + b1 * 65536) with ((b0 * 256 + b1) * 65536) by lia.
      apply Z.mod_mul; lia. }
  rewrite (W (_ + _)) by lia.
  rewrite (lor_disjoint _ b3 8); [|lia|change (2^8) with 256; lia|].
  2:{ change (2^8) with 256.
      replace (b0 * 16777216 + b1 * 65536 + b2 * 256)
        with ((b0 * 65536 + b1 * 256 + b2) * 256) by lia.
      apply Z.mod_mul; lia. }
  rewrite W by lia.
  exact Hsum.
Qed.

(** *** Whole frames *)

(** A header for an empty frame has been read: the frame is handed over
    only when another byte arrives. *)
Definition pending_empty : deframer := mkDeframer [] 4 0 0.

Lemma wf_pending_empty : wf pending_empty.
Proof. unfold wf, pending_empty; simpl; lia. Qed.

Lemma bytewise_header n rest out :
  0 <= n < 2^31 ->
  bytewise (writeUInt32BE n ++ rest) idle out =
  bytewise rest (mkDeframer (repeat x00 (Z.to_nat n)) 4 n 0) out.
Proof.
  intros Hn. unfold writeUInt32BE. cbn [app].
  rewrite bytewise_cons by apply wf_idle.
  unfold step1 at 1, idle; fields; cbn [Z.eqb Pos.eqb].
  rewrite bytewise_cons by (intros [=]).
  unfold step1 at 1; fields; cbn [Z.eqb Pos.eqb].
  rewrite bytewise_cons by (intros [=]).
  unfold step1 at 1; fields; cbn [Z.eqb Pos.eqb].
  rewrite bytewise_cons by (intros [=]).
  unfold step1 at 1; fields; cbn [Z.eqb Pos.eqb].
  rewrite (header_value n Hn). unfold new_Buffer.
  destruct (Z.ltb_spec n 0); [lia|]. now rewrite !app_nil_r.
Qed.

Lemma fill_whole n (b : frame) :
  List.length b = n -> fill (repeat x00 n) 0 b = b.
Proof.
  intros <-. unfold fill. cbn [Z.to_nat firstn app Nat.add].
  rewrite skipn_all2 by (rewrite repeat_length; lia). apply app_nil_r.
Qed.

Lemma bytewise_frame (b : frame) rest out :
  b <> [] -> Z.of_nat (List.length b) < 2^31 ->
  bytewise (encode b ++ rest) idle out = bytewise rest idle (out ++ [b]).
Proof.
  intros Hne Hlen. unfold encode. rewrite <- app_assoc.
  rewrite bytewise_header by lia.
  rewrite bytewise_complete; fields; auto; try lia.
  - rewrite Nat2Z.id, fill_whole; reflexivity.
  - rewrite repeat_length. reflexivity.
Qed.

Lemma bytewise_empty_frame rest out :
  bytewise (encode [] ++ rest) idle out = bytewise rest pending_empty out.
Proof.
  unfold encode. rewrite <- app_assoc. cbn [List.length Z.of_nat].
  rewrite bytewise_header by lia. reflexivity.
Qed.

Lemma bytewise_pending_empty c rest out :
  bytewise (c :: rest) pending_empty out = bytewise (c :: rest) idle (out ++ [[]]).
Proof.
  rewrite !bytewise_cons by (apply wf_pending_empty || apply wf_idle).
  unfold step1, pending_empty, idle; fields; cbn [Z.eqb Pos.eqb].
  now rewrite app_nil_r.
Qed.

(** The frames a parser has handed over once it has read the encodings of
    [bs]: all of them, except an empty last one. *)
Fixpoint delivered (bs : list frame) : list frame :=
  match bs with
  | [] => []
  | b :: rest =>
      match rest, b with
      | [], [] => []
      | _, _ => b :: delivered rest
      end
  end.

Fixpoint resting (bs : list frame) : deframer :=
  match bs with
  | [] => idle
  | b :: rest =>
      match rest, b with
      | [], [] => pending_empty
      | _, _ => resting rest
      end
  end.

Lemma encode_cons (b : frame) :
  exists c tl, encode b = c :: tl.
Proof. unfold encode, writeUInt32BE. cbn [app]. eauto. Qed.

Lemma bytewise_encode_all bs : forall out,
  Forall (fun b : frame => Z.of_nat (List.length b) < 2^31) bs ->
  bytewise (encode_all bs) idle out = Done (resting bs) (out ++ delivered bs).
Proof.
  unfold encode_all.
  induction bs as [|b rest IH]; intros out Hall.
  - cbn. now rewrite app_nil_r.
  - inversion Hall as [|? ? Hb Hrest]; subst.
    cbn [map List.concat].
    destruct b as [|x b].
    + rewrite bytewise_empty_frame.
      destruct rest as [|b' rest'].
      * cbn. now rewrite app_nil_r.
      * cbn [map List.concat] in *.
        destruct (encode_cons b') as (c & tl & Ec). rewrite Ec in *.
        cbn [app] in *. rewrite bytewise_pending_empty.
        rewrite IH by assumption.
        cbn [resting delivered]. now rewrite <- app_assoc.
    + rewrite bytewise_frame by (congruence || assumption).
      rewrite IH by assumption.
      cbn [resting delivered].
      destruct rest; now rewrite <- app_assoc.
Qed.

(** X2: Framing round trip: whatever the chunking of the encoded stream, the
    parser hands over the frames in order; an empty last frame is still
    pending when the stream ends. *)
Theorem deFramer_chunked (bs : list frame) (chunks : list (list byte)) :
  Forall (fun b : frame => Z.of_nat (List.length b) < 2^31) bs ->
  List.concat chunks = encode_all bs ->
  feed chunks init [] = Done (resting bs) (delivered bs).
Proof.
  intros Hall Hc. rewrite feed_bytewise by apply wf_idle.
  rewrite Hc. apply (bytewise_encode_all bs [] Hall).
Qed.

Lemma delivered_all (bs : list frame) :
  last bs [x00] <> [] -> delivered bs = bs /\ resting bs = idle.
Proof.
  induction bs as [|b rest IH]; [auto|].
  cbn [last delivered resting]. destruct rest as [|b' rest'].
  - destruct b; [congruence|auto].
  - intros H. destruct (IH H) as [-> ->]. auto.
Qed.

(** With a non-empty last frame every frame has been handed over. *)
Corollary deFramer_chunked_all (bs : list frame) (chunks : list (list byte)) :
  Forall (fun b : frame => Z.of_nat (List.length b) < 2^31) bs ->
  last bs [x00] <> [] ->
  List.concat chunks = encode_all bs ->
  feed chunks init [] = Done init bs.
Proof.
  intros Hall Hlast Hc. rewrite feed_bytewise by apply wf_idle.
  rewrite Hc. change init with idle. rewrite (bytewise_encode_all bs [] Hall).
  destruct (delivered_all bs Hlast) as [-> ->]. reflexivity.
Qed.

(** C2, evaluated: a last frame that is empty is not handed over.  The
    stream for the single empty blob is its header [00 00 00 00]; after it
    [onFrame] has not been called (the parser waits in state 4), and the
    frame is delivered only when a byte of a next frame arrives.  A header
    whose first byte has its top bit set (a length of 2^31 or more) gives a
    negative [length], since [<<] and [|=] work on signed 32-bit integers. *)
Lemma deFramer_empty_last_frame :
  encode_all [[]] = [x00; x00; x00; x00] /\
  feed [[x00; x00; x00; x00]] init [] = Done pending_empty [] /\
  frames_of (feed [[x00; x00; x00; x00]] init []) <> Some [[]] /\
  frames_of (feed [[x00; x00; x00; x00]; [x00]] init []) = Some [[]] /\
  Int32.or 0 (Int32.shl (byte_val x80) 24) = - 2^31 /\
  parse [x80; x00; x00; x00] init = Failed.
Proof.
  repeat split; try (vm_compute; reflexivity).
  vm_compute. discriminate.
Qed.

End FramerFacts.

(** ** JavaScript values, as far as the program handles them

    Objects are modelled by their own enumerable properties, listed in the
    order [Object.keys] gives them.  Of the members inherited from
    [Object.prototype] and [Array.prototype] the program calls
    [hasOwnProperty], [map] and [forEach] on the values it marshals; an
    own property of that name shadows the inherited member, and the model
    follows the shadowing at each such call.  An assignment to the key
    [__proto__] sets the prototype instead of a property: there the model
    stops ([Unmodelled]).  A read of any other inherited member through a
    computed key (such as [api["toString"]]) is outside the model. *)
Module Js.

Inductive prim :=
| PUndefined
| PNull
| PBool (b : bool)
| PNum (n : Z)
| PStr (s : string)
| PBuffer (id : nat).      (* a Buffer, known by its identity; its bytes are never read *)

(** A wire value: what the serializer encodes and decodes, and what
    [freeze] returns; a tree. *)
#[local] Set Warnings "-register-all".
Inductive wire :=
| WPrim (p : prim)
| WArr (xs : list wire)
| WObj (kvs : list (string * wire)).

Abbreviation loc := nat.

(** A live value: arrays and plain objects are references into the heap,
    functions are references into the store of function objects. *)
Inductive value :=
| VPrim (p : prim)
| VRef (l : loc)
| VFun (f : nat)
| VError (code : option string) (message : string).

Inductive cell :=
| CArr (xs : list value)
| CObj (kvs : list (string * value)).

Abbreviation heap := (list cell).

(** A property key: an array index or a name. *)
Inductive key :=
| KIdx (i : nat)
| KStr (s : string).

Inductive exn :=
| TypeError (msg : string)
| Error (msg : string)
| Unmodelled (what : string).   (* the code leaves the modelled fragment *)

(** The outcome of a call: it returns, it throws (the state reached is
    kept: nothing is rolled back), or the model ran out of fuel. *)
Inductive outcome (St A : Type) :=
| Ret (a : A) (s : St)
| Throw (e : exn) (s : St)
| NoFuel.
Arguments Ret {St A} a s.
Arguments Throw {St A} e s.
Arguments NoFuel {St A}.

Definition M (St A : Type) := St -> outcome St A.

Definition ret {St A} (a : A) : M St A := fun s => Ret a s.
Definition throw {St A} (e : exn) : M St A := fun s => Throw e s.
Definition bind {St A B} (m : M St A) (k : A -> M St B) : M St B :=
  fun s => match m s with
           | Ret a s' => k a s'
           | Throw e s' => Throw e s'
           | NoFuel => NoFuel
           end.
Definition gets {St A} (f : St -> A) : M St A := fun s => Ret (f s) s.
Definition modify {St} (f : St -> St) : M St unit := fun s => Ret tt (f s).

(** Running a computation on one component of a pair of states. *)
Definition on_snd {S1 S2 A} (m : M S2 A) : M (S1 * S2) A :=
  fun s => match m (snd s) with
           | Ret a s2 => Ret a (fst s, s2)
           | Throw e s2 => Throw e (fst s, s2)
           | NoFuel => NoFuel
           end.

Declare Scope js_scope.
Delimit Scope js_scope with js.
Notation "x <- c1 ;; c2" := (bind c1 (fun x => c2))
  (at level 61, c1 at next level, right associativity) : js_scope.
Notation "c1 ;; c2" := (bind c1 (fun _ => c2))
  (at level 61, right associativity) : js_scope.

(** *** Truthiness and [typeof] *)
Definition truthy_prim (p : prim) : bool :=
  match p with
  | PUndefined | PNull => false
  | PBool b => b
  | PNum n => negb (n =? 0)
  | PStr s => negb (String.eqb s "")
  | PBuffer _ => true
  end.

Definition truthy (v : value) : bool :=
  match v with VPrim p => truthy_prim p | _ => true end.

Definition truthy_wire (w : wire) : bool :=
  match w with WPrim p => truthy_prim p | _ => true end.

(** *** Own properties *)
Fixpoint assoc {A} (k : string) (kvs : list (string * A)) : option A :=
  match kvs with
  | [] => None
  | (k', v) :: rest => if String.eqb k k' then Some v else assoc k rest
  end.

(** [obj[k] = v] *)
Fixpoint assoc_set {A} (k : string) (v : A) (kvs : list (string * A)) : list (string * A) :=
  match kvs with
  | [] => [(k, v)]
  | (k', v') :: rest =>
      if String.eqb k k' then (k, v) :: rest else (k', v') :: assoc_set k v rest
  end.

(** [arr[i] = v]; an index past the end leaves holes, read as [undefined]. *)
Definition arr_set (xs : list value) (i : nat) (v : value) : list value :=
  if (i <? List.length xs)%nat then firstn i xs ++ v :: skipn (S i) xs
  else xs ++ repeat (VPrim PUndefined) (i - List.length xs) ++ [v].

Fixpoint update {A} (l : list A) (i : nat) (x : A) : list A :=
  match l, i with
  | [], _ => []
  | _ :: r, O => x :: r
  | y :: r, S i' => y :: update r i' x
  end.

Definition value_eqb (a b : value) : bool :=
  match a, b with
  | VRef x, VRef y => (x =? y)%nat
  | VFun x, VFun y => (x =? y)%nat
  | _, _ => false
  end.

Definition key_wire (k : key) : wire :=
  match k with
  | KIdx i => WPrim (PNum (Z.of_nat i))
  | KStr s => WPrim (PStr s)
  end.

(** [key[0] === "$"] *)
Definition dollar (s : string) : bool :=
  match s with
  | String c _ => Ascii.eqb c "$"
  | EmptyString => false
  end.

(** The key whose assignment reaches the prototype. *)
Definition is_proto (s : string) : bool := String.eqb s "__proto__".

End Js.

(** ** freeze and liven (source lines 367-453, with the helpers [get],
    [forEach] and [map] of lines 471-504) *)
Module Marshal.
Import Js.
Open Scope js_scope.

Section WithCallbacks.
(** The state the two callbacks work on. *)
Context {St : Type}.
(** [storeFunction(fn)]: takes a function, returns its id. *)
Variable storeFunction : nat -> M St wire.
(** [getFunction(id)]: takes an id, returns the function. *)
Variable getFunction : wire -> M St value.

(** *** freeze *)

(** The arrays [seen] and [paths], kept side by side. *)
Definition registry := list (value * list key).

(** [paths[seen.indexOf(value)]], when the index is not -1. *)
Fixpoint indexOf (v : value) (seen : registry) : option (list key) :=
  match seen with
  | [] => None
  | (x, p) :: rest => if value_eqb x v then Some p else indexOf v rest
  end.

(** [{ "$": paths[index] }] *)
Definition backref (p : list key) : wire := WObj [("$"%string, WArr (List.map key_wire p))].

(** [keyMap]: [key[0] === "$" ? "$" + key : key] *)
Definition keyMap (k : string) : string := if dollar k then String "$" k else k.

(** [map] on an array: [Array.prototype.map]. *)
Definition map_arr {T} (callback : value -> key -> M T wire) :=
  fix go (xs : list value) (i : nat) : M T (list wire) :=
    match xs with
    | [] => ret []
    | x :: rest =>
        w <- callback x (KIdx i) ;;
        ws <- go rest (S i) ;;
        ret (w :: ws)
    end.

(** [map] on a plain object: the loop over [Object.keys(value)] that
    assigns [obj[keyMap(key)]]. *)
Definition map_obj {T} (callback : value -> key -> M T wire) :=
  fix go (kvs : list (string * value)) (obj : list (string * wire))
      : M T (list (string * wire)) :=
    match kvs with
    | [] => ret obj
    | (k, v) :: rest =>
        w <- callback v (KStr k) ;;
        if is_proto (keyMap k) then throw (Unmodelled "assignment to __proto__")
        else go rest (assoc_set (keyMap k) w obj)
    end.

(** The inner function [find] of [freeze]; [fuel] bounds the depth of
    the recursion. *)
Fixpoint ffind (fuel : nat) (h : heap) (value : value) (path : list key)
    : M (registry * St) wire :=
  match fuel with
  | O => fun _ => NoFuel
  | S fuel' =>
      match value with
      | VPrim p => ret (WPrim p)
      | VError _ _ => throw (Unmodelled "freeze of an Error object")
      | VRef _ | VFun _ =>
          index <- gets (fun st => indexOf value (fst st)) ;;
          match index with
          | Some p => ret (backref p)
          | None =>
              modify (fun st => (fst st ++ [(value, path)], snd st)) ;;
              match value with
              | VFun f =>
                  o <- on_snd (storeFunction f) ;;
                  if truthy_wire o then ret (WObj [("$"%string, o)])
                  else ret (WObj [])      (* [map] over a function without own properties *)
              | VRef l =>
                  match nth_error h l with
                  | Some (CArr xs) =>
                      ws <- map_arr (fun sub key => ffind fuel' h sub (path ++ [key])) xs 0%nat ;;
                      ret (WArr ws)
                  | Some (CObj kvs) =>
                      match assoc "map" kvs with
                      | Some (VFun _) => throw (Unmodelled "an own method named map")
                      | _ =>
                          o <- map_obj (fun sub key => ffind fuel' h sub (path ++ [key])) kvs [] ;;
                          ret (WObj o)
                      end
                  | None => throw (Unmodelled "dangling reference")
                  end
              | _ => ret (WPrim PUndefined)
              end
          end
      end
  end.

(** [freeze(value, storeFunction)].  A call of [find] below the root
    visits a node not yet seen, so the depth is at most the number of
    heap cells and function objects; [fuel] is the caller's bound. *)
Definition freeze (fuel : nat) (h : heap) (value : value) : M St wire :=
  fun s =>
    match ffind fuel h value [] ([], s) with
    | Ret w st => Ret w (snd st)
    | Throw e st => Throw e (snd st)
    | NoFuel => NoFuel
    end.

(** *** liven *)

(** [if (key[0] === "$") key = key.substr(1)]; an array index has no
    character 0. *)
Definition unescape (k : key) : key :=
  match k with
  | KStr (String c rest) => if Ascii.eqb c "$" then KStr rest else k
  | _ => k
  end.

Definition alloc (c : cell) : M (heap * St) loc :=
  fun s => Ret (List.length (fst s)) (fst s ++ [c], snd s).

(** [parent[key] = v], for a [parent] that [liven] created. *)
Definition set_prop (parent : loc) (k : key) (v : value) : M (heap * St) unit :=
  fun s =>
    match nth_error (fst s) parent, k with
    | Some (CObj kvs), KStr name =>
        if is_proto name then Throw (Unmodelled "assignment to __proto__") s
        else Ret tt (update (fst s) parent (CObj (assoc_set name v kvs)), snd s)
    | Some (CArr xs), KIdx i =>
        Ret tt (update (fst s) parent (CArr (arr_set xs i v)), snd s)
    | _, _ => Throw (Unmodelled "property assignment") s
    end.

(** [target[k]] for one component [k] of a path. *)
Definition prop_get (h : heap) (target : value) (k : wire) : exn + value :=
  match target with
  | VPrim PUndefined | VPrim PNull => inl (TypeError "cannot read a property of undefined or null")
  | VRef l =>
      match nth_error h l, k with
      | Some (CArr xs), WPrim (PNum n) =>
          if n <? 0 then inr (VPrim PUndefined)
          else inr (nth (Z.to_nat n) xs (VPrim PUndefined))
      | Some (CObj kvs), WPrim (PStr s) =>
          match assoc s kvs with
          | Some v => inr v
          | None => inr (VPrim PUndefined)
          end
      | _, _ => inl (Unmodelled "property access")
      end
  | _ => inl (Unmodelled "property access")
  end.

(** [get(root, path)]: traverse an object to get a value at a path. *)
Fixpoint get (h : heap) (target : value) (path : list wire) : exn + value :=
  match path with
  | [] => inr target
  | k :: rest =>
      match prop_get h target k with
      | inr t => get h t rest
      | inl e => inl e
      end
  end.

(** [obj.root] *)
Definition root_of (h : heap) (obj : loc) : value :=
  match nth_error h obj with
  | Some (CObj kvs) =>
      match assoc "root" kvs with Some v => v | None => VPrim PUndefined end
  | _ => VPrim PUndefined
  end.

(** [forEach] on an array and on a plain object. *)
Definition forEach_arr {T} (callback : wire -> key -> M T unit) :=
  fix go (xs : list wire) (i : nat) : M T unit :=
    match xs with
    | [] => ret tt
    | x :: rest => callback x (KIdx i) ;; go rest (S i)
    end.

Definition forEach_obj {T} (callback : wire -> key -> M T unit) :=
  fix go (kvs : list (string * wire)) : M T unit :=
    match kvs with
    | [] => ret tt
    | (k, x) :: rest => callback x (KStr k) ;; go rest
    end.

(** The inner function [find] of [liven]; [obj] is the holder of the
    root.  Its return value is not used by any caller and is left out. *)
Fixpoint lfind (obj : loc) (value : wire) (parent : loc) (key : key)
    : M (heap * St) unit :=
  let key := unescape key in
  match value with
  | WPrim p => set_prop parent key (VPrim p)
  | WArr xs =>
      o <- alloc (CArr []) ;;
      set_prop parent key (VRef o) ;;
      forEach_arr (fun sub key => lfind obj sub o key) xs 0%nat
  | WObj kvs =>
      (* [value.hasOwnProperty("$")]: the member is looked up on [value]
         first, and no wire value is a function *)
      match assoc "hasOwnProperty" kvs with
      | Some _ => throw (TypeError "value.hasOwnProperty is not a function")
      | None =>
          match assoc "$" kvs with
          | Some (WArr special) =>
              target <- gets (fun s => get (fst s) (root_of (fst s) obj) special) ;;
              match target with
              | inr v => set_prop parent key v
              | inl e => throw e
              end
          | Some special =>
              f <- on_snd (getFunction special) ;;
              set_prop parent key f
          | None =>
              o <- alloc (CObj []) ;;
              set_prop parent key (VRef o) ;;
              forEach_obj (fun sub key => lfind obj sub o key) kvs
          end
      end
  end.

(** [liven(message, getFunction)] *)
Definition liven (message : wire) : M (heap * St) value :=
  obj <- alloc (CObj []) ;;
  lfind obj message obj (KStr "root") ;;
  gets (fun s => root_of (fst s) obj).

End WithCallbacks.

End Marshal.

(** ** What liven leaves alone *)
Module MarshalFrame.
Import Js Marshal.

(** Induction on wire values, through the lists they nest. *)
Section WireInd.
Variable P : wire -> Prop.
Hypothesis Hprim : forall p, P (WPrim p).
Hypothesis Harr : forall xs, Forall P xs -> P (WArr xs).
Hypothesis Hobj : forall kvs, Forall (fun kv => P (snd kv)) kvs -> P (WObj kvs).

Fixpoint wire_induction (w : wire) : P w :=
  match w with
  | WPrim p => Hprim p
  | WArr xs =>
      Harr xs ((fix go (l : list wire) : Forall P l :=
                  match l with
                  | [] => Forall_nil P
                  | x :: r => Forall_cons x (wire_induction x) (go r)
                  end) xs)
  | WObj kvs =>
      Hobj kvs ((fix go (l : list (string * wire)) : Forall (fun kv => P (snd kv)) l :=
                   match l with
                   | [] => Forall_nil _
                   | kv :: r => Forall_cons kv (wire_induction (snd kv)) (go r)
                   end) kvs)
  end.
End WireInd.

Section Frame.
Context {St : Type}.
Variable getFunction : wire -> M St value.
(** A relation between the callback's states that it keeps. *)
Variable R : St -> St -> Prop.
Hypothesis R_refl : forall s, R s s.
Hypothesis R_trans : forall a b c, R a b -> R b c -> R a c.
Hypothesis getFunction_R : forall k s,
  match getFunction k s with
  | Ret _ s' | Throw _ s' => R s s'
  | NoFuel => False
  end.

Definition kept {A} (s : heap * St) (o : outcome (heap * St) A) : Prop :=
  match o with
  | Ret _ s' | Throw _ s' => R (snd s) (snd s')
  | NoFuel => False
  end.

Lemma kept_bind {A B} (m : M (heap * St) A) (k : A -> M (heap * St) B) s :
  kept s (m s) -> (forall a s', R (snd s) (snd s') -> kept s' (k a s')) ->
  kept s (bind m k s).
Proof.
  unfold bind, kept. intros Hm Hk. destruct (m s) as [a s'|e s'|]; auto.
  specialize (Hk a s' Hm). destruct (k a s') as [b s''|e s''|]; eauto.
Qed.

Lemma kept_set_prop parent k v s : kept s (set_prop (St:=St) parent k v s).
Proof.
  unfold set_prop, kept. destruct (nth_error (fst s) parent) as [[xs|kvs]|];
    destruct k as [i|name]; try destruct (is_proto name); cbn; auto.
Qed.

Lemma kept_forEach_arr (cb : wire -> key -> M (heap * St) unit) xs :
  Forall (fun x => forall k s, kept s (cb x k s)) xs ->
  forall i s, kept s (forEach_arr cb xs i s).
Proof.
  induction 1 as [|x xs Hx _ IH]; intros i s; cbn [forEach_arr].
  - apply R_refl.
  - apply kept_bind; [apply Hx|]. intros _ s' _. apply IH.
Qed.

Lemma kept_forEach_obj (cb : wire -> key -> M (heap * St) unit) kvs :
  Forall (fun kv => forall k s, kept s (cb (snd kv) k s)) kvs ->
  forall s, kept s (forEach_obj cb kvs s).
Proof.
  induction 1 as [|[k x] kvs Hx _ IH]; intros s; cbn [forEach_obj].
  - apply R_refl.
  - apply kept_bind; [apply Hx|]. intros _ s' _. apply IH.
Qed.

Lemma lfind_kept obj w : forall parent k s,
  kept s (lfind getFunction obj w parent k s).
Proof.
  induction w as [p|xs IH|kvs IH] using wire_induction; intros parent k s; cbn [lfind].
  - apply kept_set_prop.
  - apply kept_bind; [apply R_refl|]. intros o s1 _.
    apply kept_bind; [apply kept_set_prop|]. intros _ s2 _.
    apply kept_forEach_arr.
    eapply Forall_impl; [|exact IH]. intros x Hx k' s'. apply Hx.
  - destruct (assoc "hasOwnProperty" kvs); [apply R_refl|].
    destruct (assoc "$" kvs) as [[p|special|o]|].
    + apply kept_bind.
      * unfold on_snd, kept. pose proof (getFunction_R (WPrim p) (snd s)) as H.
        destruct (getFunction (WPrim p) (snd s)); auto.
      * intros f s' _. apply kept_set_prop.
    + apply kept_bind; [apply R_refl|]. intros [e|v] s' _.
      * apply R_refl.
      * apply kept_set_prop.
    + apply kept_bind.
      * unfold on_snd, kept. pose proof (getFunction_R (WObj o) (snd s)) as H.
        destruct (getFunction (WObj o) (snd s)); auto.
      * intros f s' _. apply kept_set_prop.
    + apply kept_bind; [apply R_refl|]. intros o s1 _.
      apply kept_bind; [apply kept_set_prop|]. intros _ s2 _.
      apply kept_forEach_obj.
      eapply Forall_impl; [|exact IH]. intros x Hx k' s'. apply Hx.
Qed.

(** [liven] changes the callback's state only through [getFunction]. *)
Lemma liven_kept message s : kept s (liven getFunction message s).
Proof.
  unfold liven. apply kept_bind; [apply R_refl|]. intros obj s1 _.
  apply kept_bind; [apply lfind_kept|]. intros _ s2 _. apply R_refl.
Qed.

End Frame.

(** *** What [lfind] does to the heap *)
Section HeapEffect.
Context {St : Type}.
Variable getFunction : wire -> M St value.

(** [c[k] = v] on a cell. *)
Definition cell_set (c : cell) (k : key) (v : value) : option cell :=
  match c, k with
  | CObj kvs, KStr name => Some (CObj (assoc_set name v kvs))
  | CArr xs, KIdx i => Some (CArr (arr_set xs i v))
  | _, _ => None
  end.

(** The cells that were there stay, except [parent]. *)
Definition grows_around (parent : loc) (h h' : heap) : Prop :=
  (List.length h <= List.length h')%nat /\
  forall l, (l < List.length h)%nat -> l <> parent -> nth_error h' l = nth_error h l.

Lemma grows_around_refl parent h : grows_around parent h h.
Proof. split; auto. Qed.

Lemma grows_around_trans p1 p2 h1 h2 h3 :
  grows_around p1 h1 h2 -> grows_around p2 h2 h3 ->
  forall parent, (forall l, (l < List.length h1)%nat -> l <> parent -> l <> p1 /\ l <> p2) ->
  grows_around parent h1 h3.
Proof.
  intros [L1 H1] [L2 H2] parent Hp. split; [lia|].
  intros l Hl Hne. destruct (Hp l Hl Hne) as [N1 N2].
  rewrite H2 by lia. now apply H1.
Qed.

Lemma nth_error_update' {A} (l : list A) i x :
  (i < List.length l)%nat -> nth_error (update l i x) i = Some x.
Proof.
  revert i. induction l as [|y l IH]; intros [|i] H; simpl in *; try lia; auto.
  apply IH. lia.
Qed.

Lemma nth_error_update_other {A} (l : list A) i j x :
  i <> j -> nth_error (update l i x) j = nth_error l j.
Proof.
  revert i j. induction l as [|y l IH]; intros [|i] [|j] H; simpl in *; auto; congruence.
Qed.

Lemma update_length {A} (l : list A) i x : List.length (update l i x) = List.length l.
Proof. revert i. induction l as [|y l IH]; intros [|i]; simpl; auto. Qed.

Lemma set_prop_Ret parent k v (s s' : heap * St) :
  set_prop parent k v s = Ret tt s' ->
  exists c c', nth_error (fst s) parent = Some c /\ cell_set c k v = Some c' /\
               s' = (update (fst s) parent c', snd s).
Proof.
  unfold set_prop. destruct (nth_error (fst s) parent) as [[xs|kvs]|] eqn:E;
    destruct k as [i|name]; try destruct (is_proto name); try discriminate;
    intros [= <-]; do 2 eexists; repeat split; reflexivity.
Qed.

Lemma set_prop_effect parent k v (s s' : heap * St) :
  set_prop parent k v s = Ret tt s' ->
  grows_around parent (fst s) (fst s') /\ snd s' = snd s /\
  exists c c', nth_error (fst s) parent = Some c /\ cell_set c k v = Some c' /\
               nth_error (fst s') parent = Some c'.
Proof.
  intros H. destruct (set_prop_Ret _ _ _ _ _ H) as (c & c' & Hc & Hs & ->).
  cbn [fst snd]. split; [|split; [reflexivity|]].
  - split; [rewrite update_length; lia|].
    intros l Hl Hne. apply nth_error_update_other. congruence.
  - exists c, c'. repeat split; auto. apply nth_error_update'.
    apply nth_error_Some. congruence.
Qed.

(** The effect of a call of [find] that returns. *)
Definition find_effect (w : wire) (parent : loc) (k : key) (s : heap * St)
    (o : outcome (heap * St) unit) : Prop :=
  match o with
  | Ret _ s' =>
      grows_around parent (fst s) (fst s') /\
      exists c c' v, nth_error (fst s) parent = Some c /\
                     cell_set c (unescape k) v = Some c' /\
                     nth_error (fst s') parent = Some c' /\
                     forall p, w = WPrim p -> v = VPrim p
  | _ => True
  end.

Lemma forEach_arr_effect (cb : wire -> key -> M (heap * St) unit) o xs :
  Forall (fun x => forall k s, (o < List.length (fst s))%nat ->
                               find_effect x o k s (cb x k s)) xs ->
  forall i s s', (o < List.length (fst s))%nat ->
    forEach_arr cb xs i s = Ret tt s' -> grows_around o (fst s) (fst s').
Proof.
  induction 1 as [|x xs Hx _ IH]; intros i s s' Ho; cbn [forEach_arr].
  - intros [= <-]. apply grows_around_refl.
  - unfold bind. specialize (Hx (KIdx i) s Ho).
    destruct (cb x (KIdx i) s) as [[] s1|e s1|] eqn:E; try discriminate.
    destruct Hx as [G1 _]. intros H.
    assert (Ho1 : (o < List.length (fst s1))%nat) by (destruct G1; lia).
    specialize (IH _ _ _ Ho1 H).
    eapply grows_around_trans; eauto.
Qed.

Lemma forEach_obj_effect (cb : wire -> key -> M (heap * St) unit) o kvs :
  Forall (fun kv => forall k s, (o < List.length (fst s))%nat ->
                                find_effect (snd kv) o k s (cb (snd kv) k s)) kvs ->
  forall s s', (o < List.length (fst s))%nat ->
    forEach_obj cb kvs s = Ret tt s' -> grows_around o (fst s) (fst s').
Proof.
  induction 1 as [|[k x] kvs Hx _ IH]; intros s s' Ho; cbn [forEach_obj].
  - intros [= <-]. apply grows_around_refl.
  - unfold bind. specialize (Hx (KStr k) s Ho). cbn [snd] in Hx.
    destruct (cb x (KStr k) s) as [[] s1|e s1|] eqn:E; try discriminate.
    destruct Hx as [G1 _]. intros H.
    assert (Ho1 : (o < List.length (fst s1))%nat) by (destruct G1; lia).
    specialize (IH _ _ Ho1 H).
    eapply grows_around_trans; eauto.
Qed.

(** A container: the new cell [o] is allocated and linked, then filled. *)
Lemma container_effect (c0 : cell) (fill : loc -> M (heap * St) unit) w parent k s :
  (forall p, w <> WPrim p) ->
  (parent < List.length (fst s))%nat ->
  (forall o s1 s', (o < List.length (fst s1))%nat ->
     fill o s1 = Ret tt s' -> grows_around o (fst s1) (fst s')) ->
  find_effect w parent k s
    (bind (alloc c0) (fun o => bind (set_prop parent (unescape k) (VRef o))
                                 (fun _ => fill o)) s).
Proof.
  intros Hw Hp Hfill. unfold bind, alloc. cbn [fst snd].
  destruct (set_prop parent (unescape k) (VRef (List.length (fst s)))
              (fst s ++ [c0], snd s)) as [[] s1|e s1|] eqn:E; cbn; auto.
  destruct (fill (List.length (fst s)) s1) as [[] s2|e s2|] eqn:F; cbn; auto.
  destruct (set_prop_effect _ _ _ _ _ E) as ([L1 G1] & _ & c & c' & Hc & Hs & Hc').
  cbn [fst] in *. rewrite length_app in L1. cbn [List.length] in L1.
  assert (Ho : (List.length (fst s) < List.length (fst s1))%nat) by lia.
  destruct (Hfill _ _ _ Ho F) as [L2 G2].
  rewrite nth_error_app1 in Hc by assumption.
  split; [split; [lia|]|].
  - intros l Hl Hne. rewrite G2 by lia.
    rewrite G1 by (rewrite ?length_app; cbn; lia || assumption).
    now apply nth_error_app1.
  - exists c, c', (VRef (List.length (fst s))). repeat split; auto.
    + rewrite G2 by lia. assumption.
    + intros p ->. now destruct (Hw p).
Qed.

Lemma lfind_effect obj w : forall parent k s,
  (parent < List.length (fst s))%nat ->
  find_effect w parent k s (lfind getFunction obj w parent k s).
Proof.
  induction w as [p|xs IH|kvs IH] using wire_induction; intros parent k s Hp; cbn [lfind].
  - unfold find_effect.
    destruct (set_prop parent (unescape k) (VPrim p) s) as [[] s'|e s'|] eqn:E; auto.
    destruct (set_prop_effect _ _ _ _ _ E) as (G & _ & c & c' & Hc & Hs & Hc').
    split; [assumption|]. exists c, c', (VPrim p). repeat split; auto.
    now intros p' [= ->].
  - apply container_effect; [discriminate|assumption|].
    intros o s1 s' Ho. apply forEach_arr_effect; [|assumption].
    eapply Forall_impl; [|exact IH]. intros x Hx k' s2 Ho2. now apply Hx.
  - assert (Hset : forall v s1, fst s1 = fst s ->
              find_effect (WObj kvs) parent k s (set_prop parent (unescape k) v s1)).
    { intros v s1 Hs1. unfold find_effect.
      destruct (set_prop parent (unescape k) v s1) as [[] s'|e s'|] eqn:E; auto.
      destruct (set_prop_effect _ _ _ _ _ E) as (G & _ & c & c' & Hc & Hs & Hc').
      rewrite Hs1 in *. split; [assumption|]. exists c, c', v. repeat split; auto.
      discriminate. }
    destruct (assoc "hasOwnProperty" kvs); [exact I|].
    destruct (assoc "$" kvs) as [[p|special|o]|].
    + unfold bind, on_snd. destruct (getFunction (WPrim p) (snd s)); cbn; auto.
    + unfold bind, gets. destruct (get _ _ _); cbn; auto.
    + unfold bind, on_snd. destruct (getFunction (WObj o) (snd s)); cbn; auto.
    + apply container_effect; [discriminate|assumption|].
      intros o s1 s' Ho. apply forEach_obj_effect; [|assumption].
      eapply Forall_impl; [|exact IH]. intros x Hx k' s2 Ho2. now apply Hx.
Qed.

Lemma arr_set_head y ys i v :
  (1 <= i)%nat -> exists zs, arr_set (y :: ys) i v = y :: zs.
Proof.
  intros Hi. unfold arr_set. destruct i as [|i]; [lia|].
  destruct (Nat.ltb_spec (S i) (List.length (y :: ys))); cbn; eauto.
Qed.

(** Elements after the first one leave the first one in place. *)
Lemma forEach_arr_head obj o y xs : forall i s s' ys,
  (1 <= i)%nat -> (o < List.length (fst s))%nat ->
  nth_error (fst s) o = Some (CArr (y :: ys)) ->
  forEach_arr (fun sub key => lfind getFunction obj sub o key) xs i s = Ret tt s' ->
  grows_around o (fst s) (fst s') /\
  exists zs, nth_error (fst s') o = Some (CArr (y :: zs)).
Proof.
  induction xs as [|x xs IH]; intros i s s' ys Hi Ho Hc; cbn [forEach_arr].
  - intros [= <-]. split; [apply grows_around_refl|eauto].
  - unfold bind. pose proof (lfind_effect obj x o (KIdx i) s Ho) as He.
    destruct (lfind getFunction obj x o (KIdx i) s) as [[] s1|e s1|]; try discriminate.
    destruct He as (G1 & c & c' & v & Hc1 & Hset & Hc' & _).
    rewrite Hc in Hc1. injection Hc1 as <-. cbn in Hset.
    destruct (arr_set_head y ys i v Hi) as (zs & Hzs). rewrite Hzs in Hset.
    injection Hset as <-. intros H.
    assert (Ho1 : (o < List.length (fst s1))%nat) by (destruct G1; lia).
    destruct (IH (S i) s1 s' zs ltac:(lia) Ho1 Hc' H) as (G2 & zs' & Hz).
    split; [|eauto]. eapply grows_around_trans; eauto.
Qed.

(** The livened form of an array that starts with a primitive is an array
    that starts with that primitive. *)
Lemma liven_array p rest s m s' :
  liven getFunction (WArr (WPrim p :: rest)) s = Ret m s' ->
  exists l elems, m = VRef l /\ nth_error (fst s') l = Some (CArr (VPrim p :: elems)).
Proof.
  unfold liven, bind, alloc. cbn [lfind unescape]. unfold bind, alloc. cbn [fst snd].
  set (obj := List.length (fst s)).
  set (h1 := (fst s ++ [CObj []]) ++ [CArr []]).
  assert (Hobj : nth_error h1 obj = Some (CObj [])).
  { subst h1 obj. rewrite nth_error_app1 by (rewrite length_app; cbn; lia).
    rewrite nth_error_app2, Nat.sub_diag by lia. reflexivity. }
  assert (Hlen : List.length h1 = S (S obj)).
  { subst h1 obj. rewrite !length_app. cbn. lia. }
  replace (List.length (fst s ++ [CObj []])) with (S obj)
    by (rewrite length_app; cbn; lia).
  change (Ascii.eqb "r" "$") with false. cbv iota.
  unfold set_prop at 1. cbn [fst snd]. rewrite Hobj.
  change (is_proto "root") with false. cbn [assoc_set].
  set (h2 := update h1 obj (CObj [("root"%string, VRef (S obj))])).
  assert (Ho : nth_error h2 (S obj) = Some (CArr [])).
  { subst h2. rewrite nth_error_update_other by lia. subst h1.
    rewrite nth_error_app2; rewrite length_app; cbn [List.length]; [|lia].
    replace (S obj - (List.length (fst s) + 1))%nat with 0%nat by (subst obj; lia).
    reflexivity. }
  cbn [forEach_arr]. unfold bind at 1. cbn [lfind unescape].
  unfold set_prop at 1. cbn [fst snd]. rewrite Ho.
  change (arr_set [] 0 (VPrim p)) with [VPrim p].
  set (h3 := update h2 (S obj) (CArr [VPrim p])).
  assert (Hlen3 : List.length h3 = S (S obj)).
  { subst h3 h2. now rewrite !update_length. }
  destruct (forEach_arr _ rest 1%nat (h3, snd s)) as [[] s4|e s4|] eqn:F; try discriminate.
  unfold gets. intros [= <- <-].
  apply forEach_arr_head with (y := VPrim p) (ys := []) in F; cbn [fst]; try lia.
  2:{ subst h3. apply nth_error_update'. subst h2. rewrite update_length. lia. }
  destruct F as ([L G] & zs & Hz). cbn [fst] in *.
  exists (S obj), zs. split; [|assumption].
  unfold root_of. rewrite G by lia.
  subst h3. rewrite nth_error_update_other by lia.
  subst h2. rewrite nth_error_update' by lia. reflexivity.
Qed.

End HeapEffect.

End MarshalFrame.

(** ** The Remote: the Peer (source lines 200-365) *)
Module Remote.
Import Js Marshal.
Open Scope js_scope.

(** The identity of a Transport object. *)
Abbreviation tid := nat.

(** Function objects.  An application procedure is opaque: entering it is
    recorded, and it is taken to return without calling back into the
    Remote.  The other closures are the ones the source creates, with the
    variables they capture. *)
Inductive closure :=
| FnApp
| FnOnReady                                      (* [this._onReady], bound *)
| FnProxy (name : string)                        (* [self.api[name]], line 253 *)
| FnRemote (transport : option tid) (key : wire) (* [_getFunction(key)], line 336 *)
| FnWrapper (callbacks : nat) (key : Z) (fn : nat) (* [callbacks[key]], line 359 *)
| FnReady (keys : loc).                          (* [function (callback) { callback(keys) }], line 319 *)

(** What reaches [Transport.prototype.send]: a frozen message (from
    [Remote.prototype.send]) or the raw array [[key, args...]] the proxy
    of [_getFunction] builds. *)
Inductive outmsg :=
| Frozen (w : wire)
| Raw (key : wire) (args : list value).

Inductive event :=
| Emit (name : string) (args : list value)   (* [this.emit(name, ...)] on the Remote *)
| Send (t : tid) (m : outmsg)                (* [transport.send(m)] on Transport [t] *)
| Call (f : nat) (args : list value)         (* application procedure [f] is entered *)
| On (t : tid)                               (* the three listeners are put on [t] *)
| Off (t : tid).                             (* ... and removed from it *)

(** A callback table: the own properties of the object, in insertion
    order; the value is the address of the wrapper. *)
Definition table := list (Z * nat).

Record remote := mkRemote {
  funs : list closure;              (* the function objects, by address *)
  tables : list table;              (* the callback-table objects, by identity *)
  agent_api : list (string * value);(* [this.agent.api] *)
  api : list (string * value);      (* [this.api] *)
  transport : option tid;           (* [this.transport] *)
  callbacks : option nat;           (* [this.callbacks] *)
  nextKey : option Z;               (* [this.nextKey] *)
  onReady : nat;                    (* [this._onReady] *)
  trace : list event }.             (* what the Remote has done, oldest first *)

Definition world := (heap * remote)%type.

Definition set_funs x r := mkRemote x (tables r) (agent_api r) (api r) (transport r) (callbacks r) (nextKey r) (onReady r) (trace r).
Definition set_tables x r := mkRemote (funs r) x (agent_api r) (api r) (transport r) (callbacks r) (nextKey r) (onReady r) (trace r).
Definition set_api x r := mkRemote (funs r) (tables r) (agent_api r) x (transport r) (callbacks r) (nextKey r) (onReady r) (trace r).
Definition set_transport x r := mkRemote (funs r) (tables r) (agent_api r) (api r) x (callbacks r) (nextKey r) (onReady r) (trace r).
Definition set_callbacks x r := mkRemote (funs r) (tables r) (agent_api r) (api r) (transport r) x (nextKey r) (onReady r) (trace r).
Definition set_nextKey x r := mkRemote (funs r) (tables r) (agent_api r) (api r) (transport r) (callbacks r) x (onReady r) (trace r).
Definition log (e : event) r := mkRemote (funs r) (tables r) (agent_api r) (api r) (transport r) (callbacks r) (nextKey r) (onReady r) (trace r ++ [e]).

(** A new function object. *)
Definition new_fun (c : closure) : M remote value :=
  fun r => Ret (VFun (List.length (funs r))) (set_funs (funs r ++ [c]) r).

(** *** Callback tables *)
Fixpoint lookup (k : Z) (t : table) : option nat :=
  match t with
  | [] => None
  | (k', a) :: rest => if k =? k' then Some a else lookup k rest
  end.

(** [callbacks.hasOwnProperty(key)] *)
Definition hasOwnProperty (t : table) (k : Z) : bool :=
  match lookup k t with Some _ => true | None => false end.

(** [callbacks[key] = a] *)
Fixpoint store (k : Z) (a : nat) (t : table) : table :=
  match t with
  | [] => [(k, a)]
  | (k', a') :: rest => if k =? k' then (k, a) :: rest else (k', a') :: store k a rest
  end.

(** [delete callbacks[key]] *)
Definition delete (k : Z) (t : table) : table :=
  filter (fun kv => negb (fst kv =? k)) t.

Fixpoint insert_sorted (k : Z) (l : list Z) : list Z :=
  match l with
  | [] => [k]
  | x :: rest => if k <=? x then k :: l else x :: insert_sorted k rest
  end.

(** [Object.keys(callbacks)]: the array indices in ascending order, then
    the other keys (the negative ones) in insertion order. *)
Definition own_keys (t : table) : list Z :=
  fold_right insert_sorted [] (filter (fun k => 0 <=? k) (List.map fst t))
  ++ filter (fun k => k <? 0) (List.map fst t).

(** *** _storeFunction (lines 346-365) *)

Inductive scanned :=
| Found (key : Z)        (* the loop ended: [key] is free *)
| RanOut                 (* the [throw] *)
| Continue (key : Z).    (* the loop goes on at [key] *)

(** One test of the loop condition, and one turn of the body when it
    holds. *)
Definition turn (t : table) (start key : Z) : scanned :=
  if hasOwnProperty t key then
    let key' := Int32.sar0 (key + 1) in
    if key' =? start then RanOut else Continue key'
  else Found key.

(** Up to [2^n] turns of the [while] loop. *)
Fixpoint scan (n : nat) (t : table) (start key : Z) : scanned :=
  match n with
  | O => turn t start key
  | S n' =>
      match scan n' t start key with
      | Continue key' => scan n' t start key'
      | r => r
      end
  end.

Definition _storeFunction (fn : nat) : M remote wire :=
  fun r =>
    match callbacks r, nextKey r with
    | None, _ => Throw (TypeError "this.callbacks is undefined") r
    | Some c, None => Throw (Unmodelled "nextKey is undefined") r
    | Some c, Some start =>
        match nth_error (tables r) c with
        | None => Throw (Unmodelled "no such table") r
        | Some t =>
            (* the loop returns to [nextKey] within 2^32 turns *)
            match scan 32 t start start with
            | Found key =>
                let wrapper := List.length (funs r) in
                Ret (WPrim (PNum key))
                  (set_tables (update (tables r) c (store key wrapper t))
                     (set_funs (funs r ++ [FnWrapper c key fn])
                        (set_nextKey (Some (Int32.sar0 (key + 1))) r)))
            | RanOut => Throw (Error "Ran out of keys!!") r
            | Continue _ => NoFuel
            end
        end
    end.

(** *** _getFunction (lines 334-343) *)
Definition _getFunction (key : wire) : M remote value :=
  fun r => new_fun (FnRemote (transport r) key) r.

(** *** send (lines 239-242) *)
Definition send (message : value) : M world unit :=
  fun w =>
    match freeze _storeFunction (S (List.length (fst w))) (fst w) message (snd w) with
    | Ret frozen r =>
        match transport r with
        | Some t => Ret tt (fst w, log (Send t (Frozen frozen)) r)
        | None => Throw (TypeError "this.transport is undefined") (fst w, r)
        end
    | Throw e r => Throw e (fst w, r)
    | NoFuel => NoFuel
    end.

Definition emit (name : string) (args : list value) : M world unit :=
  modify (fun w => (fst w, log (Emit name args) (snd w))).

Definition on_remote {A} (m : M remote A) : M world A := on_snd m.

(** *** _onReady (lines 244-270) *)

(** The callback of [names.forEach]. *)
Definition install (name : value) : M remote unit :=
  match name with
  | VPrim (PStr s) =>
      fun r =>
        match assoc s (api r) with
        | Some v =>
            if truthy v then Ret tt r
            else (f <- new_fun (FnProxy s) ;; modify (fun r => set_api (assoc_set s f (api r)) r)) r
        | None => (f <- new_fun (FnProxy s) ;; modify (fun r => set_api (assoc_set s f (api r)) r)) r
        end
  | _ => throw (Unmodelled "a name that is not a string")
  end.

Fixpoint install_all (names : list value) : M remote unit :=
  match names with
  | [] => ret tt
  | n :: rest => install n ;; install_all rest
  end.

Definition isArray (h : heap) (v : value) : bool :=
  match v with
  | VRef l => match nth_error h l with Some (CArr _) => true | _ => false end
  | _ => false
  end.

Definition _onReady (names : value) : M world unit :=
  h <- gets fst ;;
  (if isArray h names then ret tt else emit "error" [names]) ;;
  (* [names.forEach(...)] *)
  match names with
  | VRef l =>
      match nth_error h l with
      | Some (CArr xs) => on_remote (install_all xs)
      | Some (CObj kvs) =>
          match assoc "forEach" kvs with
          | Some (VFun _) => throw (Unmodelled "an own method named forEach")
          | _ => throw (TypeError "names.forEach is not a function")
          end
      | None => throw (Unmodelled "dangling reference")
      end
  | _ => throw (TypeError "names.forEach is not a function")
  end ;;
  emit "connect" [].

(** *** Calling a function object *)

Definition ENOTCONNECTED : value :=
  VError (Some "ENOTCONNECTED"%string) "ENOTCONNECTED: Remote is offline, try again later".

Definition EDISCONNECT : value :=
  VError (Some "EDISCONNECT"%string) "EDISCONNECT: Remote disconnected".

Definition new_array (xs : list value) : M world value :=
  fun w => Ret (VRef (List.length (fst w))) (fst w ++ [CArr xs], snd w).

Definition isFunction (v : value) : bool :=
  match v with VFun _ => true | _ => false end.

(** [f(args...)].  [fuel] bounds the nesting of calls. *)
Fixpoint invoke (fuel : nat) (f : value) (args : list value) : M world unit :=
  match fuel with
  | O => fun _ => NoFuel
  | S fuel' =>
      match f with
      | VFun a =>
          c <- gets (fun w => nth_error (funs (snd w)) a) ;;
          match c with
          | Some FnApp => modify (fun w => (fst w, log (Call a args) (snd w)))
          | Some FnOnReady => _onReady (hd (VPrim PUndefined) args)
          | Some (FnProxy name) =>
              t <- gets (fun w => transport (snd w)) ;;
              match t with
              | None =>
                  (* When disconnected we can't forward the call. *)
                  let callback := last args (VPrim PUndefined) in
                  if isFunction callback then invoke fuel' callback [ENOTCONNECTED]
                  else ret tt
              | Some _ =>
                  message <- new_array (VPrim (PStr name) :: args) ;;
                  send message
              end
          | Some (FnRemote t key) =>
              match t with
              | Some t => modify (fun w => (fst w, log (Send t (Raw key args)) (snd w)))
              | None => throw (TypeError "transport is undefined")
              end
          | Some (FnWrapper c key fn) =>
              modify (fun w =>
                let r := snd w in
                let t := match nth_error (tables r) c with Some t => t | None => [] end in
                (fst w, set_nextKey (Some key) (set_tables (update (tables r) c (delete key t)) r))) ;;
              invoke fuel' (VFun fn) args
          | Some (FnReady keys) =>
              invoke fuel' (hd (VPrim PUndefined) args) [VRef keys]
          | None => throw (Unmodelled "no such function object")
          end
      | _ => throw (TypeError "not a function")
      end
  end.

(** *** connect (lines 227-237) *)
Definition connect (t : tid) : M world unit :=
  modify (fun w =>
    let r := snd w in
    (fst w,
     log (On t)
       (set_nextKey (Some 1)
          (set_callbacks (Some (List.length (tables r)))
             (set_tables (tables r ++ [[]])
                (set_transport (Some t) r)))))) ;;
  f <- gets (fun w => onReady (snd w)) ;;
  message <- new_array [VPrim (PStr "ready"); VFun f] ;;
  send message.

(** *** disconnect (lines 274-301) *)

(** [forEach(callbacks, function (callback) { callback(cerr); })]: the
    keys are listed first; each value is read when its turn comes. *)
Fixpoint flush (fuel : nat) (c : nat) (keys : list Z) (cerr : value) : M world unit :=
  match keys with
  | [] => ret tt
  | k :: rest =>
      callback <- gets (fun w =>
        match nth_error (tables (snd w)) c with
        | Some t => match lookup k t with Some a => VFun a | None => VPrim PUndefined end
        | None => VPrim PUndefined
        end) ;;
      invoke fuel callback [cerr] ;;
      flush fuel c rest cerr
  end.

Definition disconnect (fuel : nat) (err : value) : M world unit :=
  t <- gets (fun w => transport (snd w)) ;;
  match t with
  | None => emit "error" [if truthy err then err else VError None "Not connected"]
  | Some t =>
      (* Disconnect from transport *)
      modify (fun w => (fst w, set_transport None (log (Off t) (snd w)))) ;;
      (* Flush any callbacks *)
      cs <- gets (fun w => callbacks (snd w)) ;;
      match cs with
      | Some c =>
          let cerr := if truthy err then err else EDISCONNECT in
          modify (fun w => (fst w, set_callbacks None (snd w))) ;;
          keys <- gets (fun w =>
            match nth_error (tables (snd w)) c with
            | Some t => own_keys t
            | None => []
            end) ;;
          flush fuel c keys cerr
      | None => ret tt
      end ;;
      modify (fun w => (fst w, set_nextKey None (snd w))) ;;
      emit "disconnect" [err]
  end.

(** *** _onMessage (lines 309-330) *)
Definition _onMessage (fuel : nat) (message : wire) : M world unit :=
  match message with
  | WArr (_ :: _) =>
      m <- (fun w => liven _getFunction message w) ;;
      h <- gets fst ;;
      match m with
      | VRef l =>
          match nth_error h l with
          | Some (CArr elems) =>
              let id := hd (VPrim PUndefined) elems in
              fn <- match id with
                    | VPrim (PStr s) =>
                        if String.eqb s "ready" then
                          api <- gets (fun w => agent_api (snd w)) ;;
                          keys <- new_array (List.map (fun kv => VPrim (PStr (fst kv))) api) ;;
                          match keys with
                          | VRef k => on_remote (new_fun (FnReady k))
                          | _ => ret (VPrim PUndefined)
                          end
                        else
                          gets (fun w => match assoc s (agent_api (snd w)) with
                                         | Some v => v
                                         | None => VPrim PUndefined
                                         end)
                    | VRef _ => throw (Unmodelled "an object as dispatch identifier")
                    | _ =>
                        cs <- gets (fun w => callbacks (snd w)) ;;
                        match cs with
                        | None => throw (TypeError "this.callbacks is undefined")
                        | Some c =>
                            gets (fun w =>
                              match id, nth_error (tables (snd w)) c with
                              | VPrim (PNum n), Some t =>
                                  match lookup n t with
                                  | Some a => VFun a
                                  | None => VPrim PUndefined
                                  end
                              | _, _ => VPrim PUndefined
                              end)
                        end
                    end ;;
              if isFunction fn then invoke fuel fn (tl elems)
              else emit "error" [VError None "Should be function"]
          | _ => throw (Unmodelled "liven did not return an array")
          end
      | _ => throw (Unmodelled "liven did not return an array")
      end
  | _ => emit "error" [VError None "Message should be an array"]
  end.

(** [new Remote(agent)], with the function objects of the application
    ([FnApp]) already there. *)
Definition new (app_funs : nat) (agent_api : list (string * value)) : remote :=
  mkRemote (repeat FnApp app_funs ++ [FnOnReady]) [] agent_api [] None None None app_funs [].

End Remote.

(** ** The Transport (source lines 70-153), on top of two stream endpoints

    The streams are Node's: an endpoint is modelled by the listeners the
    Transport has put on it and by whether it was destroyed.  The
    environment delivers stream events; an event reaches the handlers that
    are registered for it at that moment. *)
Module Transport.
Import Js.

Inductive handler := onData | onDisconnect | onError | onDrain.

Inductive endpoint := Input | Output.

(** The events of a stream the Transport listens to. *)
Inductive stream_event :=
| Data (chunk : list byte)
| End
| Timeout
| Close
| StreamError (err : value)
| Drain.

Definition name_of (e : stream_event) : string :=
  match e with
  | Data _ => "data"
  | End => "end"
  | Timeout => "timeout"
  | Close => "close"
  | StreamError _ => "error"
  | Drain => "drain"
  end.

Record stream := mkStream {
  listeners : list (string * handler);
  destroyed : bool }.

(** What the Transport emits. *)
Inductive emitted :=
| Message (m : wire)
| ErrorEvent (err : value)
| DrainEvent.

Record transport := mkTransport {
  same : bool;              (* [output === input] *)
  input : stream;
  output : stream;          (* not used when [same] *)
  parser : Framer.deframer; (* the closure [parse] *)
  events : list emitted }.  (* what was emitted, oldest first *)

Definition handler_eqb (a b : handler) : bool :=
  match a, b with
  | onData, onData | onDisconnect, onDisconnect
  | onError, onError | onDrain, onDrain => true
  | _, _ => false
  end.

(** [stream.on(name, h)] *)
Definition on (name : string) (h : handler) (s : stream) : stream :=
  mkStream (listeners s ++ [(name, h)]) (destroyed s).

(** [stream.removeListener(name, h)]: the registration is removed, if
    there is one. *)
Fixpoint remove (name : string) (h : handler) (l : list (string * handler)) :=
  match l with
  | [] => []
  | (n, h') :: rest =>
      if (String.eqb n name && handler_eqb h' h)%bool then rest
      else (n, h') :: remove name h rest
  end.

Definition removeListener (name : string) (h : handler) (s : stream) : stream :=
  mkStream (remove name h (listeners s)) (destroyed s).

Definition destroy (s : stream) : stream := mkStream (listeners s) true.

Definition the_output (t : transport) : stream := if same t then input t else output t.

Definition with_input (f : stream -> stream) (t : transport) : transport :=
  mkTransport (same t) (f (input t)) (output t) (parser t) (events t).

Definition with_output (f : stream -> stream) (t : transport) : transport :=
  if same t then with_input f t
  else mkTransport (same t) (input t) (f (output t)) (parser t) (events t).

Definition emit (e : emitted) (t : transport) : transport :=
  mkTransport (same t) (input t) (output t) (parser t) (events t ++ [e]).

Definition terminal_error : value :=
  VError (Some "EDISCONNECT"%string) "EDISCONNECT: Transport disconnected".

Section WithSerializer.
(** [msgpack.decode]: the message, or the exception it throws. *)
Variable decode : list byte -> value + wire.

(** [new Transport(input, output)]: the listeners of lines 80-91. *)
Definition new (one_stream : bool) : transport :=
  let t := mkTransport one_stream (mkStream [] false) (mkStream [] false) Framer.init [] in
  let t := with_input (on "data" onData) t in
  let t := with_input (on "end" onDisconnect) t in
  let t := with_input (on "timeout" onDisconnect) t in
  let t := with_input (on "close" onDisconnect) t in
  let t := with_input (on "error" onError) t in
  let t := with_output (on "drain" onDrain) t in
  if one_stream then t
  else
    let t := with_output (on "end" onDisconnect) t in
    let t := with_output (on "timeout" onDisconnect) t in
    let t := with_output (on "close" onDisconnect) t in
    with_output (on "error" onError) t.

(** The callback given to [deFramer] (lines 93-101). *)
Definition onFrame (t : transport) (frame : list byte) : transport :=
  match decode frame with
  | inr message => emit (Message message) t
  | inl err => emit (ErrorEvent err) t
  end.

(** The body of a handler.  [None]: [parse] was refused a Buffer (see
    [Framer.new_Buffer]); what the Transport does from then on is not
    modelled. *)
Definition run (h : handler) (e : stream_event) (t : transport) : option transport :=
  match h with
  | onData =>
      match e with
      | Data chunk =>
          match Framer.parse chunk (parser t) with
          | Framer.Done p frames =>
              Some (fold_left onFrame frames
                      (mkTransport (same t) (input t) (output t) p (events t)))
          | _ => None
          end
      | _ => Some t
      end
  | onDrain => Some (emit DrainEvent t)
  | onError =>
      match e with
      | StreamError err => Some (emit (ErrorEvent err) t)
      | _ => Some (emit (ErrorEvent (VPrim PUndefined)) t)
      end
  | onDisconnect =>
      (* Remove all the listeners we added and destroy the streams *)
      let t := with_input (removeListener "data" onData) t in
      let t := with_input (removeListener "end" onDisconnect) t in
      let t := with_input (removeListener "timeout" onDisconnect) t in
      let t := with_input (removeListener "close" onDisconnect) t in
      let t := with_output (removeListener "drain" onDrain) t in
      let t := with_input destroy t in
      let t :=
        if same t then t
        else
          let t := with_output (removeListener "end" onDisconnect) t in
          let t := with_output (removeListener "timeout" onDisconnect) t in
          let t := with_output (removeListener "close" onDisconnect) t in
          with_output destroy t in
      (* Emit the disconnect as an error *)
      Some (emit (ErrorEvent terminal_error) t)
  end.

Definition endpoint_stream (ep : endpoint) (t : transport) : stream :=
  match ep with Input => input t | Output => the_output t end.

Fixpoint run_all (hs : list (string * handler)) (e : stream_event) (t : transport)
    : option transport :=
  match hs with
  | [] => Some t
  | (_, h) :: rest =>
      match run h e t with
      | Some t' => run_all rest e t'
      | None => None
      end
  end.

(** The stream [ep] emits [e]: the handlers registered for it when the
    event is emitted are called in order. *)
Definition deliver (ep : endpoint) (e : stream_event) (t : transport) : option transport :=
  run_all (filter (fun nh => String.eqb (fst nh) (name_of e))
             (listeners (endpoint_stream ep t))) e t.

Fixpoint deliver_all (es : list (endpoint * stream_event)) (t : transport)
    : option transport :=
  match es with
  | [] => Some t
  | (ep, e) :: rest =>
      match deliver ep e t with
      | Some t' => deliver_all rest t'
      | None => None
      end
  end.

End WithSerializer.

End Transport.

(** ** Properties of the Transport *)
Module TransportFacts.
Import Js Transport.
Open Scope string_scope.
Open Scope list_scope.

(** The listeners of lines 80-91 are (still) on the streams. *)
Definition attached (t : transport) : Prop :=
  listeners (input t) =
    [("data", onData); ("end", onDisconnect); ("timeout", onDisconnect);
     ("close", onDisconnect); ("error", onError)]
    ++ (if same t then [("drain", onDrain)] else []) /\
  (same t = false ->
   listeners (output t) =
     [("drain", onDrain); ("end", onDisconnect); ("timeout", onDisconnect);
      ("close", onDisconnect); ("error", onError)]).

(** Only the two listeners for "error" are left. *)
Definition torn_down (t : transport) : Prop :=
  listeners (input t) = [("error", onError)] /\
  destroyed (input t) = true /\
  (same t = false ->
   listeners (output t) = [("error", onError)] /\ destroyed (output t) = true).

Definition terminal (e : stream_event) : bool :=
  match e with End | Timeout | Close => true | _ => false end.

(** The errors among the stream events. *)
Fixpoint stream_errors (es : list (endpoint * stream_event)) : list emitted :=
  match es with
  | [] => []
  | (_, StreamError err) :: rest => ErrorEvent err :: stream_errors rest
  | _ :: rest => stream_errors rest
  end.

Section WithSerializer.
Variable decode : list byte -> value + wire.

Lemma new_attached one : attached (new one).
Proof. destruct one; split; cbn; auto; discriminate. Qed.

Lemma deliver_terminal (ep : endpoint) (e : stream_event) (t : transport) :
  attached t -> terminal e = true ->
  exists t', deliver decode ep e t = Some t' /\ torn_down t' /\ same t' = same t /\
             events t' = events t ++ [ErrorEvent terminal_error].
Proof.
  intros [Hi Ho] He. destruct t as [sm [li di] [lo do] p ev]. cbn in Hi, Ho.
  destruct sm.
  - subst li. destruct e; try discriminate; destruct ep;
      (eexists; split; [reflexivity|]; repeat split; cbn; auto; discriminate).
  - specialize (Ho eq_refl). subst li lo.
    destruct e; try discriminate; destruct ep;
      (eexists; split; [reflexivity|]; repeat split; cbn; auto).
Qed.

Lemma deliver_torn_down (ep : endpoint) (e : stream_event) (t : transport) :
  torn_down t ->
  exists t', deliver decode ep e t = Some t' /\ torn_down t' /\ same t' = same t /\
             events t' = events t ++ stream_errors [(ep, e)].
Proof.
  intros (Hi & Hd & Ho). destruct t as [sm [li di] [lo do] p ev]. cbn in Hi, Hd, Ho.
  subst li di. destruct sm.
  - destruct e, ep; cbn; eexists; (split; [reflexivity|]);
      unfold torn_down; cbn; rewrite ?app_nil_r; repeat split; auto; discriminate.
  - destruct (Ho eq_refl) as [-> ->].
    destruct e, ep; cbn; eexists; (split; [reflexivity|]);
      unfold torn_down; cbn; rewrite ?app_nil_r; repeat split; auto.
Qed.

Lemma deliver_all_torn_down es : forall t,
  torn_down t ->
  exists t', deliver_all decode es t = Some t' /\ torn_down t' /\
             events t' = events t ++ stream_errors es.
Proof.
  induction es as [|[ep e] es IH]; intros t Ht.
  - exists t. cbn. rewrite app_nil_r. auto.
  - destruct (deliver_torn_down ep e t Ht) as (t1 & H1 & Ht1 & _ & Hev).
    destruct (IH t1 Ht1) as (t2 & H2 & Ht2 & Hev2).
    exists t2. cbn [deliver_all]. rewrite H1. repeat split; try apply Ht2; auto.
    rewrite Hev2, Hev, <- app_assoc. f_equal.
    cbn. destruct e; cbn; rewrite ?app_nil_r; reflexivity.
Qed.

(** C4, as amended: upon end, close or timeout on either endpoint, a
    Transport whose listeners are in place removes its data, end, timeout,
    close and drain listeners from both endpoints, destroys both streams
    and emits one error event whose code is EDISCONNECT.  From then on,
    whatever the streams emit, the Transport emits no message and no drain
    event, and no second EDISCONNECT: only the errors of the streams are
    still forwarded.  (The Transport has no event named disconnect, and an
    error of a stream is forwarded without any of this.) *)
Theorem transport_disconnects_once (ep : endpoint) (e : stream_event) (t : transport)
    (later : list (endpoint * stream_event)) :
  attached t -> terminal e = true ->
  exists t' t'',
    deliver decode ep e t = Some t' /\
    events t' = events t ++ [ErrorEvent terminal_error] /\
    listeners (input t') = [("error", onError)] /\
    (same t' = false -> listeners (output t') = [("error", onError)]) /\
    destroyed (input t') = true /\ destroyed (the_output t') = true /\
    deliver_all decode later t' = Some t'' /\
    events t'' = events t' ++ stream_errors later.
Proof.
  intros Ha He.
  destruct (deliver_terminal ep e t Ha He) as (t' & H1 & Ht' & Hs & Hev).
  destruct (deliver_all_torn_down later t' Ht') as (t'' & H2 & _ & Hev2).
  exists t', t''. destruct Ht' as (Hi & Hd & Ho).
  repeat split; auto.
  - intros Hf. now destruct (Ho Hf).
  - unfold the_output. destruct (same t') eqn:E; [assumption|]. now destruct (Ho eq_refl).
Qed.

End WithSerializer.

(** A serializer for the examples: one byte [c0] is [null]. *)
Definition decode_null (frame : list byte) : value + wire :=
  match frame with
  | [xc0] => inr (WPrim PNull)
  | _ => inl (VError None "decode")
  end.

Lemma transport_disconnects_once_witness :
  exists t' t'',
    deliver decode_null Output Close (new true) = Some t' /\
    events t' = events (new true) ++ [ErrorEvent terminal_error] /\
    listeners (input t') = [("error", onError)] /\
    (same t' = false -> listeners (output t') = [("error", onError)]) /\
    destroyed (input t') = true /\ destroyed (the_output t') = true /\
    deliver_all decode_null
      [(Input, Data [x00; x00; x00; x01; xc0]); (Output, Drain);
       (Input, StreamError (VPrim PNull)); (Input, End)] t' = Some t'' /\
    events t'' = events t' ++
      stream_errors [(Input, Data [x00; x00; x00; x01; xc0]); (Output, Drain);
                     (Input, StreamError (VPrim PNull)); (Input, End)].
Proof.
  apply (transport_disconnects_once decode_null Output Close (new true)).
  - apply new_attached.
  - reflexivity.
Defined.

(** C4, counterexample: an error of a stream does not disconnect the
    Transport.  The error is forwarded and that is all: no EDISCONNECT
    error is emitted, no stream is destroyed, every listener stays, and a
    frame that arrives afterwards is still emitted as a message. *)
Lemma stream_error_does_not_disconnect :
  let err := VError None "ECONNRESET" in
  exists t' t'',
    deliver decode_null Input (StreamError err) (new true) = Some t' /\
    events t' = [ErrorEvent err] /\
    ~ In (ErrorEvent terminal_error) (events t') /\
    destroyed (input t') = false /\
    listeners (input t') = listeners (input (new true)) /\
    deliver decode_null Input (Data [x00; x00; x00; x01; xc0]) t' = Some t'' /\
    events t'' = [ErrorEvent err; Message (WPrim PNull)].
Proof.
  cbv zeta. do 2 eexists.
  split; [vm_compute; reflexivity|]. split; [reflexivity|].
  split; [intros [H|[]]; discriminate|].
  split; [reflexivity|]. split; [reflexivity|].
  split; vm_compute; reflexivity.
Qed.

End TransportFacts.

(** ** Properties of the Remote *)
Module RemoteFacts.
Import Js Marshal MarshalFrame Remote.

(** *** The key search of [_storeFunction] *)

Lemma lookup_delete k t : lookup k (delete k t) = None.
Proof.
  induction t as [|[k' a] t IH]; [reflexivity|].
  unfold delete in *. cbn [filter fst].
  destruct (Z.eqb_spec k' k) as [->|Hne]; cbn [negb]; [exact IH|].
  cbn [lookup]. destruct (Z.eqb_spec k k'); [congruence|exact IH].
Qed.

Lemma lookup_delete_ne k k' t : k <> k' -> lookup k (delete k' t) = lookup k t.
Proof.
  intros Hne. induction t as [|[k1 a] t IH]; [reflexivity|].
  unfold delete in *. cbn [filter fst lookup].
  destruct (Z.eqb_spec k1 k') as [->|Hne1]; cbn [negb lookup].
  - destruct (Z.eqb_spec k k'); [congruence|exact IH].
  - destruct (Z.eqb_spec k k1); [reflexivity|exact IH].
Qed.

Lemma lookup_store k a t : lookup k (store k a t) = Some a.
Proof.
  induction t as [|[k' a'] t IH]; cbn [store lookup].
  - now rewrite Z.eqb_refl.
  - destruct (Z.eqb_spec k k') as [->|Hne]; cbn [lookup].
    + now rewrite Z.eqb_refl.
    + destruct (Z.eqb_spec k k'); [congruence|exact IH].
Qed.

Lemma lookup_store_ne k k' a t : k <> k' -> lookup k (store k' a t) = lookup k t.
Proof.
  intros Hne. induction t as [|[k1 a1] t IH]; cbn [store lookup].
  - destruct (Z.eqb_spec k k'); [congruence|reflexivity].
  - destruct (Z.eqb_spec k' k1) as [->|Hne1]; cbn [lookup].
    + destruct (Z.eqb_spec k k1); [congruence|reflexivity].
    + destruct (Z.eqb_spec k k1); [reflexivity|exact IH].
Qed.

(** The [j]-th candidate of a search that starts at [start]. *)
Definition candidate (start j : Z) : Z := Int32.wrap (start + j).

Lemma wrap_succ x : Int32.wrap (Int32.wrap x + 1) = Int32.wrap (x + 1).
Proof.
  unfold Int32.wrap.
  replace ((x + 2^31) mod 2^32 - 2^31 + 1 + 2^31) with ((x + 2^31) mod 2^32 + 1) by lia.
  replace (x + 1 + 2^31) with ((x + 2^31) + 1) by lia.
  rewrite Z.add_mod_idemp_l by lia. reflexivity.
Qed.

Lemma candidate_succ start j :
  Int32.sar0 (candidate start j + 1) = candidate start (j + 1).
Proof.
  unfold Int32.sar0, candidate. rewrite wrap_succ. f_equal. lia.
Qed.

Lemma candidate_0 start : Int32.in_range start -> candidate start 0 = start.
Proof. intros H. unfold candidate. rewrite Z.add_0_r. now apply Int32.wrap_id. Qed.

(** The candidates come back to [start] after exactly 2^32 steps. *)
Lemma candidate_start start j :
  Int32.in_range start -> 0 < j <= 2^32 ->
  (candidate start j = start <-> j = 2^32).
Proof.
  intros Hs Hj. unfold candidate, Int32.wrap, Int32.in_range in *.
  split.
  - intros H.
    assert (E : (start + j + 2^31) mod 2^32 = start + 2^31) by lia.
    destruct (Z.eq_dec j (2^32)) as [|Hne]; [assumption|exfalso].
    destruct (Z.ltb_spec (start + j + 2^31) (2^32)) as [Lt|Ge].
    + rewrite Z.mod_small in E by lia. lia.
    + replace (start + j + 2^31) with ((start + j + 2^31 - 2^32) + 1 * 2^32) in E by lia.
      rewrite Z.mod_add in E by lia. rewrite Z.mod_small in E by lia. lia.
  - intros ->.
    replace (start + 2^32 + 2^31) with ((start + 2^31) + 1 * 2^32) by lia.
    rewrite Z.mod_add by lia. rewrite Z.mod_small by lia. lia.
Qed.

Lemma candidate_onto start k :
  Int32.in_range start -> Int32.in_range k ->
  exists j, 0 <= j < 2^32 /\ candidate start j = k.
Proof.
  intros Hs Hk. exists ((k - start) mod 2^32).
  pose proof (Z.mod_pos_bound (k - start) (2^32) ltac:(lia)) as Hm.
  split; [lia|]. unfold candidate, Int32.wrap, Int32.in_range in *.
  change (2^32) with 4294967296 in *. change (2^31) with 2147483648 in *.
  Z.div_mod_to_equations. lia.
Qed.

Definition occupied_between (t : table) (start lo hi : Z) : Prop :=
  forall i, lo <= i < hi -> hasOwnProperty t (candidate start i) = true.

(** What [2^n] turns from the [j]-th candidate give. *)
Lemma scan_spec n : forall t start j,
  Int32.in_range start -> 0 <= j -> j + 2^(Z.of_nat n) <= 2^32 ->
  match scan n t start (candidate start j) with
  | Found k =>
      exists m, j <= m < j + 2^(Z.of_nat n) /\ k = candidate start m /\
                hasOwnProperty t k = false /\ occupied_between t start j m
  | RanOut =>
      j + 2^(Z.of_nat n) = 2^32 /\ occupied_between t start j (j + 2^(Z.of_nat n))
  | Continue k' =>
      j + 2^(Z.of_nat n) < 2^32 /\ k' = candidate start (j + 2^(Z.of_nat n)) /\
      occupied_between t start j (j + 2^(Z.of_nat n))
  end.
Proof.
  induction n as [|n IH]; intros t start j Hs Hj Hle.
  - cbn [scan]. unfold turn. change (2^(Z.of_nat 0)) with 1 in *.
    destruct (hasOwnProperty t (candidate start j)) eqn:Ho.
    + rewrite candidate_succ.
      assert (Hocc : occupied_between t start j (j + 1)).
      { intros i Hi. now replace i with j by lia. }
      destruct (Z.eqb_spec (candidate start (j + 1)) start) as [E|N].
      * apply candidate_start in E; [|assumption|lia]. split; [lia|assumption].
      * split; [|split; [reflexivity|assumption]].
        destruct (Z.eq_dec (j + 1) (2^32)) as [E|]; [|lia].
        exfalso. apply N. apply candidate_start; [assumption|lia|assumption].
    + exists j. repeat split; try lia; try assumption.
      intros i Hi. lia.
  - cbn [scan].
    assert (Hpow : 2^(Z.of_nat (S n)) = 2^(Z.of_nat n) + 2^(Z.of_nat n)).
    { rewrite Nat2Z.inj_succ, Z.pow_succ_r by lia. lia. }
    assert (Hpos : 0 < 2^(Z.of_nat n)) by (apply Z.pow_pos_nonneg; lia).
    rewrite Hpow in *.
    pose proof (IH t start j Hs Hj ltac:(lia)) as H1.
    destruct (scan n t start (candidate start j)) as [k|k|k'].
    + destruct H1 as (m & Hm & -> & Hf & Hocc). exists m. repeat split; auto; lia.
    + lia.
    + destruct H1 as (Hlt & -> & Hocc1).
      pose proof (IH t start (j + 2^(Z.of_nat n)) Hs ltac:(lia) ltac:(lia)) as H2.
      destruct (scan n t start (candidate start (j + 2^(Z.of_nat n)))) as [k|k|k''].
      * destruct H2 as (m & Hm & -> & Hf & Hocc2). exists m.
        repeat split; auto; try lia.
        intros i Hi. destruct (Z.ltb_spec i (j + 2^(Z.of_nat n)));
          [apply Hocc1|apply Hocc2]; lia.
      * destruct H2 as (He & Hocc2). split; [lia|].
        intros i Hi. destruct (Z.ltb_spec i (j + 2^(Z.of_nat n)));
          [apply Hocc1|apply Hocc2]; lia.
      * destruct H2 as (Hlt2 & -> & Hocc2). split; [lia|]. split; [f_equal; lia|].
        intros i Hi. destruct (Z.ltb_spec i (j + 2^(Z.of_nat n)));
          [apply Hocc1|apply Hocc2]; lia.
Qed.

Lemma scan_free n : forall t start key,
  hasOwnProperty t key = false -> scan n t start key = Found key.
Proof.
  induction n as [|n IH]; intros t start key H; cbn [scan].
  - unfold turn. now rewrite H.
  - now rewrite IH.
Qed.

Lemma nth_error_snoc {A} (l : list A) x : nth_error (l ++ [x]) (List.length l) = Some x.
Proof. rewrite nth_error_app2, Nat.sub_diag by lia. reflexivity. Qed.

(** C7, as amended: [_storeFunction] starts its search at [nextKey]; while
    the candidate key is occupied it advances by one with signed 32-bit
    wrap-around ([>> 0] is ToInt32); if all 2^32 keys are occupied it throws
    "Ran out of keys!!" and changes nothing; otherwise it returns the first
    free candidate [k], stores the wrapper of [fn] under [k] and sets
    [nextKey] to [k + 1] wrapped to a signed 32-bit integer. *)
Theorem storeFunction_search (r : remote) (fn c : nat) (t : table) (start : Z) :
  callbacks r = Some c -> nth_error (tables r) c = Some t ->
  nextKey r = Some start -> Int32.in_range start ->
  match _storeFunction fn r with
  | Ret w r' =>
      exists k m, w = WPrim (PNum k) /\ 0 <= m < 2^32 /\ k = Int32.wrap (start + m) /\
        occupied_between t start 0 m /\ hasOwnProperty t k = false /\
        nextKey r' = Some (Int32.wrap (k + 1)) /\
        exists wrapper,
          nth_error (tables r') c = Some (store k wrapper t) /\
          lookup k (store k wrapper t) = Some wrapper /\
          nth_error (funs r') wrapper = Some (FnWrapper c k fn)
  | Throw e r' =>
      e = Error "Ran out of keys!!" /\ r' = r /\
      forall k, Int32.in_range k -> hasOwnProperty t k = true
  | NoFuel => False
  end.
Proof.
  intros Hc Ht Hn Hs. unfold _storeFunction. rewrite Hc, Hn, Ht.
  pose proof (scan_spec 32 t start 0 Hs ltac:(lia) ltac:(simpl; lia)) as H.
  rewrite (candidate_0 start Hs) in H.
  change (0 + 2^(Z.of_nat 32)) with (2^32) in H.
  destruct (scan 32 t start start) as [k| |k'].
  - destruct H as (m & Hm & -> & Hf & Hocc).
    exists (candidate start m), m. repeat split; auto; try lia.
    exists (List.length (funs r)). repeat split.
    + cbn. apply nth_error_update'. apply nth_error_Some. congruence.
    + apply lookup_store.
    + cbn. apply nth_error_snoc.
  - destruct H as (_ & Hocc). repeat split.
    intros k Hk. destruct (candidate_onto start k Hs Hk) as (j & Hj & <-).
    apply Hocc. lia.
  - lia.
Qed.

Definition r_max : remote :=
  mkRemote [FnApp] [[]] [] [] (Some 1%nat) (Some 0%nat) (Some 2147483647) 0 [].

Definition r_max_taken : remote :=
  mkRemote [FnApp; FnWrapper 0 2147483647 0] [[(2147483647, 1%nat)]] [] []
    (Some 1%nat) (Some 0%nat) (Some 2147483647) 0 [].

Lemma storeFunction_search_witness :
  match _storeFunction 0 r_max with
  | Ret w r' =>
      exists k m, w = WPrim (PNum k) /\ 0 <= m < 2^32 /\ k = Int32.wrap (2147483647 + m) /\
        occupied_between [] 2147483647 0 m /\ hasOwnProperty [] k = false /\
        nextKey r' = Some (Int32.wrap (k + 1)) /\
        exists wrapper,
          nth_error (tables r') 0 = Some (store k wrapper []) /\
          lookup k (store k wrapper []) = Some wrapper /\
          nth_error (funs r') wrapper = Some (FnWrapper 0 k 0)
  | Throw e r' =>
      e = Error "Ran out of keys!!" /\ r' = r_max /\
      forall k, Int32.in_range k -> hasOwnProperty [] k = true
  | NoFuel => False
  end.
Proof.
  apply (storeFunction_search r_max 0 0 [] 2147483647);
    [reflexivity|reflexivity|reflexivity|].
  unfold Int32.in_range. simpl. lia.
Defined.

(** C7, counterexample: the wrap-around is not unsigned.  With
    [nextKey = 2^31 - 1] free, the key returned is [2^31 - 1] and [nextKey]
    becomes [-2^31], not [(k + 1) mod 2^32 = 2^31]; with that key occupied
    the search advances to [-2^31]. *)
Lemma storeFunction_wrap_is_signed :
  (exists r', _storeFunction 0 r_max = Ret (WPrim (PNum 2147483647)) r' /\
              nextKey r' = Some (-2147483648) /\
              nextKey r' <> Some ((2147483647 + 1) mod 2^32)) /\
  (exists r', _storeFunction 0 r_max_taken = Ret (WPrim (PNum (-2147483648))) r' /\
              (2147483647 + 1) mod 2^32 <> -2147483648).
Proof.
  split.
  - eexists. split; [vm_compute; reflexivity|]. split; [reflexivity|].
    vm_compute. congruence.
  - eexists. split; [vm_compute; reflexivity|]. vm_compute. congruence.
Qed.

(** *** Calls *)

(** [liven] with [_getFunction] only adds function objects to the Remote. *)
Definition same_but_funs (r r' : remote) : Prop :=
  tables r' = tables r /\ agent_api r' = agent_api r /\ api r' = api r /\
  transport r' = transport r /\ callbacks r' = callbacks r /\
  nextKey r' = nextKey r /\ onReady r' = onReady r /\ trace r' = trace r /\
  exists extra, funs r' = funs r ++ extra.

Lemma same_but_funs_refl r : same_but_funs r r.
Proof. unfold same_but_funs. repeat split. exists []. now rewrite app_nil_r. Qed.

Lemma same_but_funs_trans a b c :
  same_but_funs a b -> same_but_funs b c -> same_but_funs a c.
Proof.
  unfold same_but_funs.
  intros (H1 & H2 & H3 & H4 & H5 & H6 & H7 & H8 & e1 & H9)
         (G1 & G2 & G3 & G4 & G5 & G6 & G7 & G8 & e2 & G9).
  repeat split; try congruence.
  exists (e1 ++ e2). rewrite G9, H9. now rewrite app_assoc.
Qed.

Lemma liven_remote message (w : world) m w' :
  liven _getFunction message w = Ret m w' -> same_but_funs (snd w) (snd w').
Proof.
  intros H.
  pose proof (liven_kept _getFunction same_but_funs same_but_funs_refl
                same_but_funs_trans) as K.
  specialize (K ltac:(intros k s; cbn; unfold same_but_funs; cbn; repeat split; eauto)
                message w).
  unfold kept in K. rewrite H in K. exact K.
Qed.

Lemma funs_kept r r' a c :
  same_but_funs r r' -> nth_error (funs r) a = Some c -> nth_error (funs r') a = Some c.
Proof.
  intros (_ & _ & _ & _ & _ & _ & _ & _ & extra & ->) H.
  rewrite nth_error_app1; [assumption|]. apply nth_error_Some. congruence.
Qed.

(** What the first two statements of a wrapper do (lines 360-361). *)
Definition consumed (c : nat) (k : Z) (r : remote) : remote :=
  set_nextKey (Some k)
    (set_tables
       (update (tables r) c
          (delete k (match nth_error (tables r) c with Some t => t | None => [] end))) r).

Lemma invoke_wrapper fuel (w : world) a c k fn args :
  nth_error (funs (snd w)) a = Some (FnWrapper c k fn) ->
  invoke (S fuel) (VFun a) args w = invoke fuel (VFun fn) args (fst w, consumed c k (snd w)).
Proof.
  intros H. cbn [invoke]. unfold bind at 1, gets. rewrite H. reflexivity.
Qed.

Lemma invoke_app fuel (w : world) a args :
  nth_error (funs (snd w)) a = Some FnApp ->
  invoke (S fuel) (VFun a) args w = Ret tt (fst w, log (Call a args) (snd w)).
Proof.
  intros H. cbn [invoke]. unfold bind at 1, gets. rewrite H. reflexivity.
Qed.

(** The state a computation leaves, whether it returns or throws. *)
Definition after {A} (m : M world A) (w : world) : world :=
  match m w with
  | Ret _ w' | Throw _ w' => w'
  | NoFuel => w
  end.

(** C6: immediately after a stored handle [k] is consumed (its wrapper,
    found in the callback table of the Peer, is invoked), the next call of
    [_storeFunction] on that Peer returns [k]. *)
Theorem consumed_key_is_reused (fuel : nat) (w : world) (c : nat) (t : table)
    (k : Z) (a fn g : nat) (args : list value) :
  callbacks (snd w) = Some c -> nth_error (tables (snd w)) c = Some t ->
  lookup k t = Some a ->
  nth_error (funs (snd w)) a = Some (FnWrapper c k fn) ->
  nth_error (funs (snd w)) fn = Some FnApp ->
  exists w', invoke (S (S fuel)) (VFun a) args w = Ret tt w' /\
             trace (snd w') = trace (snd w) ++ [Call fn args] /\
             exists r'', _storeFunction g (snd w') = Ret (WPrim (PNum k)) r''.
Proof.
  intros Hc Ht Hk Ha Hfn.
  rewrite (invoke_wrapper _ _ _ _ _ _ _ Ha).
  rewrite invoke_app by exact Hfn.
  eexists. split; [reflexivity|]. split; [reflexivity|].
  unfold _storeFunction.
  cbn [snd fst callbacks nextKey tables funs log consumed set_nextKey set_tables].
  rewrite Hc, Ht.
  rewrite nth_error_update' by (apply nth_error_Some; congruence).
  rewrite scan_free; [eauto|].
  unfold hasOwnProperty. now rewrite lookup_delete.
Qed.

Open Scope string_scope.
Open Scope list_scope.

(** A Peer with two application procedures (0 and 1), connected to
    Transport 1, that has sent [["ping", f]] after the handshake message:
    its table holds the wrapper of [_onReady] under 1 and the wrapper of
    [f] (function 1) under 2. *)
Definition w_new : world := ([], Remote.new 2 [("add", VFun 0%nat)]).
Definition w_connecting : world := after (connect 1%nat) w_new.
Definition w_pending : world :=
  after (bind (new_array [VPrim (PStr "ping"); VFun 1%nat]) send) w_connecting.

Lemma consumed_key_is_reused_witness :
  exists w', invoke 2 (VFun 4%nat) [VPrim PNull] w_pending = Ret tt w' /\
             trace (snd w') = trace (snd w_pending) ++ [Call 1%nat [VPrim PNull]] /\
             exists r'', _storeFunction 0 (snd w') = Ret (WPrim (PNum 2)) r''.
Proof.
  apply (consumed_key_is_reused 0 w_pending 0 [(1, 3%nat); (2, 4%nat)] 2 4 1 0 [VPrim PNull]);
    vm_compute; reflexivity.
Defined.

Definition should_be_function : event := Emit "error" [VError None "Should be function"].

Lemma onMessage_dispatch fuel (w : world) k args m w1 :
  liven _getFunction (WArr (WPrim (PNum k) :: args)) w = Ret m w1 ->
  exists l vargs,
    m = VRef l /\ nth_error (fst w1) l = Some (CArr (VPrim (PNum k) :: vargs)) /\
    _onMessage fuel (WArr (WPrim (PNum k) :: args)) w =
    match callbacks (snd w1) with
    | None => Throw (TypeError "this.callbacks is undefined") w1
    | Some c =>
        match nth_error (tables (snd w1)) c with
        | Some t =>
            match lookup k t with
            | Some a => invoke fuel (VFun a) vargs w1
            | None => Ret tt (fst w1, log should_be_function (snd w1))
            end
        | None => Ret tt (fst w1, log should_be_function (snd w1))
        end
    end.
Proof.
  intros H. destruct (liven_array _ _ _ _ _ _ H) as (l & vargs & -> & Hl).
  exists l, vargs. split; [reflexivity|]. split; [assumption|].
  unfold _onMessage. unfold bind at 1. rewrite H.
  unfold bind at 1, gets at 1. rewrite Hl. cbn [hd tl].
  unfold bind at 1. unfold bind at 1, gets at 1.
  destruct (callbacks (snd w1)) as [c|]; [|reflexivity].
  unfold gets. destruct (nth_error (tables (snd w1)) c) as [t|]; [|reflexivity].
  destruct (lookup k t); reflexivity.
Qed.

(** C5, as amended: a function [fn] stored under key [k] is invoked at most
    once through that handle.  The first inbound message whose dispatch
    identifier is [k] removes [k] from the callback table, sets [nextKey]
    to [k] and calls [fn] with the livened arguments.  A later inbound
    message with identifier [k], while [k] has not been given out again,
    does not call [fn]: it emits the error event "Should be function" and
    changes nothing else. *)
Theorem handle_is_single_shot (fuel fuel' : nat) (w : world) (c : nat) (t : table)
    (k : Z) (a fn : nat) (args1 args2 : list wire) (m1 : value) (w1 : world) :
  callbacks (snd w) = Some c -> nth_error (tables (snd w)) c = Some t ->
  lookup k t = Some a ->
  nth_error (funs (snd w)) a = Some (FnWrapper c k fn) ->
  nth_error (funs (snd w)) fn = Some FnApp ->
  liven _getFunction (WArr (WPrim (PNum k) :: args1)) w = Ret m1 w1 ->
  exists l vargs,
    m1 = VRef l /\ nth_error (fst w1) l = Some (CArr (VPrim (PNum k) :: vargs)) /\
    let w2 := (fst w1, log (Call fn vargs) (consumed c k (snd w1))) in
    _onMessage (S (S fuel)) (WArr (WPrim (PNum k) :: args1)) w = Ret tt w2 /\
    nth_error (tables (snd w2)) c = Some (delete k t) /\
    lookup k (delete k t) = None /\
    nextKey (snd w2) = Some k /\
    forall m2 w3,
      liven _getFunction (WArr (WPrim (PNum k) :: args2)) w2 = Ret m2 w3 ->
      _onMessage fuel' (WArr (WPrim (PNum k) :: args2)) w2 =
      Ret tt (fst w3, log should_be_function (snd w3)).
Proof.
  intros Hc Ht Hk Ha Hfn Hl.
  pose proof (liven_remote _ _ _ _ Hl) as Hsame.
  destruct (onMessage_dispatch (S (S fuel)) _ _ _ _ _ Hl) as (l & vargs & -> & Hcell & Hm).
  exists l, vargs. split; [reflexivity|]. split; [assumption|].
  destruct Hsame as (St & _ & _ & _ & Sc & _ & _ & _ & extra & Sf).
  assert (Ha1 : nth_error (funs (snd w1)) a = Some (FnWrapper c k fn)).
  { rewrite Sf, nth_error_app1; [assumption|apply nth_error_Some; congruence]. }
  assert (Hfn1 : nth_error (funs (snd w1)) fn = Some FnApp).
  { rewrite Sf, nth_error_app1; [assumption|apply nth_error_Some; congruence]. }
  assert (Ht1 : nth_error (tables (snd w1)) c = Some t) by (rewrite St; assumption).
  cbv zeta. split; [|split; [|split; [|split]]].
  - rewrite Hm, Sc, Hc, Ht1, Hk.
    rewrite (invoke_wrapper _ _ _ _ _ _ _ Ha1).
    now rewrite invoke_app by exact Hfn1.
  - cbn. rewrite Ht1. apply nth_error_update'. apply nth_error_Some. congruence.
  - apply lookup_delete.
  - reflexivity.
  - intros m2 w3 Hl2.
    pose proof (liven_remote _ _ _ _ Hl2) as (St2 & _ & _ & _ & Sc2 & _).
    destruct (onMessage_dispatch fuel' _ _ _ _ _ Hl2) as (l2 & vargs2 & _ & _ & Hm2).
    rewrite Hm2, Sc2, St2. cbn. rewrite Sc, Hc, Ht1.
    rewrite nth_error_update' by (apply nth_error_Some; congruence).
    now rewrite lookup_delete.
Qed.

Definition ping_reply : wire := WArr [WPrim (PNum 2); WPrim PNull].

Lemma handle_is_single_shot_witness :
  exists l vargs,
    VRef 3%nat = VRef l /\
    nth_error (fst (after (liven _getFunction ping_reply) w_pending)) l
      = Some (CArr (VPrim (PNum 2) :: vargs)) /\
    let w2 := (fst (after (liven _getFunction ping_reply) w_pending),
               log (Call 1%nat vargs)
                 (consumed 0 2 (snd (after (liven _getFunction ping_reply) w_pending)))) in
    _onMessage 2 ping_reply w_pending = Ret tt w2 /\
    nth_error (tables (snd w2)) 0 = Some (delete 2 [(1, 3%nat); (2, 4%nat)]) /\
    lookup 2 (delete 2 [(1, 3%nat); (2, 4%nat)]) = None /\
    nextKey (snd w2) = Some 2 /\
    forall m2 w3,
      liven _getFunction ping_reply w2 = Ret m2 w3 ->
      _onMessage 0 ping_reply w2 = Ret tt (fst w3, log should_be_function (snd w3)).
Proof.
  apply (handle_is_single_shot 0 0 w_pending 0 [(1, 3%nat); (2, 4%nat)] 2 4 1
           [WPrim PNull] [WPrim PNull] (VRef 3%nat)
           (after (liven _getFunction ping_reply) w_pending));
    vm_compute; reflexivity.
Defined.

(** C5, counterexample: a later inbound message for a consumed handle is
    not a no-op.  After the reply [[2, null]] has consumed handle 2, the
    same message again makes the Peer emit an error event. *)
Lemma stale_handle_is_not_a_noop :
  let w2 := after (_onMessage 2 ping_reply) w_pending in
  trace (snd w2) = trace (snd w_pending) ++ [Call 1%nat [VPrim PNull]] /\
  exists w3, _onMessage 2 ping_reply w2 = Ret tt w3 /\
             trace (snd w3) = trace (snd w2) ++ [should_be_function] /\
             w3 <> w2.
Proof.
  cbv zeta. split; [vm_compute; reflexivity|].
  eexists. split; [vm_compute; reflexivity|]. split; [vm_compute; reflexivity|].
  intros H. apply (f_equal (fun w => List.length (trace (snd w)))) in H.
  vm_compute in H. discriminate.
Qed.

Lemma invoke_proxy_offline fuel (w : world) a name args :
  nth_error (funs (snd w)) a = Some (FnProxy name) -> transport (snd w) = None ->
  invoke (S fuel) (VFun a) args w =
  if isFunction (last args (VPrim PUndefined))
  then invoke fuel (last args (VPrim PUndefined)) [ENOTCONNECTED] w
  else Ret tt w.
Proof.
  intros Ha Ht. cbn [invoke]. unfold bind at 1, gets at 1. rewrite Ha.
  unfold bind at 1, gets at 1. rewrite Ht.
  destruct (isFunction (last args (VPrim PUndefined))); reflexivity.
Qed.

(** C8, as amended: when an installed api proxy is invoked while no
    Transport is bound to the Peer (before the first [connect] or after a
    [disconnect]), then: if the last argument is a function, that function
    is called with one argument, an error whose code is ENOTCONNECTED, and
    the proxy does nothing else (for an application procedure the call is
    all that happens); otherwise nothing happens at all.  The proxy sends
    no message. *)
Theorem proxy_when_not_connected (fuel : nat) (w : world) (a : nat) (name : string)
    (args : list value) :
  nth_error (funs (snd w)) a = Some (FnProxy name) ->
  transport (snd w) = None ->
  match last args (VPrim PUndefined) with
  | VFun cb =>
      invoke (S fuel) (VFun a) args w = invoke fuel (VFun cb) [ENOTCONNECTED] w /\
      (nth_error (funs (snd w)) cb = Some FnApp ->
       invoke (S (S fuel)) (VFun a) args w =
       Ret tt (fst w, log (Call cb [ENOTCONNECTED]) (snd w)))
  | _ => invoke (S fuel) (VFun a) args w = Ret tt w
  end.
Proof.
  intros Ha Ht.
  pose proof (invoke_proxy_offline fuel w a name args Ha Ht) as H1.
  pose proof (invoke_proxy_offline (S fuel) w a name args Ha Ht) as H2.
  destruct (last args (VPrim PUndefined)) as [p|l|cb|code msg]; cbn [isFunction] in *; auto.
  split; [assumption|]. intros Hcb. rewrite H2. now apply invoke_app.
Qed.

(** The Peer after the handshake on Transport 1 (the reply [[1, ["add"]]]
    has installed the proxy [add], function 4), then disconnected. *)
Definition ready_reply : wire := WArr [WPrim (PNum 1); WArr [WPrim (PStr "add")]].
Definition w_live : world := after (_onMessage 3 ready_reply) w_connecting.
Definition w_disconnected : world := after (disconnect 3 (VPrim PUndefined)) w_live.
(** ... and connected again, to Transport 2, the reply not yet received. *)
Definition w_reconnecting : world := after (connect 2%nat) w_disconnected.

Lemma proxy_when_not_connected_witness :
  match last [VPrim (PNum 2); VPrim (PNum 3); VFun 1%nat] (VPrim PUndefined) with
  | VFun cb =>
      invoke 1 (VFun 4%nat) [VPrim (PNum 2); VPrim (PNum 3); VFun 1%nat] w_disconnected
      = invoke 0 (VFun cb) [ENOTCONNECTED] w_disconnected /\
      (nth_error (funs (snd w_disconnected)) cb = Some FnApp ->
       invoke 2 (VFun 4%nat) [VPrim (PNum 2); VPrim (PNum 3); VFun 1%nat] w_disconnected =
       Ret tt (fst w_disconnected, log (Call cb [ENOTCONNECTED]) (snd w_disconnected)))
  | _ => invoke 1 (VFun 4%nat) [VPrim (PNum 2); VPrim (PNum 3); VFun 1%nat] w_disconnected
         = Ret tt w_disconnected
  end.
Proof.
  apply (proxy_when_not_connected 0 w_disconnected 4 "add"
           [VPrim (PNum 2); VPrim (PNum 3); VFun 1%nat]);
    vm_compute; reflexivity.
Defined.

(** C8, counterexample: a Peer that is not Live can have a Transport.
    After a disconnect and a new [connect], while the reply to "ready" is
    still awaited (the wrapper of [_onReady] is in the callback table and
    no "connect" event has followed), the proxy [add] does not call its
    callback with ENOTCONNECTED: it sends [["add", 2, 3, {"$": 2}]] over the
    new Transport. *)
Lemma proxy_sends_while_connecting :
  transport (snd w_reconnecting) = Some 2%nat /\
  nth_error (tables (snd w_reconnecting)) 1 = Some [(1, 5%nat)] /\
  nth_error (funs (snd w_reconnecting)) 5 = Some (FnWrapper 1 1 2) /\
  nth_error (funs (snd w_reconnecting)) 2 = Some FnOnReady /\
  last (trace (snd w_reconnecting)) (On 0%nat) <> Emit "connect" [] /\
  exists w',
    invoke 3 (VFun 4%nat) [VPrim (PNum 2); VPrim (PNum 3); VFun 1%nat] w_reconnecting
    = Ret tt w' /\
    trace (snd w') =
    trace (snd w_reconnecting) ++
    [Send 2%nat (Frozen (WArr [WPrim (PStr "add"); WPrim (PNum 2); WPrim (PNum 3);
                                 WObj [("$", WPrim (PNum 2))]]))].
Proof.
  repeat split; try (vm_compute; reflexivity).
  - vm_compute. discriminate.
  - eexists. split; vm_compute; reflexivity.
Qed.

(** C10: the proxy that [liven] makes for an inbound procedure-handle
    escape [{"$": k}] is the closure of [_getFunction(k)]; it captures the
    Transport bound to the Peer at that moment, and when invoked, in any
    later state of the Peer (disconnected, or connected to another
    Transport), it calls [send([k, ...args])] on the captured Transport:
    it tests nothing and reports no ENOTCONNECTED. *)
Theorem handle_proxy_keeps_its_transport (fuel : nat) (r : remote) (t : tid)
    (k : wire) (obj parent : loc) (key : key) (h : heap) :
  transport r = Some t ->
  (forall xs, k <> WArr xs) ->
  let a := List.length (funs r) in
  let r1 := set_funs (funs r ++ [FnRemote (Some t) k]) r in
  _getFunction k r = Ret (VFun a) r1 /\
  lfind _getFunction obj (WObj [("$", k)]) parent key (h, r)
  = set_prop parent (unescape key) (VFun a) (h, r1) /\
  forall (w' : world) (args : list value),
    nth_error (funs (snd w')) a = Some (FnRemote (Some t) k) ->
    invoke (S fuel) (VFun a) args w' = Ret tt (fst w', log (Send t (Raw k args)) (snd w')).
Proof.
  intros Ht Hk a r1.
  assert (G : _getFunction k r = Ret (VFun a) r1).
  { unfold _getFunction, new_fun. now rewrite Ht. }
  split; [exact G|]. split.
  - cbn [lfind assoc]. change (String.eqb "hasOwnProperty" "$") with false.
    change (String.eqb "$" "$") with true. cbv iota.
    destruct k as [p|xs|kvs]; [|now destruct (Hk xs)|];
      unfold bind, on_snd; cbn [snd fst]; rewrite G; reflexivity.
  - intros w' args Ha. cbn [invoke]. unfold bind, gets. rewrite Ha. reflexivity.
Qed.

(** A message whose argument is the handle [{"$": 7}] reaches the
    application procedure [add] while Transport 1 is bound. *)
Definition call_with_handle : wire :=
  WArr [WPrim (PStr "add"); WObj [("$", WPrim (PNum 7))]].

Lemma handle_proxy_keeps_its_transport_witness :
  let r := snd w_live in
  let a := List.length (funs r) in
  let r1 := set_funs (funs r ++ [FnRemote (Some 1%nat) (WPrim (PNum 7))]) r in
  (_getFunction (WPrim (PNum 7)) r = Ret (VFun a) r1 /\
   lfind _getFunction 0%nat (WObj [("$", WPrim (PNum 7))]) 0%nat (KIdx 1) (fst w_live, r)
   = set_prop 0%nat (unescape (KIdx 1)) (VFun a) (fst w_live, r1) /\
   forall (w' : world) (args : list value),
     nth_error (funs (snd w')) a = Some (FnRemote (Some 1%nat) (WPrim (PNum 7))) ->
     invoke 1 (VFun a) args w'
     = Ret tt (fst w', log (Send 1%nat (Raw (WPrim (PNum 7)) args)) (snd w'))) /\
  (* the same proxy, called after a disconnect and a connect to Transport 2 *)
  let w := after (connect 2%nat)
             (after (disconnect 3 (VPrim PUndefined))
                (after (_onMessage 3 call_with_handle) w_live)) in
  transport (snd w) = Some 2%nat /\
  trace (snd (after (invoke 1 (VFun 5%nat) [VPrim PNull]) w))
  = trace (snd w) ++ [Send 1%nat (Raw (WPrim (PNum 7)) [VPrim PNull])].
Proof.
  split.
  - apply (handle_proxy_keeps_its_transport 0 (snd w_live) 1 (WPrim (PNum 7)) 0 0 (KIdx 1)
             (fst w_live)); [vm_compute; reflexivity|discriminate].
  - split; vm_compute; reflexivity.
Defined.

(** C3, evaluated: a Peer disconnected while its handshake is outstanding.
    The table holds the wrapper of [_onReady] (key 1) and of the
    application callback 1 (key 2).  The flush calls [_onReady] with the
    error, which emits "error" and then throws on [names.forEach]: the
    callback under key 2 is never called, it stays in the table, and no
    "disconnect" event is emitted. *)
Lemma disconnect_flush_aborts :
  exists w',
    disconnect 3 (VPrim PUndefined) w_pending
    = Throw (TypeError "names.forEach is not a function") w' /\
    trace (snd w') = trace (snd w_pending) ++ [Off 1%nat; Emit "error" [EDISCONNECT]] /\
    nth_error (tables (snd w')) 0 = Some [(2, 4%nat)] /\
    nth_error (funs (snd w')) 4 = Some (FnWrapper 0 2 1) /\
    ~ In (Call 1%nat [EDISCONNECT]) (trace (snd w')) /\
    ~ In (Emit "disconnect" [VPrim PUndefined]) (trace (snd w')).
Proof.
  eexists. split; [vm_compute; reflexivity|].
  repeat split; try (vm_compute; reflexivity);
    vm_compute; intros H; repeat (destruct H as [H|H]; [discriminate|]); exact H.
Qed.

(** C9, evaluated: an inbound ready reply whose names argument is not a
    sequence.  [_onMessage] emits the error event and then throws: the
    exception crosses the dispatch boundary.  So does the TypeError of
    [get] for a back-reference that leads nowhere. *)
Lemma onMessage_throws :
  (exists w',
     _onMessage 3 (WArr [WPrim (PNum 1); WPrim (PStr "oops")]) w_connecting
     = Throw (TypeError "names.forEach is not a function") w' /\
     trace (snd w') = trace (snd w_connecting) ++ [Emit "error" [VPrim (PStr "oops")]]) /\
  (exists e w',
     _onMessage 3 (WArr [WPrim (PStr "add");
                         WObj [("$", WArr [WPrim (PNum 5); WPrim (PNum 0)])]]) w_live
     = Throw (TypeError e) w').
Proof.
  split.
  - eexists. split; vm_compute; reflexivity.
  - do 2 eexists. vm_compute. reflexivity.
Qed.

End RemoteFacts.

(** ** The round trip liven (freeze v) on values without procedures *)
Module Roundtrip.
Import Js Marshal MarshalFrame.
Open Scope string_scope.
Open Scope list_scope.
Open Scope nat_scope.

(** *** Structured values and their copies *)

Definition children (c : cell) : list value :=
  match c with
  | CArr xs => xs
  | CObj kvs => List.map snd kvs
  end.

(** A primitive, a byte blob, or a reference to a sequence or mapping. *)
Definition plain_value (v : value) : Prop :=
  match v with
  | VPrim _ | VRef _ => True
  | _ => False
  end.

(** A sequence or mapping of such values; the keys of a mapping are
    distinct. *)
Definition plain_cell (c : cell) : Prop :=
  Forall plain_value (children c) /\
  match c with
  | CObj kvs => NoDup (List.map fst kvs)
  | CArr _ => True
  end.

(** The two names that do not work as the key of a mapping: [liven] calls
    the member [hasOwnProperty] of every mapping it reads, and an
    assignment to [__proto__] adds no property. *)
Definition reserved (k : string) : bool :=
  String.eqb k "hasOwnProperty" || is_proto k.

Definition free_keys (c : cell) : Prop :=
  match c with
  | CObj kvs => Forall (fun k => reserved k = false) (List.map fst kvs)
  | CArr _ => True
  end.

(** The nodes of the value [v] in the heap [h]. *)
Inductive reach (h : heap) (v : value) : loc -> Prop :=
| reach_root l : v = VRef l -> reach h v l
| reach_child l c l' :
    reach h v l -> nth_error h l = Some c -> In (VRef l') (children c) ->
    reach h v l'.

(** [v] is a structured value without procedure references. *)
Definition structured (h : heap) (v : value) : Prop :=
  plain_value v /\
  forall l, reach h v l -> exists c, nth_error h l = Some c /\ plain_cell c.

(** The image of a value under a map of nodes. *)
Definition rename (f : loc -> loc) (v : value) : value :=
  match v with
  | VRef l => VRef (f l)
  | _ => v
  end.

Definition rename_cell (f : loc -> loc) (c : cell) : cell :=
  match c with
  | CArr xs => CArr (List.map (rename f) xs)
  | CObj kvs => CObj (List.map (fun kv => (fst kv, rename f (snd kv))) kvs)
  end.

(** *** Paths in a heap that grows *)

(** A cell with more properties after the ones it had. *)
Definition cell_le (c c' : cell) : Prop :=
  match c, c' with
  | CArr xs, CArr xs' => exists more, xs' = xs ++ more
  | CObj kvs, CObj kvs' => exists more, kvs' = kvs ++ more
  | _, _ => False
  end.

Definition heap_le (H H' : heap) : Prop :=
  forall l c, nth_error H l = Some c -> exists c', nth_error H' l = Some c' /\ cell_le c c'.

Lemma cell_le_refl c : cell_le c c.
Proof. destruct c; exists []; now rewrite app_nil_r. Qed.

Lemma heap_le_refl H : heap_le H H.
Proof. intros l c Hc. exists c. split; [assumption|apply cell_le_refl]. Qed.

Lemma cell_le_trans a b c : cell_le a b -> cell_le b c -> cell_le a c.
Proof.
  destruct a, b, c; cbn; try contradiction; intros [m1 ->] [m2 ->];
    exists (m1 ++ m2); now rewrite app_assoc.
Qed.

Lemma heap_le_trans A B C : heap_le A B -> heap_le B C -> heap_le A C.
Proof.
  intros HAB HBC l c Hc. destruct (HAB l c Hc) as (c1 & H1 & L1).
  destruct (HBC l c1 H1) as (c2 & H2 & L2). exists c2. split; [assumption|].
  eapply cell_le_trans; eauto.
Qed.

Lemma assoc_app_Some {A} k (kvs more : list (string * A)) v :
  assoc k kvs = Some v -> assoc k (kvs ++ more) = Some v.
Proof.
  induction kvs as [|[k' v'] kvs IH]; cbn; [discriminate|].
  destruct (String.eqb k k'); auto.
Qed.

Lemma assoc_app_None {A} k (kvs more : list (string * A)) :
  assoc k kvs = None -> assoc k (kvs ++ more) = assoc k more.
Proof.
  induction kvs as [|[k' v'] kvs IH]; cbn; [reflexivity|].
  destruct (String.eqb k k'); [discriminate|auto].
Qed.

Lemma assoc_set_fresh {A} k (v : A) kvs :
  assoc k kvs = None -> assoc_set k v kvs = kvs ++ [(k, v)].
Proof.
  induction kvs as [|[k' v'] kvs IH]; cbn; [reflexivity|].
  destruct (String.eqb k k'); [discriminate|]. intros H. now rewrite IH.
Qed.

Lemma arr_set_end xs v : arr_set xs (List.length xs) v = xs ++ [v].
Proof.
  unfold arr_set. rewrite Nat.ltb_irrefl, Nat.sub_diag. reflexivity.
Qed.

Definition is_ref (v : value) : Prop := exists l, v = VRef l.

(** A path that leads to a node still leads there in a larger heap. *)
Lemma prop_get_le H H' t k v :
  heap_le H H' -> prop_get H t k = inr v -> v <> VPrim PUndefined ->
  prop_get H' t k = inr v.
Proof.
  intros Hle Hg Hv. destruct t as [p|l|f|code msg]; try (destruct p; discriminate);
    try discriminate.
  cbn in *. destruct (nth_error H l) as [c|] eqn:Hc; [|discriminate].
  destruct (Hle l c Hc) as (c' & -> & Lc).
  destruct c as [xs|kvs], c' as [xs'|kvs']; cbn in Lc; try contradiction;
    destruct Lc as [more ->].
  - destruct k as [[| |b|n|s|id]|?|?]; try discriminate.
    destruct (Z.ltb n 0); [congruence|].
    injection Hg as <-.
    destruct (Nat.ltb_spec (Z.to_nat n) (List.length xs)).
    + now rewrite app_nth1.
    + rewrite nth_overflow in Hv by lia. congruence.
  - destruct k as [[| |b|n|s|id]|?|?]; try discriminate.
    destruct (assoc s kvs) as [v'|] eqn:E.
    + now rewrite (assoc_app_Some _ _ _ _ E).
    + congruence.
Qed.

Lemma get_le H H' path : forall t l,
  heap_le H H' -> get H t path = inr (VRef l) -> get H' t path = inr (VRef l).
Proof.
  induction path as [|k path IH]; intros t l Hle; cbn; [auto|].
  destruct (prop_get H t k) as [e|t1] eqn:E; [discriminate|]. intros Hg.
  assert (Hne : t1 <> VPrim PUndefined).
  { intros ->. destruct path; cbn in Hg; discriminate. }
  rewrite (prop_get_le _ _ _ _ _ Hle E Hne). eauto.
Qed.

Lemma get_app H p1 : forall t p2,
  get H t (p1 ++ p2) = match get H t p1 with
                       | inr t' => get H t' p2
                       | inl e => inl e
                       end.
Proof.
  induction p1 as [|k p1 IH]; intros t p2; cbn; [reflexivity|].
  destruct (prop_get H t k); [reflexivity|apply IH].
Qed.

Lemma heap_le_grows parent H H' c :
  grows_around parent H H' -> nth_error H parent = Some c ->
  (exists c', nth_error H' parent = Some c' /\ cell_le c c') ->
  heap_le H H'.
Proof.
  intros [L G] Hc (c' & Hc' & Le) l x Hx.
  destruct (Nat.eq_dec l parent) as [->|Hne].
  - rewrite Hc in Hx. injection Hx as <-. eauto.
  - exists x. split; [|apply cell_le_refl].
    rewrite G; auto. apply nth_error_Some. congruence.
Qed.

(** *** Registry lookups *)

Lemma value_eqb_ref x l : value_eqb x (VRef l) = true -> x = VRef l.
Proof.
  destruct x; cbn; try discriminate. intros H. apply Nat.eqb_eq in H. now subst.
Qed.

Lemma indexOf_In l (seen : registry) p :
  indexOf (VRef l) seen = Some p -> In (VRef l, p) seen.
Proof.
  induction seen as [|[x q] seen IH]; cbn; [discriminate|].
  destruct (value_eqb x (VRef l)) eqn:E.
  - intros [= ->]. left. now rewrite (value_eqb_ref _ _ E).
  - auto.
Qed.

Lemma indexOf_None l (seen : registry) :
  indexOf (VRef l) seen = None -> forall p, ~ In (VRef l, p) seen.
Proof.
  induction seen as [|[x q] seen IH]; cbn; [auto|].
  destruct (value_eqb x (VRef l)) eqn:E; [discriminate|].
  intros H p [[= -> ->]|Hin].
  - cbn in E. now rewrite Nat.eqb_refl in E.
  - eapply IH; eauto.
Qed.

Lemma indexOf_app v (a b : registry) :
  indexOf v (a ++ b) = match indexOf v a with
                       | Some p => Some p
                       | None => indexOf v b
                       end.
Proof.
  induction a as [|[x q] a IH]; cbn; [reflexivity|].
  destruct (value_eqb x v); auto.
Qed.

Lemma In_indexOf l p (seen : registry) :
  In (VRef l, p) seen -> exists q, indexOf (VRef l) seen = Some q.
Proof.
  induction seen as [|[x q] seen IH]; cbn; [contradiction|].
  intros [[= -> ->]|Hin].
  - cbn. rewrite Nat.eqb_refl. eauto.
  - destruct (value_eqb x (VRef l)); eauto.
Qed.

(** *** The nodes not yet seen: what bounds the depth of [find] *)

Definition is_new (seen : registry) (l : loc) : bool :=
  match indexOf (VRef l) seen with
  | None => true
  | Some _ => false
  end.

Definition unseen (h : heap) (seen : registry) : nat :=
  List.length (filter (is_new seen) (seq 0 (List.length h))).

Lemma filter_length_le {A} (f g : A -> bool) (l : list A) :
  (forall x, g x = true -> f x = true) ->
  List.length (filter g l) <= List.length (filter f l).
Proof.
  intros Hfg. induction l as [|x l IH]; cbn; [lia|].
  destruct (g x) eqn:G.
  - rewrite (Hfg x G). cbn. lia.
  - destruct (f x); cbn; lia.
Qed.

Lemma filter_length_lt {A} (f g : A -> bool) (l : list A) y :
  (forall x, g x = true -> f x = true) ->
  In y l -> f y = true -> g y = false ->
  List.length (filter g l) < List.length (filter f l).
Proof.
  intros Hfg. induction l as [|x l IH]; cbn; [contradiction|].
  intros [->|Hin] Fy Gy.
  - rewrite Fy, Gy. cbn.
    pose proof (filter_length_le f g l Hfg). lia.
  - specialize (IH Hin Fy Gy). destruct (g x) eqn:G.
    + rewrite (Hfg x G). cbn. lia.
    + destruct (f x); cbn; lia.
Qed.

Lemma unseen_app h (seen more : registry) : unseen h (seen ++ more) <= unseen h seen.
Proof.
  unfold unseen. apply filter_length_le. intros l. unfold is_new.
  rewrite indexOf_app. destruct (indexOf (VRef l) seen); [discriminate|auto].
Qed.

Lemma unseen_new h (seen : registry) l p :
  indexOf (VRef l) seen = None -> l < List.length h ->
  unseen h (seen ++ [(VRef l, p)]) < unseen h seen.
Proof.
  intros Hn Hl. unfold unseen. apply filter_length_lt with (y := l).
  - intros x. unfold is_new. rewrite indexOf_app.
    destruct (indexOf (VRef x) seen); [discriminate|auto].
  - apply in_seq. lia.
  - unfold is_new. now rewrite Hn.
  - unfold is_new. rewrite indexOf_app, Hn. cbn. now rewrite Nat.eqb_refl.
Qed.

Lemma filter_true {A} (l : list A) : filter (fun _ => true) l = l.
Proof. induction l as [|x l IH]; cbn; [reflexivity|now rewrite IH]. Qed.

Lemma unseen_le h (seen : registry) : unseen h seen <= List.length h.
Proof.
  unfold unseen. pose proof (filter_length_le (fun _ => true) (is_new seen)
    (seq 0 (List.length h)) ltac:(auto)) as H.
  now rewrite filter_true, length_seq in H.
Qed.

(** *** Keys *)

Lemma unescape_keyMap k : unescape (KStr (keyMap k)) = KStr k.
Proof.
  unfold keyMap. destruct k as [|c k]; [reflexivity|]. unfold dollar.
  destruct (Ascii.eqb c "$") eqn:E; cbn [unescape].
  - change (Ascii.eqb "$" "$") with true. reflexivity.
  - now rewrite E.
Qed.

Lemma keyMap_inj a b : keyMap a = keyMap b -> a = b.
Proof.
  intros H. apply (f_equal (fun k => unescape (KStr k))) in H.
  rewrite !unescape_keyMap in H. congruence.
Qed.

Lemma keyMap_not_dollar k : String.eqb "$" (keyMap k) = false.
Proof.
  unfold keyMap. destruct k as [|c k]; [reflexivity|]. unfold dollar.
  destruct (Ascii.eqb c "$") eqn:E; cbn [String.eqb].
  - change (Ascii.eqb "$" "$") with true. reflexivity.
  - rewrite Ascii.eqb_sym, E. reflexivity.
Qed.

Definition escaped (kvs : list (string * wire)) (keys : list string) : Prop :=
  List.map fst kvs = List.map keyMap keys.

Lemma assoc_escaped_dollar kvs keys : escaped kvs keys -> assoc "$" kvs = None.
Proof.
  unfold escaped. revert keys. induction kvs as [|[k w] kvs IH]; intros [|k' keys];
    cbn [List.map fst assoc]; try discriminate; auto.
  intros [= -> H]. rewrite keyMap_not_dollar. eauto.
Qed.

Lemma reserved_keyMap k : reserved k = false -> reserved (keyMap k) = false.
Proof.
  unfold keyMap. destruct (dollar k); [|auto]. intros _.
  unfold reserved, is_proto. cbn [String.eqb].
  change (Ascii.eqb "$" "h") with false. change (Ascii.eqb "$" "_") with false.
  reflexivity.
Qed.

Lemma assoc_escaped_shadow kvs keys :
  escaped kvs keys -> Forall (fun k => reserved k = false) keys ->
  assoc "hasOwnProperty" kvs = None.
Proof.
  unfold escaped. revert keys. induction kvs as [|[k w] kvs IH]; intros [|k' keys];
    cbn [List.map fst assoc]; try discriminate; auto.
  intros [= -> H] F. inversion F as [|? ? Hk F']; subst.
  apply reserved_keyMap in Hk. unfold reserved in Hk.
  apply orb_false_elim in Hk. destruct Hk as [Hk _].
  rewrite String.eqb_sym, Hk. eauto.
Qed.

Lemma assoc_None_notin {A} k (kvs : list (string * A)) :
  ~ In k (List.map fst kvs) -> assoc k kvs = None.
Proof.
  induction kvs as [|[k' v] kvs IH]; cbn; [reflexivity|].
  intros H. destruct (String.eqb_spec k k') as [->|Hne]; [tauto|]. apply IH. tauto.
Qed.

Section Trip.
Context {St : Type}.
Variable storeFunction : nat -> M St wire.
Variable getFunction : wire -> M St value.
(** The heap the value lives in, and its footprint: a set of nodes closed
    under the children relation, all of them plain. *)
Variable h : heap.
Variable D : loc -> Prop.
Hypothesis D_closed : forall l, D l ->
  exists c, nth_error h l = Some c /\ plain_cell c /\
            forall l', In (VRef l') (children c) -> D l'.
Hypothesis D_keys : forall l c, D l -> nth_error h l = Some c -> free_keys c.
(** The holder [obj] of [liven]. *)
Variable obj : loc.

Definition value_ok (v : value) : Prop :=
  match v with
  | VPrim _ => True
  | VRef l => D l
  | _ => False
  end.

(** [get(obj, p) = x] in the heap [H]. *)
Definition at_path (H : heap) (p : list key) (x : value) : Prop :=
  get H (VRef obj) (List.map key_wire p) = inr x.

(** The path of [freeze], from the holder. *)
Definition full (p : list key) : list key := KStr "root" :: p.

(** The node [l] has its copy, complete, and its children were visited. *)
Definition copied (seen : registry) (f : loc -> loc) (H : heap) (l : loc) : Prop :=
  exists c, nth_error h l = Some c /\
            nth_error H (f l) = Some (rename_cell f c) /\
            forall l', In (VRef l') (children c) -> exists p, In (VRef l', p) seen.

(** What relates the registry of [freeze] to the heap [liven] builds: each
    node seen has a copy, a cell of [liven], found at the node's path. *)
Record Inv (seen : registry) (f : loc -> loc) (H : heap) : Prop := {
  inv_path : forall l p, In (VRef l, p) seen -> at_path H (full p) (VRef (f l));
  inv_copy : forall l p, In (VRef l, p) seen -> List.length h <= f l < List.length H;
  inv_refs : forall x p, In (x, p) seen -> exists l, x = VRef l /\ D l;
  inv_inj : forall l1 p1 l2 p2,
      In (VRef l1, p1) seen -> In (VRef l2, p2) seen -> f l1 = f l2 -> l1 = l2 }.

(** [H] starts with the cells of [h]. *)
Definition base (H : heap) : Prop :=
  List.length h <= List.length H /\
  forall l, l < List.length h -> nth_error H l = nth_error h l.

(** A cell with one more property, and the keys that add one. *)
Definition cell_add (c : cell) (k : key) (x : value) : cell :=
  match c, k with
  | CArr xs, KIdx _ => CArr (xs ++ [x])
  | CObj kvs, KStr name => CObj (kvs ++ [(name, x)])
  | _, _ => c
  end.

Definition fresh_slot (c : cell) (k : key) : Prop :=
  match c, k with
  | CArr xs, KIdx i => i = List.length xs
  | CObj kvs, KStr name => assoc name kvs = None /\ is_proto name = false
  | _, _ => False
  end.

Lemma set_prop_fresh H parent c k x (s : St) :
  nth_error H parent = Some c -> fresh_slot c k ->
  set_prop parent k x (H, s) = Ret tt (update H parent (cell_add c k x), s).
Proof.
  intros Hc Hf. unfold set_prop. cbn [fst snd]. rewrite Hc.
  destruct c as [xs|kvs], k as [i|name]; cbn in Hf; try contradiction; cbn [cell_add].
  - subst i. now rewrite arr_set_end.
  - destruct Hf as [Hf ->]. now rewrite assoc_set_fresh.
Qed.

Lemma cell_le_add c k x : fresh_slot c k -> cell_le c (cell_add c k x).
Proof.
  destruct c as [xs|kvs], k as [i|name]; cbn; try contradiction; eauto.
Qed.

Lemma grows_update H parent c' :
  grows_around parent H (update H parent c').
Proof.
  split; [rewrite update_length; lia|].
  intros l _ Hne. apply nth_error_update_other. congruence.
Qed.

Lemma heap_le_update H parent c c' :
  nth_error H parent = Some c -> cell_le c c' -> heap_le H (update H parent c').
Proof.
  intros Hc Le. eapply heap_le_grows; [apply grows_update|exact Hc|].
  exists c'. split; [|assumption].
  apply nth_error_update'. apply nth_error_Some. congruence.
Qed.

Lemma heap_le_snoc H c : heap_le H (H ++ [c]).
Proof.
  intros l x Hx. exists x. split; [|apply cell_le_refl].
  rewrite nth_error_app1; [assumption|]. apply nth_error_Some. congruence.
Qed.

Lemma at_path_le H H' p l :
  heap_le H H' -> at_path H p (VRef l) -> at_path H' p (VRef l).
Proof. unfold at_path. intros. eapply get_le; eauto. Qed.

Lemma at_path_slot H pp parent c k x :
  at_path H pp (VRef parent) -> nth_error H parent = Some c -> fresh_slot c k ->
  at_path (update H parent (cell_add c k x)) (pp ++ [k]) x.
Proof.
  intros Hp Hc Hf. unfold at_path in *.
  rewrite map_app, get_app.
  rewrite (get_le H _ _ _ parent (heap_le_update _ _ _ _ Hc (cell_le_add c k x Hf)) Hp).
  cbn [List.map get prop_get].
  rewrite nth_error_update' by (apply nth_error_Some; congruence).
  destruct c as [xs|kvs], k as [i|name]; cbn in Hf; try contradiction;
    cbn [cell_add key_wire].
  - subst i. destruct (Z.ltb_spec (Z.of_nat (List.length xs)) 0%Z); [lia|].
    rewrite Nat2Z.id, app_nth2, Nat.sub_diag by lia. reflexivity.
  - rewrite assoc_app_None by apply Hf. cbn. now rewrite String.eqb_refl.
Qed.

Lemma root_get H p x :
  at_path H (full p) x -> get H (root_of H obj) (List.map key_wire p) = inr x.
Proof.
  unfold at_path, full, root_of. cbn [List.map key_wire get prop_get].
  destruct (nth_error H obj) as [[xs|kvs]|]; try discriminate.
  destruct (assoc "root" kvs); auto.
Qed.

Lemma Inv_le seen f H H' :
  Inv seen f H -> heap_le H H' -> List.length H <= List.length H' -> Inv seen f H'.
Proof.
  intros [P C R I] Hle Hlen. split; auto.
  - intros l p Hin. eapply at_path_le; eauto.
  - intros l p Hin. specialize (C l p Hin). lia.
Qed.

Lemma rename_ext f g v :
  (forall l, v = VRef l -> g l = f l) -> rename g v = rename f v.
Proof. destruct v; cbn; auto; try (intros H; f_equal; now apply H). Qed.

Lemma rename_cell_ext f g c :
  (forall l, In (VRef l) (children c) -> g l = f l) -> rename_cell g c = rename_cell f c.
Proof.
  destruct c as [xs|kvs]; cbn; intros H; f_equal.
  - apply map_ext_in. intros v Hv. apply rename_ext. intros l ->. auto.
  - apply map_ext_in. intros [k v] Hv. cbn. f_equal. apply rename_ext. intros l ->.
    apply H. apply in_map_iff. exists (k, VRef l). auto.
Qed.

Lemma copied_later seen f H seen' f' H' l :
  copied seen f H l ->
  (forall x, In x seen -> In x seen') ->
  (forall l' p, In (VRef l', p) seen -> f' l' = f l') ->
  (exists p, In (VRef l, p) seen) ->
  nth_error H' (f l) = nth_error H (f l) ->
  copied seen' f' H' l.
Proof.
  intros (c & Hc & Hcopy & Hch) Hincl Hagree [p Hl] Hsame.
  exists c. split; [assumption|]. split.
  - rewrite (Hagree l p Hl), Hsame, Hcopy. f_equal. symmetry.
    apply rename_cell_ext. intros l' Hl'. destruct (Hch l' Hl') as [p' Hp'].
    eapply Hagree; eauto.
  - intros l' Hl'. destruct (Hch l' Hl') as [p' Hp']. eauto.
Qed.

Lemma base_grows parent H H' :
  base H -> List.length h <= parent -> grows_around parent H H' -> base H'.
Proof.
  intros [L B] Hp [L' G]. split; [lia|].
  intros l Hl. rewrite G by lia. now apply B.
Qed.

(** *** One call of [find] in [freeze], and the call of [find] in [liven]
    on what it returned *)

(** The nodes [new] were first seen during a call that started with the
    heap [H]: their copies were allocated since, and are complete. *)
Definition all_copied (H : heap) (new seen' : registry) (f' : loc -> loc) (H' : heap) : Prop :=
  forall l p, In (VRef l, p) new -> List.length H <= f' l /\ copied seen' f' H' l.

Definition find_spec (n : nat) : Prop :=
  forall v path seen s f H s2 parent k kw pp c,
    value_ok v -> unseen h seen < n ->
    Inv seen f H -> base H ->
    List.length h <= parent < List.length H ->
    nth_error H parent = Some c -> fresh_slot c k -> unescape kw = k ->
    full path = pp ++ [k] -> at_path H pp (VRef parent) ->
    exists w seen' f' H',
      ffind storeFunction n h v path (seen, s) = Ret w (seen', s) /\
      lfind getFunction obj w parent kw (H, s2) = Ret tt (H', s2) /\
      (exists new, seen' = seen ++ new /\ all_copied H new seen' f' H') /\
      (forall l p, In (VRef l, p) seen -> f' l = f l) /\
      Inv seen' f' H' /\
      grows_around parent H H' /\
      nth_error H' parent = Some (cell_add c k (rename f' v)) /\
      match v with
      | VRef l => exists p, In (VRef l, p) seen'
      | _ => True
      end.

Lemma all_copied_nil H seen f H' : all_copied H [] seen f H'.
Proof. intros l p []. Qed.

(** Nodes copied by an earlier call stay copied through a later call that
    writes only to cells older than their copies. *)
Lemma all_copied_later H0 new seen1 f1 H1 more f2 H2 parent :
  all_copied H0 new seen1 f1 H1 ->
  Inv seen1 f1 H1 ->
  (forall x, In x new -> In x seen1) ->
  (forall l p, In (VRef l, p) seen1 -> f2 l = f1 l) ->
  grows_around parent H1 H2 -> parent < List.length H0 ->
  all_copied H0 new (seen1 ++ more) f2 H2.
Proof.
  intros Hall Hinv Hsub Hagree [L G] Hp l p Hin.
  destruct (Hall l p Hin) as [Hge Hc].
  pose proof (Hsub _ Hin) as Hin1.
  rewrite (Hagree l p Hin1). split; [assumption|].
  eapply copied_later; eauto.
  - intros x Hx. apply in_or_app. now left.
  - apply G.
    + destruct (inv_copy _ _ _ Hinv l p Hin1). lia.
    + lia.
Qed.

Lemma all_copied_app H new1 new2 seen f H' :
  all_copied H new1 seen f H' -> all_copied H new2 seen f H' ->
  all_copied H (new1 ++ new2) seen f H'.
Proof.
  intros H1 H2 l p Hin. apply in_app_or in Hin. destruct Hin; eauto.
Qed.

Lemma all_copied_older H0 H new seen f H' :
  List.length H0 <= List.length H -> all_copied H new seen f H' ->
  all_copied H0 new seen f H'.
Proof.
  intros Hle Hall l p Hin. destruct (Hall l p Hin). split; [lia|assumption].
Qed.

(** The elements of a sequence, from index [i] on. *)
Lemma arr_spec m (IH : find_spec m) xs : forall i done seen s f H s2 path o,
  Forall value_ok xs -> unseen h seen < m -> Inv seen f H -> base H ->
  List.length h <= o < List.length H ->
  nth_error H o = Some (CArr done) -> List.length done = i ->
  at_path H (full path) (VRef o) ->
  exists ws seen' f' H',
    map_arr (fun sub key => ffind storeFunction m h sub (path ++ [key])) xs i (seen, s)
      = Ret ws (seen', s) /\
    forEach_arr (fun sub key => lfind getFunction obj sub o key) ws i (H, s2)
      = Ret tt (H', s2) /\
    (exists new, seen' = seen ++ new /\ all_copied H new seen' f' H') /\
    (forall l p, In (VRef l, p) seen -> f' l = f l) /\
    Inv seen' f' H' /\
    grows_around o H H' /\
    nth_error H' o = Some (CArr (done ++ List.map (rename f') xs)) /\
    (forall l', In (VRef l') xs -> exists p, In (VRef l', p) seen').
Proof.
  induction xs as [|x xs IHxs]; intros i done seen s f H s2 path o Hok Hfuel Hinv Hbase Ho Hcell Hi Hpath.
  - exists [], seen, f, H. cbn [map_arr forEach_arr List.map]. rewrite app_nil_r.
    split; [reflexivity|]. split; [reflexivity|].
    split; [exists []; rewrite app_nil_r; split; [reflexivity|apply all_copied_nil]|].
    split; [auto|]. split; [exact Hinv|]. split; [apply grows_around_refl|].
    split; [assumption|]. intros l' [].
  - inversion Hok as [|? ? Hx Hxs]; subst.
    destruct (IH x (path ++ [KIdx (List.length done)]) seen s f H s2 o
                (KIdx (List.length done)) (KIdx (List.length done)) (full path) (CArr done))
      as (w & seen1 & f1 & H1 & Hf1 & Hl1 & (new1 & -> & Hnew1) & Hag1 & Hinv1 & Hg1 & Hc1 & Hin1);
      auto; try reflexivity.
    cbn [cell_add] in Hc1.
    assert (Hle1 : heap_le H H1).
    { eapply heap_le_grows; eauto. eexists. split; [exact Hc1|]. cbn. eauto. }
    assert (Hlen1 : List.length H <= List.length H1) by (destruct Hg1; assumption).
    destruct (IHxs (S (List.length done)) (done ++ [rename f1 x]) (seen ++ new1) s f1 H1 s2 path o)
      as (ws & seen2 & f2 & H2 & Hf2 & Hl2 & (new2 & -> & Hnew2) & Hag2 & Hinv2 & Hg2 & Hc2 & Hin2);
      auto.
    + pose proof (unseen_app h seen new1). lia.
    + apply (base_grows o H H1); auto; lia.
    + lia.
    + rewrite length_app. cbn. lia.
    + eapply at_path_le; eauto.
    + exists (w :: ws), ((seen ++ new1) ++ new2), f2, H2.
      split; [|split; [|split; [|split; [|split; [|split; [|split]]]]]].
      * cbn [map_arr]. unfold bind. rewrite Hf1.
        unfold bind in Hf2. rewrite Hf2. reflexivity.
      * cbn [forEach_arr]. unfold bind. rewrite Hl1. exact Hl2.
      * exists (new1 ++ new2). split; [now rewrite app_assoc|].
        apply all_copied_app.
        -- eapply all_copied_later; eauto.
           ++ intros y Hy. apply in_or_app. now right.
           ++ lia.
        -- eapply all_copied_older; [|exact Hnew2]. assumption.
      * intros l p Hin. rewrite (Hag2 l p) by (apply in_or_app; now left). eauto.
      * assumption.
      * eapply grows_around_trans; eauto.
      * rewrite Hc2, <- app_assoc. cbn [app List.map]. do 4 f_equal.
        symmetry. apply rename_ext. intros l ->. destruct Hin1 as [p Hp]. eauto.
      * intros l' [->|Hin].
        -- destruct Hin1 as [p Hp]. exists p. apply in_or_app. now left.
        -- eauto.
Qed.

Definition rename_props (f : loc -> loc) (kvs : list (string * value)) :=
  List.map (fun kv => (fst kv, rename f (snd kv))) kvs.

(** The properties of a mapping, after the ones named [keys]. *)
Lemma obj_spec m (IH : find_spec m) kvs : forall keys acc done seen s f H s2 path o,
  Forall value_ok (List.map snd kvs) -> NoDup (keys ++ List.map fst kvs) ->
  Forall (fun k => reserved k = false) (List.map fst kvs) ->
  escaped acc keys -> List.map fst done = keys ->
  unseen h seen < m -> Inv seen f H -> base H ->
  List.length h <= o < List.length H ->
  nth_error H o = Some (CObj done) ->
  at_path H (full path) (VRef o) ->
  exists ws seen' f' H',
    map_obj (fun sub key => ffind storeFunction m h sub (path ++ [key])) kvs acc (seen, s)
      = Ret (acc ++ ws) (seen', s) /\
    escaped ws (List.map fst kvs) /\
    forEach_obj (fun sub key => lfind getFunction obj sub o key) ws (H, s2)
      = Ret tt (H', s2) /\
    (exists new, seen' = seen ++ new /\ all_copied H new seen' f' H') /\
    (forall l p, In (VRef l, p) seen -> f' l = f l) /\
    Inv seen' f' H' /\
    grows_around o H H' /\
    nth_error H' o = Some (CObj (done ++ rename_props f' kvs)) /\
    (forall l', In (VRef l') (List.map snd kvs) -> exists p, In (VRef l', p) seen').
Proof.
  induction kvs as [|[k x] kvs IHkvs];
    intros keys acc done seen s f H s2 path o Hok Hnd Hres Hacc Hdone Hfuel Hinv Hbase Ho Hcell Hpath.
  - exists [], seen, f, H. cbn [map_obj forEach_obj List.map rename_props]. rewrite !app_nil_r.
    split; [reflexivity|]. split; [reflexivity|]. split; [reflexivity|].
    split; [exists []; rewrite app_nil_r; split; [reflexivity|apply all_copied_nil]|].
    split; [auto|]. split; [exact Hinv|]. split; [apply grows_around_refl|].
    split; [assumption|]. intros l' [].
  - cbn [List.map fst snd] in Hok, Hnd, Hres.
    inversion Hok as [|? ? Hx Hxs]; subst.
    inversion Hres as [|? ? Hrk Hrest]; subst.
    assert (Hpk : is_proto k = false).
    { unfold reserved in Hrk. now apply orb_false_elim in Hrk. }
    assert (Hpm : is_proto (keyMap k) = false).
    { apply reserved_keyMap in Hrk. unfold reserved in Hrk.
      now apply orb_false_elim in Hrk. }
    assert (Hk : ~ In k (List.map fst done)).
    { apply NoDup_remove_2 in Hnd. intros Hin. apply Hnd. apply in_or_app. now left. }
    destruct (IH x (path ++ [KStr k]) seen s f H s2 o
                (KStr k) (KStr (keyMap k)) (full path) (CObj done))
      as (w & seen1 & f1 & H1 & Hf1 & Hl1 & (new1 & -> & Hnew1) & Hag1 & Hinv1 & Hg1 & Hc1 & Hin1);
      auto; try reflexivity.
    { cbn. split; [now apply assoc_None_notin|assumption]. }
    { apply unescape_keyMap. }
    cbn [cell_add] in Hc1.
    assert (Hle1 : heap_le H H1).
    { eapply heap_le_grows; eauto. eexists. split; [exact Hc1|]. cbn. eauto. }
    assert (Hlen1 : List.length H <= List.length H1) by (destruct Hg1; assumption).
    assert (Hset : assoc_set (keyMap k) w acc = acc ++ [(keyMap k, w)]).
    { apply assoc_set_fresh. apply assoc_None_notin. rewrite Hacc.
      intros Hin. apply in_map_iff in Hin. destruct Hin as (k' & E & Hk').
      apply keyMap_inj in E. subst k'. now apply Hk. }
    destruct (IHkvs (List.map fst done ++ [k]) (acc ++ [(keyMap k, w)])
                (done ++ [(k, rename f1 x)]) (seen ++ new1) s f1 H1 s2 path o)
      as (ws & seen2 & f2 & H2 & Hf2 & Hesc & Hl2 & (new2 & -> & Hnew2) & Hag2 & Hinv2 & Hg2 & Hc2 & Hin2);
      auto.
    + now rewrite <- app_assoc.
    + unfold escaped in *. rewrite !map_app, Hacc. reflexivity.
    + rewrite map_app. reflexivity.
    + pose proof (unseen_app h seen new1). lia.
    + apply (base_grows o H H1); auto; lia.
    + lia.
    + eapply at_path_le; eauto.
    + exists ((keyMap k, w) :: ws), ((seen ++ new1) ++ new2), f2, H2.
      split; [|split; [|split; [|split; [|split; [|split; [|split; [|split]]]]]]].
      * cbn [map_obj]. unfold bind. rewrite Hf1, Hpm, Hset, Hf2.
        now rewrite <- app_assoc.
      * unfold escaped in *. cbn [List.map fst]. now rewrite Hesc.
      * cbn [forEach_obj]. unfold bind. rewrite Hl1. exact Hl2.
      * exists (new1 ++ new2). split; [now rewrite app_assoc|].
        apply all_copied_app.
        -- eapply all_copied_later; eauto.
           ++ intros y Hy. apply in_or_app. now right.
           ++ lia.
        -- eapply all_copied_older; [|exact Hnew2]. assumption.
      * intros l p Hin. rewrite (Hag2 l p) by (apply in_or_app; now left). eauto.
      * assumption.
      * eapply grows_around_trans; eauto.
      * rewrite Hc2, <- app_assoc. cbn [app List.map rename_props fst snd]. do 5 f_equal.
        symmetry. apply rename_ext. intros l ->. destruct Hin1 as [p Hp]. eauto.
      * cbn [List.map snd]. intros l' [->|Hin].
        -- destruct Hin1 as [p Hp]. exists p. apply in_or_app. now left.
        -- eauto.
Qed.

Lemma assoc_In {A} k (kvs : list (string * A)) v :
  assoc k kvs = Some v -> In v (List.map snd kvs).
Proof.
  induction kvs as [|[k' v'] kvs IH]; cbn; [discriminate|].
  destruct (String.eqb k k'); [intros [= ->]; now left|auto].
Qed.

(** A node seen for the first time: its copy [o] is allocated at the end
    of the heap and linked into its parent (lines 443-444). *)
Lemma link_spec seen f H parent c k pp path l e0 :
  Inv seen f H -> base H ->
  List.length h <= parent < List.length H ->
  nth_error H parent = Some c -> fresh_slot c k ->
  full path = pp ++ [k] -> at_path H pp (VRef parent) ->
  indexOf (VRef l) seen = None -> D l ->
  let o := List.length H in
  let H2 := update (H ++ [e0]) parent (cell_add c k (VRef o)) in
  let f1 := fun x => if Nat.eqb x l then o else f x in
  Inv (seen ++ [(VRef l, path)]) f1 H2 /\ base H2 /\
  List.length H2 = S o /\
  nth_error H2 o = Some e0 /\
  nth_error H2 parent = Some (cell_add c k (VRef o)) /\
  at_path H2 (full path) (VRef o) /\
  grows_around parent H H2 /\
  (forall l' p, In (VRef l', p) seen -> f1 l' = f l').
Proof.
  intros Hinv Hbase Hp Hc Hf Hfull Hpp Hnew HD o H2 f1.
  assert (Hc1 : nth_error (H ++ [e0]) parent = Some c)
    by (rewrite nth_error_app1 by lia; assumption).
  assert (Hlen : List.length H2 = S o).
  { subst H2. rewrite update_length, length_app. cbn. lia. }
  assert (Hle : heap_le H H2).
  { eapply heap_le_trans; [apply heap_le_snoc|].
    eapply heap_le_update; [exact Hc1|]. now apply cell_le_add. }
  assert (Hagree : forall l' p, In (VRef l', p) seen -> f1 l' = f l').
  { intros l' p Hin. subst f1. cbn. destruct (Nat.eqb_spec l' l) as [->|]; [|reflexivity].
    now destruct (indexOf_None _ _ Hnew p). }
  assert (Ho : nth_error H2 o = Some e0).
  { subst H2. rewrite nth_error_update_other by lia.
    rewrite nth_error_app2, Nat.sub_diag by lia. reflexivity. }
  assert (Hpath : at_path H2 (full path) (VRef o)).
  { rewrite Hfull. subst H2. apply at_path_slot; auto.
    eapply at_path_le; [apply heap_le_snoc|assumption]. }
  split; [|split; [|split; [|split; [|split; [|split; [|split]]]]]]; auto.
  - split.
    + intros l' p Hin. apply in_app_or in Hin. destruct Hin as [Hin|[[= -> ->]|[]]].
      * rewrite (Hagree l' p Hin). eapply at_path_le; [exact Hle|].
        eapply inv_path; eauto.
      * subst f1. cbn. now rewrite Nat.eqb_refl.
    + intros l' p Hin. apply in_app_or in Hin. destruct Hin as [Hin|[[= -> ->]|[]]].
      * rewrite (Hagree l' p Hin). destruct (inv_copy _ _ _ Hinv l' p Hin). lia.
      * subst f1. cbn. rewrite Nat.eqb_refl. destruct Hbase. lia.
    + intros x p Hin. apply in_app_or in Hin. destruct Hin as [Hin|[[= <- <-]|[]]].
      * eapply inv_refs; eauto.
      * eauto.
    + intros l1 p1 l2 p2 Hin1 Hin2.
      apply in_app_or in Hin1. apply in_app_or in Hin2.
      destruct Hin1 as [Hin1|[[= -> ->]|[]]]; destruct Hin2 as [Hin2|[[= -> ->]|[]]]; auto.
      * rewrite (Hagree _ _ Hin1), (Hagree _ _ Hin2). eapply inv_inj; eauto.
      * rewrite (Hagree _ _ Hin1). subst f1. cbn. rewrite Nat.eqb_refl.
        destruct (inv_copy _ _ _ Hinv _ _ Hin1). lia.
      * rewrite (Hagree _ _ Hin2). subst f1. cbn. rewrite Nat.eqb_refl.
        destruct (inv_copy _ _ _ Hinv _ _ Hin2). lia.
  - destruct Hbase as [L B]. split; [lia|].
    intros x Hx. subst H2. rewrite nth_error_update_other by lia.
    rewrite nth_error_app1 by lia. auto.
  - subst H2. apply nth_error_update'. rewrite length_app. cbn. lia.
  - split; [lia|]. intros x Hx Hne. subst H2.
    rewrite nth_error_update_other by congruence. now apply nth_error_app1.
Qed.

(** What a container case concludes from the treatment of its children. *)
Lemma container_done seen f H parent c k path l e0 c0 seen' f' H' new :
  Inv seen f H -> List.length h <= parent < List.length H ->
  nth_error h l = Some c0 ->
  let o := List.length H in
  let H2 := update (H ++ [e0]) parent (cell_add c k (VRef o)) in
  let f1 := fun x => if Nat.eqb x l then o else f x in
  List.length H2 = S o ->
  nth_error H2 parent = Some (cell_add c k (VRef o)) ->
  grows_around parent H H2 ->
  (forall l' p, In (VRef l', p) seen -> f1 l' = f l') ->
  seen' = (seen ++ [(VRef l, path)]) ++ new ->
  all_copied H2 new seen' f' H' ->
  (forall l' p, In (VRef l', p) (seen ++ [(VRef l, path)]) -> f' l' = f1 l') ->
  Inv seen' f' H' -> grows_around o H2 H' ->
  nth_error H' o = Some (rename_cell f' c0) ->
  (forall l', In (VRef l') (children c0) -> exists p, In (VRef l', p) seen') ->
  (exists new', seen' = seen ++ new' /\ all_copied H new' seen' f' H') /\
  (forall l' p, In (VRef l', p) seen -> f' l' = f l') /\
  grows_around parent H H' /\
  nth_error H' parent = Some (cell_add c k (rename f' (VRef l))) /\
  exists p, In (VRef l, p) seen'.
Proof.
  intros Hinv Hp Hc0 o H2 f1 Hlen Hpar Hg Hag1 -> Hnew Hag' Hinv' Hg' Ho Hch.
  assert (Hl : In (VRef l, path) (seen ++ [(VRef l, path)]))
    by (apply in_or_app; right; now left).
  assert (Hfl : f' l = o).
  { rewrite (Hag' l path Hl). subst f1. cbn. now rewrite Nat.eqb_refl. }
  split; [|split; [|split; [|split]]].
  - exists ((VRef l, path) :: new). split; [now rewrite <- app_assoc|].
    intros l' p [[= -> ->]|Hin].
    + split; [lia|]. exists c0. rewrite Hfl. auto.
    + destruct (Hnew l' p Hin) as [Hge Hcp]. split; [|assumption].
      destruct Hg. lia.
  - intros l' p Hin. rewrite (Hag' l' p) by (apply in_or_app; now left). eauto.
  - destruct Hg as [L1 G1], Hg' as [L2 G2]. split; [lia|].
    intros x Hx Hne. rewrite G2 by lia. now apply G1.
  - cbn [rename]. rewrite Hfl. destruct Hg' as [L2 G2]. rewrite G2 by lia. assumption.
  - exists path. apply in_or_app. now left.
Qed.

(** Every call of [find] in [freeze], at any depth the fuel allows, and
    the call of [find] in [liven] on its result. *)
Lemma find_spec_all n : find_spec n.
Proof.
  induction n as [|m IH]; intros v path seen s f H s2 parent k kw pp c
    Hv Hfuel Hinv Hbase Hp Hc Hfresh Hkw Hfull Hpp; [lia|].
  destruct v as [p|l|fn|code msg]; cbn in Hv; try contradiction.
  - (* a primitive passes through *)
    exists (WPrim p), seen, f, (update H parent (cell_add c k (VPrim p))).
    split; [reflexivity|]. split.
    { cbn [lfind]. rewrite Hkw. now apply set_prop_fresh. }
    split; [exists []; rewrite app_nil_r; split; [reflexivity|apply all_copied_nil]|].
    split; [auto|]. split.
    { eapply Inv_le; [exact Hinv| |rewrite update_length; lia].
      eapply heap_le_update; [exact Hc|]. now apply cell_le_add. }
    split; [apply grows_update|]. split; [|exact I].
    apply nth_error_update'. lia.
  - destruct (D_closed l Hv) as (c0 & Hc0 & [Hplain Hkeys] & Hch).
    assert (Hl : l < List.length h) by (apply nth_error_Some; congruence).
    cbn [ffind]. unfold bind at 1, gets at 1. cbn [fst snd].
    destruct (indexOf (VRef l) seen) as [p0|] eqn:E.
    + (* seen before: a back-reference *)
      pose proof (indexOf_In _ _ _ E) as Hin.
      exists (backref p0), seen, f, (update H parent (cell_add c k (VRef (f l)))).
      split; [reflexivity|]. split.
      { unfold backref. cbn [lfind assoc].
        change (String.eqb "hasOwnProperty" "$") with false.
        change (String.eqb "$" "$") with true. cbv iota.
        unfold bind, gets. cbn [fst snd].
        rewrite (root_get H p0 _ (inv_path _ _ _ Hinv l p0 Hin)).
        rewrite Hkw. now apply set_prop_fresh. }
      split; [exists []; rewrite app_nil_r; split; [reflexivity|apply all_copied_nil]|].
      split; [auto|]. split.
      { eapply Inv_le; [exact Hinv| |rewrite update_length; lia].
        eapply heap_le_update; [exact Hc|]. now apply cell_le_add. }
      split; [apply grows_update|]. split; [|eauto].
      apply nth_error_update'. lia.
    + (* seen for the first time *)
      unfold bind at 1, modify at 1. cbn [fst snd]. rewrite Hc0.
      assert (Hfuel1 : unseen h (seen ++ [(VRef l, path)]) < m).
      { pose proof (unseen_new h seen l path E Hl). lia. }
      destruct c0 as [xs|kvs].
      * (* a sequence *)
        destruct (link_spec seen f H parent c k pp path l (CArr [])
                    Hinv Hbase Hp Hc Hfresh Hfull Hpp E Hv)
          as (Hinv1 & Hbase1 & Hlen1 & Ho1 & Hpar1 & Hpath1 & Hg1 & Hag1).
        set (o := List.length H) in *.
        set (H2 := update (H ++ [CArr []]) parent (cell_add c k (VRef o))) in *.
        set (f1 := fun x => if Nat.eqb x l then o else f x) in *.
        destruct (arr_spec m IH xs 0 [] (seen ++ [(VRef l, path)]) s f1 H2 s2 path o)
          as (ws & seen' & f' & H' & Hf & Hlv & (new & -> & Hnew) & Hag' & Hinv' & Hg' & Hc' & Hin');
          auto.
        { apply Forall_forall. intros x Hx. rewrite Forall_forall in Hplain.
          specialize (Hplain x Hx). destruct x; cbn in *; auto. }
        { destruct Hbase. lia. }
        cbn [app] in Hc'.
        destruct (container_done seen f H parent c k path l (CArr []) (CArr xs) _ f' H' new
                    Hinv Hp Hc0 Hlen1 Hpar1 Hg1 Hag1 eq_refl Hnew Hag' Hinv' Hg' Hc' Hin')
          as (Q1 & Q2 & Q3 & Q4 & Q5).
        exists (WArr ws), ((seen ++ [(VRef l, path)]) ++ new), f', H'.
        split.
        { unfold bind. unfold registry in *. rewrite Hf. reflexivity. }
        split.
        { cbn [lfind]. rewrite Hkw. unfold bind at 1, alloc at 1. cbn [fst snd].
          unfold bind at 1.
          rewrite (set_prop_fresh (H ++ [CArr []]) parent c k (VRef (List.length H)) s2)
            by (rewrite ?nth_error_app1 by lia; assumption).
          exact Hlv. }
        auto 10.
      * (* a mapping *)
        destruct (link_spec seen f H parent c k pp path l (CObj [])
                    Hinv Hbase Hp Hc Hfresh Hfull Hpp E Hv)
          as (Hinv1 & Hbase1 & Hlen1 & Ho1 & Hpar1 & Hpath1 & Hg1 & Hag1).
        set (o := List.length H) in *.
        set (H2 := update (H ++ [CObj []]) parent (cell_add c k (VRef o))) in *.
        set (f1 := fun x => if Nat.eqb x l then o else f x) in *.
        assert (Hvals : Forall value_ok (List.map snd kvs)).
        { apply Forall_forall. intros x Hx. cbn in Hplain. rewrite Forall_forall in Hplain.
          specialize (Hplain x Hx). destruct x; cbn in *; auto. }
        pose proof (D_keys l _ Hv Hc0) as Hfree. cbn in Hfree.
        destruct (obj_spec m IH kvs [] [] [] (seen ++ [(VRef l, path)]) s f1 H2 s2 path o)
          as (ws & seen' & f' & H' & Hf & Hesc & Hlv & (new & -> & Hnew) & Hag' & Hinv' & Hg' & Hc' & Hin');
          auto.
        { reflexivity. }
        { destruct Hbase. lia. }
        cbn [app] in Hc', Hf.
        destruct (container_done seen f H parent c k path l (CObj []) (CObj kvs) _ f' H' new
                    Hinv Hp Hc0 Hlen1 Hpar1 Hg1 Hag1 eq_refl Hnew Hag' Hinv' Hg' Hc' Hin')
          as (Q1 & Q2 & Q3 & Q4 & Q5).
        exists (WObj ws), ((seen ++ [(VRef l, path)]) ++ new), f', H'.
        split.
        { assert (Hmap : match assoc "map" kvs with
                         | Some (VFun _) => true
                         | _ => false
                         end = false).
          { destruct (assoc "map" kvs) as [[| |g|]|] eqn:Em; auto.
            apply assoc_In in Em. cbn in Hplain. rewrite Forall_forall in Hplain.
            destruct (Hplain _ Em). }
          destruct (assoc "map" kvs) as [[| |g|]|]; try discriminate;
            unfold bind; unfold registry in *; rewrite Hf; reflexivity. }
        split.
        { cbn [lfind]. rewrite (assoc_escaped_shadow _ _ Hesc Hfree).
          rewrite (assoc_escaped_dollar _ _ Hesc).
          rewrite Hkw. unfold bind at 1, alloc at 1. cbn [fst snd].
          unfold bind at 1.
          rewrite (set_prop_fresh (H ++ [CObj []]) parent c k (VRef (List.length H)) s2)
            by (rewrite ?nth_error_app1 by lia; assumption).
          exact Hlv. }
        auto 10.
Qed.

End Trip.

(** No node of [v] is a mapping with one of the two reserved keys. *)
Definition usable_keys (h : heap) (v : value) : Prop :=
  forall l c, reach h v l -> nth_error h l = Some c -> free_keys c.

(** X1: [freeze] then [liven]: for a structured value [v] without procedure
    references whose mappings use neither [hasOwnProperty] nor [__proto__]
    as a key, [freeze(v)] returns a message without calling
    [storeFunction] (with any fuel above the number of heap cells), and
    [liven] of that message returns a copy of [v] without calling
    [getFunction]: the result is the image of [v] under a map [phi] of
    nodes; the copy of each node of [v] is a cell made by [liven] whose
    properties are the images of the node's properties, in the same order
    under the same keys; two nodes have the same copy only if they are the
    same node (so shared nodes stay shared, distinct ones distinct, and
    cycles close on the copy); the cells that were in the heap are not
    touched. *)
Theorem liven_freeze_roundtrip {St : Type}
    (storeFunction : nat -> M St wire) (getFunction : wire -> M St value)
    (h : heap) (v : value) (fuel : nat) (s s2 : St) :
  structured h v -> usable_keys h v -> List.length h < fuel ->
  exists w H' phi,
    freeze storeFunction fuel h v s = Ret w s /\
    liven getFunction w (h, s2) = Ret (rename phi v) (H', s2) /\
    (forall l, l < List.length h -> nth_error H' l = nth_error h l) /\
    (forall l c, reach h v l -> nth_error h l = Some c ->
       List.length h < phi l /\ nth_error H' (phi l) = Some (rename_cell phi c)) /\
    (forall l1 l2, reach h v l1 -> reach h v l2 -> phi l1 = phi l2 -> l1 = l2).
Proof.
  intros [Hplain Hcells] Hkeys Hfuel.
  set (obj := List.length h).
  set (H0 := h ++ [CObj []]).
  assert (Hclosed : forall l, reach h v l ->
            exists c, nth_error h l = Some c /\ plain_cell c /\
                      forall l', In (VRef l') (children c) -> reach h v l').
  { intros l Hl. destruct (Hcells l Hl) as (c & Hc & Hp). exists c.
    split; [assumption|]. split; [assumption|].
    intros l' Hin. eapply reach_child; eauto. }
  assert (Hv : value_ok (reach h v) v).
  { destruct v; cbn in *; auto. now apply reach_root. }
  destruct (find_spec_all storeFunction getFunction h (reach h v) Hclosed Hkeys obj fuel
              v [] [] s (fun _ => 0) H0 s2 obj (KStr "root") (KStr "root") [] (CObj []))
    as (w & seen' & phi & H' & Hf & Hl & (new & Hnew & Hcopied) & _ & Hinv & Hg & Hroot & Hin);
    auto.
  - pose proof (unseen_le h []). lia.
  - split; intros; contradiction.
  - subst H0. split; [rewrite length_app; lia|].
    intros l Hl. now apply nth_error_app1.
  - subst H0 obj. rewrite length_app. cbn. lia.
  - subst H0 obj. rewrite nth_error_app2, Nat.sub_diag by lia. reflexivity.
  - cbn. auto.
  - reflexivity.
  - cbn [app] in Hnew. subst new.
    assert (Hall : forall l, reach h v l -> exists p, In (VRef l, p) seen').
    { induction 1 as [l ->|l c l' _ IH Hc Hch]; [exact Hin|].
      destruct IH as [p Hp]. destruct (Hcopied l p Hp) as (_ & c0 & Hc0 & _ & Hsub).
      rewrite Hc in Hc0. injection Hc0 as <-. auto. }
    exists w, H', phi.
    split; [unfold freeze; unfold registry in *; now rewrite Hf|]. split.
    { unfold liven, bind, alloc, gets. cbn [fst snd]. fold obj. fold H0. rewrite Hl.
      cbn [fst snd]. unfold root_of. rewrite Hroot. cbn [cell_add assoc].
      change (String.eqb "root" "root") with true. reflexivity. }
    split.
    { intros l Hlt. destruct Hg as [_ G]. rewrite G.
      - subst H0. now apply nth_error_app1.
      - subst H0. rewrite length_app. lia.
      - subst obj. lia. }
    split.
    { intros l c Hr Hc. destruct (Hall l Hr) as [p Hp].
      destruct (Hcopied l p Hp) as (Hge & c0 & Hc0 & Hcopy & _).
      rewrite Hc in Hc0. injection Hc0 as <-. split; [|assumption].
      subst H0. rewrite length_app in Hge. cbn in Hge. lia. }
    intros l1 l2 Hr1 Hr2 E.
    destruct (Hall l1 Hr1) as [p1 Hp1]. destruct (Hall l2 Hr2) as [p2 Hp2].
    eapply inv_inj; eauto.
Qed.

(** A value with a cycle, a node shared by two parents and a key that
    starts with [$]:
    [{ self: <root>, "$a": [1, <b>], b: <b> }] with [b = []]. *)
Definition h_example : heap :=
  [ CObj [("self", VRef 0); ("$a", VRef 1); ("b", VRef 2)];
    CArr [VPrim (PNum 1); VRef 2];
    CArr [] ].

Definition no_store : nat -> M unit wire := fun _ => throw (Error "storeFunction").
Definition no_get : wire -> M unit value := fun _ => throw (Error "getFunction").

Lemma reach_example l : reach h_example (VRef 0) l -> l < 3.
Proof.
  induction 1 as [l [= <-]|l c l' _ IH Hc Hch]; [lia|].
  destruct l as [|[|[|l]]]; try lia; cbn in Hc; injection Hc as <-; cbn in Hch;
    repeat match goal with
           | H : _ \/ _ |- _ => destruct H
           | H : VRef _ = VRef _ |- _ => injection H as <-
           | H : False |- _ => contradiction
           end; try discriminate; lia.
Qed.

Lemma liven_freeze_roundtrip_witness :
  exists w H' phi,
    freeze no_store 4 h_example (VRef 0) tt = Ret w tt /\
    liven no_get w (h_example, tt) = Ret (rename phi (VRef 0)) (H', tt) /\
    (forall l, l < List.length h_example -> nth_error H' l = nth_error h_example l) /\
    (forall l c, reach h_example (VRef 0) l -> nth_error h_example l = Some c ->
       List.length h_example < phi l /\ nth_error H' (phi l) = Some (rename_cell phi c)) /\
    (forall l1 l2, reach h_example (VRef 0) l1 -> reach h_example (VRef 0) l2 ->
       phi l1 = phi l2 -> l1 = l2).
Proof.
  apply (liven_freeze_roundtrip no_store no_get h_example (VRef 0) 4 tt tt).
  - split; [exact I|]. intros l Hl. apply reach_example in Hl.
    destruct l as [|[|[|l]]]; try lia; eexists; (split; [reflexivity|]);
      (split; [repeat constructor|]); cbn; try exact I.
    repeat constructor; cbn; intuition discriminate.
  - intros l c Hl Hc. apply reach_example in Hl.
    destruct l as [|[|[|l]]]; try lia; cbn in Hc; injection Hc as <-; cbn; auto.
  - cbn. lia.
Defined.

End Roundtrip.

(** ** More on the Framer: termination, chunking, the header *)
Module FramerLaws.
Import Framer FramerFacts.

(** A stream of two frames, the second one empty, cut in the middle of a
    header and in the middle of a payload. *)
Lemma deFramer_chunked_witness :
  feed [[x00; x00]; [x00; x02; x61]; [x62; x00; x00; x00]; [x00]] init []
  = Done (resting [[x61; x62]; []]) (delivered [[x61; x62]; []]).
Proof.
  apply (deFramer_chunked [[x61; x62]; []]
           [[x00; x00]; [x00; x02; x61]; [x62; x00; x00; x00]; [x00]]).
  - repeat constructor.
  - reflexivity.
Defined.

(** X4: [parse] returns on every chunk: within [2 * chunk.length + 1] turns of
    its loop it has consumed the chunk, or [new Buffer] was asked for a
    negative size; when it returns normally the variables are consistent
    again (in state 4 the buffer has [length] bytes and [offset] is inside
    it). *)
Theorem parse_terminates (chunk : list byte) (s : deframer) :
  wf s ->
  parse chunk s = Failed \/
  exists s' out, parse chunk s = Done s' out /\ wf s'.
Proof.
  intros Hwf. pose proof (parse_total chunk s Hwf) as Ht.
  destruct (parse chunk s) as [s' out| |] eqn:E.
  - right. exists s', out. split; [reflexivity|]. eapply parse_wf; eauto.
  - now left.
  - congruence.
Qed.

Lemma parse_terminates_witness :
  parse [x00; x00; x00; x02; x61] init = Failed \/
  exists s' out, parse [x00; x00; x00; x02; x61] init = Done s' out /\ wf s'.
Proof.
  apply (parse_terminates [x00; x00; x00; x02; x61] init).
  unfold wf, init. cbn. discriminate.
Defined.

(** X3: What the parser hands to [onFrame], and the state it is left in,
    depend on the bytes it was fed and not on how they were cut into
    chunks. *)
Theorem deFramer_chunking (chunks1 chunks2 : list (list byte)) (s : deframer) :
  wf s -> List.concat chunks1 = List.concat chunks2 ->
  feed chunks1 s [] = feed chunks2 s [].
Proof.
  intros Hwf Hc. rewrite !feed_bytewise by assumption. now rewrite Hc.
Qed.

Lemma deFramer_chunking_witness :
  feed [[x00; x00]; [x00; x02; x61]; [x62]] init []
  = feed [[x00]; []; [x00; x00; x02; x61; x62]] init [].
Proof.
  apply (deFramer_chunking [[x00; x00]; [x00; x02; x61]; [x62]]
           [[x00]; []; [x00; x00; x02; x61; x62]] init).
  - unfold wf, init. cbn. discriminate.
  - reflexivity.
Defined.

(** *** The header, for any four bytes *)

(** The big-endian number the four bytes write. *)
Definition be32 (b0 b1 b2 b3 : byte) : Z :=
  byte_val b0 * 2^24 + byte_val b1 * 2^16 + byte_val b2 * 2^8 + byte_val b3.

(** [length] after the four header bytes: the number read as a signed
    32-bit integer. *)
Lemma header_bits (b0 b1 b2 b3 : byte) :
  Int32.or (Int32.or (Int32.or (Int32.or 0 (Int32.shl (byte_val b0) 24))
                        (Int32.shl (byte_val b1) 16))
              (Int32.shl (byte_val b2) 8)) (byte_val b3)
  = Int32.wrap (be32 b0 b1 b2 b3).
Proof.
  unfold be32.
  pose proof (byte_val_range b0) as H0. pose proof (byte_val_range b1) as H1.
  pose proof (byte_val_range b2) as H2. pose proof (byte_val_range b3) as H3.
  set (c0 := byte_val b0) in *. set (c1 := byte_val b1) in *.
  set (c2 := byte_val b2) in *. set (c3 := byte_val b3) in *.
  unfold Int32.or, Int32.shl.
  rewrite !Z.shiftl_mul_pow2 by lia.
  change (2^24) with 16777216. change (2^16) with 65536. change (2^8) with 256.
  assert (W : forall x, - 2147483648 <= x < 2147483648 -> Int32.wrap x = x).
  { intros x Hx. apply Int32.wrap_id. unfold Int32.in_range.
    change (2^31) with 2147483648. lia. }
  rewrite !Int32.wrap_wrap.
  rewrite (W 0), (W c0), (W c1), (W c2), (W c3) by lia.
  rewrite (W (c1 * 65536)), (W (c2 * 256)) by lia.
  rewrite Z.lor_0_l, Int32.wrap_wrap.
  set (a := Int32.wrap (c0 * 16777216)).
  assert (Ha : a = c0 * 16777216 \/ a = c0 * 16777216 - 4294967296).
  { subst a. unfold Int32.wrap. change (2^31) with 2147483648.
    change (2^32) with 4294967296.
    destruct (Z.ltb_spec c0 128).
    - left. rewrite Z.mod_small by lia. lia.
    - right. replace (c0 * 16777216 + 2147483648)
        with (c0 * 16777216 - 2147483648 + 1 * 4294967296) by lia.
      rewrite Z.mod_add by lia. rewrite Z.mod_small by lia. lia. }
  assert (Ra : - 2147483648 <= a < 2147483648).
  { pose proof (Int32.wrap_range (c0 * 16777216)) as R. unfold Int32.in_range in R.
    change (2^31) with 2147483648 in R. exact R. }
  assert (Ma : exists q, a = q * 16777216).
  { destruct Ha as [->| ->]; [exists c0; lia|exists (c0 - 256); lia]. }
  destruct Ma as [q Hq].
  rewrite (lor_disjoint a (c1 * 65536) 24);
    [|lia|change (2^24) with 16777216; lia
     |change (2^24) with 16777216; rewrite Hq; apply Z.mod_mul; lia].
  rewrite (W (a + _)) by lia.
  rewrite (lor_disjoint _ (c2 * 256) 16); [|lia|change (2^16) with 65536; lia|].
  2:{ change (2^16) with 65536. rewrite Hq.
      replace (q * 16777216 + c1 * 65536) with ((q * 256 + c1) * 65536) by lia.
      apply Z.mod_mul; lia. }
  rewrite (W (_ + _)) by lia.
  rewrite (lor_disjoint _ c3 8); [|lia|change (2^8) with 256; lia|].
  2:{ change (2^8) with 256. rewrite Hq.
      replace (q * 16777216 + c1 * 65536 + c2 * 256)
        with ((q * 65536 + c1 * 256 + c2) * 256) by lia.
      apply Z.mod_mul; lia. }
  rewrite (W (_ + _)) by lia.
  destruct Ha as [Ea|Ea]; rewrite Ea.
  - symmetry. apply W. lia.
  - unfold Int32.wrap. change (2^31) with 2147483648. change (2^32) with 4294967296.
    replace (c0 * 16777216 + c1 * 65536 + c2 * 256 + c3 + 2147483648)
      with (c0 * 16777216 + c1 * 65536 + c2 * 256 + c3 - 2147483648 + 1 * 4294967296)
      by lia.
    rewrite Z.mod_add by lia. rewrite Z.mod_small by lia. lia.
Qed.

(** X5: The four bytes of a header, read by an idle parser: below 2^31 the
    big-endian number becomes [length] and a buffer of that size is
    allocated; from 2^31 on (first byte 0x80 or more) [length] is negative
    and the allocation is refused. *)
Theorem header_parsed (b0 b1 b2 b3 : byte) :
  parse [b0; b1; b2; b3] init =
  if be32 b0 b1 b2 b3 <? 2^31
  then Done (mkDeframer (repeat x00 (Z.to_nat (be32 b0 b1 b2 b3))) 4 (be32 b0 b1 b2 b3) 0) []
  else Failed.
Proof.
  rewrite parse_bytewise by apply wf_idle.
  change init with idle.
  rewrite bytewise_cons by apply wf_idle.
  unfold step1 at 1, idle; fields; cbn [Z.eqb Pos.eqb].
  rewrite bytewise_cons by (intros [=]).
  unfold step1 at 1; fields; cbn [Z.eqb Pos.eqb].
  rewrite bytewise_cons by (intros [=]).
  unfold step1 at 1; fields; cbn [Z.eqb Pos.eqb].
  rewrite bytewise_cons by (intros [=]).
  unfold step1 at 1; fields; cbn [Z.eqb Pos.eqb].
  rewrite header_bits.
  pose proof (byte_val_range b0) as H0. pose proof (byte_val_range b1) as H1.
  pose proof (byte_val_range b2) as H2. pose proof (byte_val_range b3) as H3.
  assert (Hn : 0 <= be32 b0 b1 b2 b3 < 2^32).
  { unfold be32. change (2^24) with 16777216. change (2^16) with 65536.
    change (2^8) with 256. change (2^32) with 4294967296. lia. }
  unfold new_Buffer.
  destruct (Z.ltb_spec (be32 b0 b1 b2 b3) (2^31)) as [Lt|Ge].
  - rewrite Int32.wrap_id by (unfold Int32.in_range; lia).
    destruct (Z.ltb_spec (be32 b0 b1 b2 b3) 0); [lia|]. reflexivity.
  - assert (Hneg : Int32.wrap (be32 b0 b1 b2 b3) < 0).
    { unfold Int32.wrap. change (2^31) with 2147483648 in *.
      change (2^32) with 4294967296 in *.
      replace (be32 b0 b1 b2 b3 + 2147483648)
        with (be32 b0 b1 b2 b3 - 2147483648 + 1 * 4294967296) by lia.
      rewrite Z.mod_add by lia. rewrite Z.mod_small by lia. lia. }
    destruct (Z.ltb_spec (Int32.wrap (be32 b0 b1 b2 b3)) 0); [reflexivity|lia].
Qed.

End FramerLaws.

(** ** The Transport as a channel: [send] on one side, "message" events
    on the other *)
Module TransportLaws.
Import Js Transport TransportFacts.
Open Scope string_scope.
Open Scope list_scope.

(** [Transport.prototype.send] (lines 142-153), given the serialized
    message: the two buffers it writes to [output], the 4-byte header and
    then the frame. *)
Definition send (frame : list byte) : list (list byte) :=
  [Framer.writeUInt32BE (Z.of_nat (List.length frame)); frame].

(** The chunks as "data" events of the input stream. *)
Definition data_events (chunks : list (list byte)) : list (endpoint * stream_event) :=
  List.map (fun c => (Input, Data c)) chunks.

Lemma send_encode frame : List.concat (send frame) = Framer.encode frame.
Proof. unfold send, Framer.encode. cbn. now rewrite app_nil_r. Qed.

Lemma sends_encode_all frames :
  List.concat (List.concat (List.map send frames)) = Framer.encode_all frames.
Proof.
  unfold Framer.encode_all. induction frames as [|f frames IH]; [reflexivity|].
  cbn [List.map List.concat]. rewrite concat_app, IH, send_encode. reflexivity.
Qed.

Section WithSerializer.
Variable decode : list byte -> value + wire.

(** What [onFrame] emits for a frame. *)
Definition event_of (frame : list byte) : emitted :=
  match decode frame with
  | inr message => Message message
  | inl err => ErrorEvent err
  end.

Definition received (p : Framer.deframer) (frames : list (list byte)) (t : transport)
    : transport :=
  mkTransport (same t) (input t) (output t) p (events t ++ List.map event_of frames).

Lemma fold_onFrame frames : forall t,
  fold_left (onFrame decode) frames t = received (parser t) frames t.
Proof.
  induction frames as [|f frames IH]; intros t; cbn [fold_left List.map].
  - unfold received. rewrite app_nil_r. now destruct t.
  - rewrite IH. unfold received. cbn [List.map]. unfold onFrame, emit.
    unfold event_of at 2.
    destruct (decode f); cbn; rewrite <- app_assoc; reflexivity.
Qed.

Lemma attached_received p frames t : attached t -> attached (received p frames t).
Proof. intros H. exact H. Qed.

Lemma deliver_data chunk t p frames :
  attached t -> Framer.parse chunk (parser t) = Framer.Done p frames ->
  deliver decode Input (Data chunk) t = Some (received p frames t).
Proof.
  intros [Hi _] Hp. unfold deliver. cbn [endpoint_stream name_of]. rewrite Hi.
  assert (F : filter (fun nh : string * handler => String.eqb (fst nh) "data")
                ([("data", onData); ("end", onDisconnect); ("timeout", onDisconnect);
                  ("close", onDisconnect); ("error", onError)]
                 ++ (if same t then [("drain", onDrain)] else []))
              = [("data", onData)]).
  { destruct (same t); reflexivity. }
  rewrite F. cbn [run_all run]. rewrite Hp, fold_onFrame. reflexivity.
Qed.

Lemma deliver_chunks chunks : forall t p frames,
  attached t -> Framer.feed chunks (parser t) [] = Framer.Done p frames ->
  deliver_all decode (data_events chunks) t = Some (received p frames t).
Proof.
  induction chunks as [|c chunks IH]; intros t p frames Ha; cbn [Framer.feed data_events List.map].
  - intros [= <- <-]. cbn. unfold received. cbn. rewrite app_nil_r. now destruct t.
  - destruct (Framer.parse c (parser t)) as [p1 fr1| |] eqn:E; try discriminate.
    rewrite FramerFacts.feed_out. cbn [app].
    destruct (Framer.feed chunks p1 []) as [p2 fr2| |] eqn:F; try discriminate.
    intros [= <- <-]. cbn [deliver_all]. rewrite (deliver_data c t p1 fr1 Ha E).
    fold (data_events chunks).
    rewrite (IH (received p1 fr1 t) p2 fr2 (attached_received p1 fr1 t Ha) F).
    unfold received. cbn. now rewrite map_app, app_assoc.
Qed.

(** X6: The receiving side.  The input stream carries the encodings of the
    frames [bs], cut into chunks in any way; a Transport whose listeners
    are in place and whose parser is idle emits, for each frame in order,
    a "message" event with the decoded message, or an "error" event with
    the exception of [msgpack.decode], and goes on with the next frame.
    (An empty last frame is still pending when the chunks end.) *)
Theorem transport_receives (bs : list (list byte)) (chunks : list (list byte))
    (t : transport) :
  attached t -> parser t = Framer.init ->
  Forall (fun b : list byte => Z.of_nat (List.length b) < 2^31) bs ->
  List.concat chunks = Framer.encode_all bs ->
  exists t',
    deliver_all decode (data_events chunks) t = Some t' /\
    events t' = events t ++ List.map event_of (FramerFacts.delivered bs) /\
    parser t' = FramerFacts.resting bs /\ attached t'.
Proof.
  intros Ha Hp Hall Hc.
  assert (F : Framer.feed chunks (parser t) []
              = Framer.Done (FramerFacts.resting bs) (FramerFacts.delivered bs)).
  { rewrite Hp, FramerFacts.feed_bytewise by apply FramerFacts.wf_idle.
    rewrite Hc. apply (FramerFacts.bytewise_encode_all bs [] Hall). }
  exists (received (FramerFacts.resting bs) (FramerFacts.delivered bs) t).
  split; [now apply deliver_chunks|]. split; [reflexivity|]. split; [reflexivity|].
  now apply attached_received.
Qed.

(** X7: The channel.  One side calls [send] for the messages [ms] in order;
    the bytes written reach the other side's input stream cut into chunks
    in any way.  When [msgpack.decode] inverts [msgpack.encode] on these
    messages, and each encoding has at least one byte and fewer than 2^31,
    the receiving Transport emits exactly one "message" event per message,
    in the order sent, and nothing else; its parser is idle again. *)
Theorem transport_channel (encode : wire -> list byte) (ms : list wire)
    (chunks : list (list byte)) (t : transport) :
  attached t -> parser t = Framer.init ->
  Forall (fun m => decode (encode m) = inr m /\ encode m <> [] /\
                   Z.of_nat (List.length (encode m)) < 2^31) ms ->
  List.concat chunks = List.concat (List.concat (List.map send (List.map encode ms))) ->
  exists t',
    deliver_all decode (data_events chunks) t = Some t' /\
    events t' = events t ++ List.map Message ms /\
    parser t' = Framer.init /\ attached t'.
Proof.
  intros Ha Hp Hall Hc. rewrite sends_encode_all in Hc.
  assert (Hlen : Forall (fun b : list byte => Z.of_nat (List.length b) < 2^31)
                   (List.map encode ms)).
  { apply Forall_map. eapply Forall_impl; [|exact Hall]. cbn. tauto. }
  assert (Hd : FramerFacts.delivered (List.map encode ms) = List.map encode ms /\
               FramerFacts.resting (List.map encode ms) = FramerFacts.idle).
  { clear - Hall. induction Hall as [|m ms [_ [Hne _]] _ IH]; [auto|].
    cbn [List.map FramerFacts.delivered FramerFacts.resting].
    destruct IH as [-> ->].
    destruct (List.map encode ms), (encode m); try congruence; auto. }
  destruct Hd as [Hdel Hrest].
  assert (F : Framer.feed chunks (parser t) []
              = Framer.Done Framer.init (List.map encode ms)).
  { rewrite Hp, FramerFacts.feed_bytewise by apply FramerFacts.wf_idle.
    rewrite Hc. change Framer.init with FramerFacts.idle.
    rewrite (FramerFacts.bytewise_encode_all (List.map encode ms) [] Hlen).
    now rewrite Hdel, Hrest. }
  exists (received Framer.init (List.map encode ms) t).
  split; [now apply deliver_chunks|]. split; [|split; [reflexivity|]].
  - cbn. f_equal. rewrite map_map. apply map_ext_Forall.
    eapply Forall_impl; [|exact Hall]. intros m [Hm _]. unfold event_of. now rewrite Hm.
  - now apply attached_received.
Qed.

End WithSerializer.

(** A serializer for the examples: [null] is the byte [c0], [true] the
    byte [c3]. *)
Definition encode_example (m : wire) : list byte :=
  match m with
  | WPrim (PBool true) => [xc3]
  | _ => [xc0]
  end.

Definition decode_example (frame : list byte) : value + wire :=
  match frame with
  | [xc0] => inr (WPrim PNull)
  | [xc3] => inr (WPrim (PBool true))
  | _ => inl (VError None "decode")
  end.

Lemma transport_receives_witness :
  exists t',
    deliver_all decode_example
      (data_events [[x00; x00]; [x00; x01; xc0; x00; x00; x00]; [x02; xc0; xc0; x00; x00; x00; x01];
                    [xc3]]) (new true)
      = Some t' /\
    events t' = events (new true)
                ++ List.map (event_of decode_example)
                     (FramerFacts.delivered [[xc0]; [xc0; xc0]; [xc3]]) /\
    parser t' = FramerFacts.resting [[xc0]; [xc0; xc0]; [xc3]] /\ attached t'.
Proof.
  apply (transport_receives decode_example [[xc0]; [xc0; xc0]; [xc3]]
           [[x00; x00]; [x00; x01; xc0; x00; x00; x00]; [x02; xc0; xc0; x00; x00; x00; x01];
            [xc3]] (new true)).
  - apply new_attached.
  - reflexivity.
  - repeat constructor.
  - reflexivity.
Defined.

Lemma transport_channel_witness :
  exists t',
    deliver_all decode_example
      (data_events [[x00; x00; x00]; [x01; xc0; x00]; [x00; x00; x01; xc3]]) (new false)
      = Some t' /\
    events t' = events (new false) ++ List.map Message [WPrim PNull; WPrim (PBool true)] /\
    parser t' = Framer.init /\ attached t'.
Proof.
  apply (transport_channel decode_example encode_example
           [WPrim PNull; WPrim (PBool true)]
           [[x00; x00; x00]; [x01; xc0; x00]; [x00; x00; x01; xc3]] (new false)).
  - apply new_attached.
  - reflexivity.
  - repeat constructor; discriminate.
  - reflexivity.
Defined.

End TransportLaws.

(** ** More on the Remote *)
Module RemoteLaws.
Import Js Marshal MarshalFrame Remote RemoteFacts.
Open Scope string_scope.
Open Scope list_scope.

Lemma length_snoc {A} (l : list A) x : List.length (l ++ [x]) = S (List.length l).
Proof. rewrite length_app. cbn. lia. Qed.

Lemma update_last {A} (l : list A) x y : update (l ++ [x]) (List.length l) y = l ++ [y].
Proof. induction l as [|z l IH]; cbn; [reflexivity|now rewrite IH]. Qed.

Lemma remote_ext (r r' : remote) :
  funs r = funs r' -> tables r = tables r' -> agent_api r = agent_api r' ->
  api r = api r' -> transport r = transport r' -> callbacks r = callbacks r' ->
  nextKey r = nextKey r' -> onReady r = onReady r' -> trace r = trace r' -> r = r'.
Proof. destruct r, r'. cbn. congruence. Qed.

Lemma nth_error_last {A} (l : list A) x : nth_error (l ++ [x]) (List.length l) = Some x.
Proof. rewrite nth_error_app2, Nat.sub_diag by lia. reflexivity. Qed.

(** *** [freeze] on the message of a call: [[name, args...]] *)
Section FreezeCall.
Context {St : Type}.
Variable storeFunction : nat -> M St wire.

(** A function met for the first time (lines 393-400). *)
Lemma ffind_fun n h f path (seen : registry) s o s' :
  indexOf (VFun f) seen = None -> storeFunction f s = Ret o s' ->
  ffind storeFunction (S n) h (VFun f) path (seen, s)
  = Ret (if truthy_wire o then WObj [("$", o)] else WObj [])
        (seen ++ [(VFun f, path)], s').
Proof.
  intros Hi Hs. cbn [ffind]. unfold bind, gets, modify, on_snd. cbn [fst snd].
  rewrite Hi. cbn [fst snd]. rewrite Hs. destruct (truthy_wire o); reflexivity.
Qed.

(** An array met for the first time (lines 386-409). *)
Lemma ffind_arr n h l xs path (seen : registry) s :
  indexOf (VRef l) seen = None -> nth_error h l = Some (CArr xs) ->
  ffind storeFunction (S n) h (VRef l) path (seen, s)
  = match map_arr (fun sub key => ffind storeFunction n h sub (path ++ [key])) xs 0%nat
            (seen ++ [(VRef l, path)], s) with
    | Ret ws st => Ret (WArr ws) st
    | Throw e st => Throw e st
    | NoFuel => NoFuel
    end.
Proof.
  intros Hi Hc. cbn [ffind]. unfold bind at 1, gets at 1. cbn [fst snd]. rewrite Hi.
  unfold bind at 1, modify at 1. cbn [fst snd]. rewrite Hc. reflexivity.
Qed.

(** Primitive arguments pass through. *)
Lemma map_arr_prims n h path ps (rest : list value) : forall i st,
  map_arr (fun sub key => ffind storeFunction (S n) h sub (path ++ [key]))
    (List.map VPrim ps ++ rest) i st
  = match map_arr (fun sub key => ffind storeFunction (S n) h sub (path ++ [key]))
            rest (i + List.length ps)%nat st with
    | Ret ws st' => Ret (List.map WPrim ps ++ ws) st'
    | Throw e st' => Throw e st'
    | NoFuel => NoFuel
    end.
Proof.
  induction ps as [|p ps IH]; intros i st; cbn [List.map app List.length].
  - rewrite Nat.add_0_r. now destruct (map_arr _ rest i st).
  - cbn [map_arr ffind]. unfold bind at 1, ret at 1. unfold bind at 1.
    rewrite IH. replace (S i + List.length ps)%nat with (i + S (List.length ps))%nat by lia.
    now destruct (map_arr _ rest (i + S (List.length ps))%nat st).
Qed.

End FreezeCall.

(** [_storeFunction] when the key at [nextKey] is free. *)
Lemma storeFunction_free fn r c t0 k0 :
  callbacks r = Some c -> nth_error (tables r) c = Some t0 ->
  nextKey r = Some k0 -> hasOwnProperty t0 k0 = false ->
  _storeFunction fn r
  = Ret (WPrim (PNum k0))
      (set_tables (update (tables r) c (store k0 (List.length (funs r)) t0))
         (set_funs (funs r ++ [FnWrapper c k0 fn])
            (set_nextKey (Some (Int32.sar0 (k0 + 1))) r))).
Proof.
  intros Hc Ht Hk Hfree. unfold _storeFunction. rewrite Hc, Hk, Ht.
  now rewrite scan_free.
Qed.

(** What a callback becomes in a message. *)
Definition handle (k : Z) : wire :=
  if (k =? 0)%Z then WObj [] else WObj [("$", WPrim (PNum k))].

(** The arguments of a call: primitives, then possibly one callback. *)
Definition call_args (ps : list prim) (cb : option nat) : list value :=
  List.map VPrim ps ++ match cb with Some f => [VFun f] | None => [] end.

Definition call_wire (name : string) (ps : list prim) (cb : option Z) : wire :=
  WArr (WPrim (PStr name) :: List.map WPrim ps
        ++ match cb with Some k => [handle k] | None => [] end).

(** The Remote after a callback was stored under [k]. *)
Definition stored (c : nat) (t0 : table) (k : Z) (fn : nat) (r : remote) : remote :=
  set_tables (update (tables r) c (store k (List.length (funs r)) t0))
    (set_funs (funs r ++ [FnWrapper c k fn])
       (set_nextKey (Some (Int32.sar0 (k + 1))) r)).

Lemma send_plain name ps (w : world) t :
  transport (snd w) = Some t ->
  (message <- new_array (VPrim (PStr name) :: call_args ps None) ;; send message)%js w
  = Ret tt (fst w ++ [CArr (VPrim (PStr name) :: call_args ps None)],
            log (Send t (Frozen (call_wire name ps None))) (snd w)).
Proof.
  destruct w as [h r]. cbn [fst snd]. intros Ht.
  unfold bind, new_array, send. cbn [fst snd]. rewrite length_snoc.
  unfold freeze.
  rewrite (ffind_arr _storeFunction _ _ (List.length h) _ [] [] r eq_refl (nth_error_last h _)).
  unfold call_args.
  change (VPrim (PStr name) :: List.map VPrim ps ++ [])
    with (List.map VPrim (PStr name :: ps) ++ []).
  rewrite (map_arr_prims _storeFunction).
  cbn [map_arr]. unfold ret. cbn [snd]. rewrite Ht. unfold call_wire.
  cbn [List.map app]. reflexivity.
Qed.

Lemma send_callback name ps cb (w : world) t c t0 k0 :
  transport (snd w) = Some t ->
  callbacks (snd w) = Some c -> nth_error (tables (snd w)) c = Some t0 ->
  nextKey (snd w) = Some k0 -> hasOwnProperty t0 k0 = false ->
  (message <- new_array (VPrim (PStr name) :: call_args ps (Some cb)) ;; send message)%js w
  = Ret tt (fst w ++ [CArr (VPrim (PStr name) :: call_args ps (Some cb))],
            log (Send t (Frozen (call_wire name ps (Some k0)))) (stored c t0 k0 cb (snd w))).
Proof.
  destruct w as [h r]. cbn [fst snd]. intros Ht Hc Htab Hk Hfree.
  unfold bind, new_array, send. cbn [fst snd]. rewrite length_snoc.
  unfold freeze.
  rewrite (ffind_arr _storeFunction _ _ (List.length h) _ [] [] r eq_refl (nth_error_last h _)).
  unfold call_args.
  change (VPrim (PStr name) :: List.map VPrim ps ++ [VFun cb])
    with (List.map VPrim (PStr name :: ps) ++ [VFun cb]).
  rewrite (map_arr_prims _storeFunction).
  cbn [map_arr]. unfold bind at 1.
  rewrite (ffind_fun _storeFunction _ _ cb _ _ r (WPrim (PNum k0)) (stored c t0 k0 cb r));
    [|reflexivity|now apply storeFunction_free].
  unfold ret, bind. cbn [snd fst transport stored set_tables set_funs set_nextKey].
  rewrite Ht. unfold call_wire, handle. cbn [truthy_wire truthy_prim List.map app].
  destruct (k0 =? 0)%Z; reflexivity.
Qed.

(** X8: [connect(transport)], in any state of the Remote: the transport is
    bound and listened to, the callback table is replaced by a new one,
    and the handshake message [["ready", {$: 1}]] is sent, with
    [_onReady] stored (wrapped) under key 1 and [nextKey] left at 2.
    Callbacks of an earlier connection that are still outstanding are
    neither called nor kept: their table is no longer the Remote's. *)
Theorem connect_handshake (t : tid) (w : world) :
  let r := snd w in
  let c := List.length (tables r) in
  let a := List.length (funs r) in
  connect t w =
  Ret tt (fst w ++ [CArr [VPrim (PStr "ready"); VFun (onReady r)]],
          mkRemote (funs r ++ [FnWrapper c 1 (onReady r)])
            (tables r ++ [[(1, a)]])
            (agent_api r) (api r) (Some t) (Some c) (Some 2) (onReady r)
            (trace r ++ [On t;
                         Send t (Frozen (WArr [WPrim (PStr "ready");
                                               WObj [("$", WPrim (PNum 1))]]))])).
Proof.
  destruct w as [h r]. cbn [fst snd]. cbv zeta.
  unfold connect. unfold bind at 1, modify at 1. cbn [fst snd].
  unfold bind at 1, gets at 1. cbn [fst snd].
  set (r1 := log (On t) _).
  change [VPrim (PStr "ready"); VFun (onReady r1)]
    with (VPrim (PStr "ready") :: call_args [] (Some (onReady r1))).
  assert (H1 : transport (snd (h, r1)) = Some t) by reflexivity.
  assert (H2 : callbacks (snd (h, r1)) = Some (List.length (tables r))) by reflexivity.
  assert (H3 : nth_error (tables (snd (h, r1))) (List.length (tables r)) = Some [])
    by (subst r1; cbn; apply nth_error_last).
  assert (H4 : nextKey (snd (h, r1)) = Some 1) by reflexivity.
  assert (H5 : hasOwnProperty [] 1 = false) by reflexivity.
  rewrite (send_callback "ready" [] (onReady r1) (h, r1) t (List.length (tables r)) [] 1
             H1 H2 H3 H4 H5).
  clear H1 H2 H3 H4 H5. subst r1.
  f_equal. f_equal. apply remote_ext; try reflexivity.
  - change (update (tables r ++ [[]]) (List.length (tables r))
              [(1, List.length (funs r))] = tables r ++ [[(1, List.length (funs r))]]).
    apply update_last.
  - change ((trace r ++ [On t])
            ++ [Send t (Frozen (WArr [WPrim (PStr "ready"); WObj [("$", WPrim (PNum 1))]]))]
            = trace r ++ [On t; Send t (Frozen (WArr [WPrim (PStr "ready");
                                                      WObj [("$", WPrim (PNum 1))]]))]).
    now rewrite <- app_assoc.
Qed.

(** X9: A call through an api proxy while a transport is bound (lines
    253-267).  With primitive arguments [p1 .. pn] the message
    [[name, p1, .., pn]] is sent and nothing else changes.  With a
    callback as last argument, and the key [nextKey] free in the callback
    table, the message is [[name, p1, .., pn, {$: k}]] with [k = nextKey],
    the callback is stored (wrapped) under [k], and [nextKey] becomes
    [(k + 1) >> 0]; for [k = 0] the handle is falsy and the callback is
    sent as the empty mapping [{}]. *)
Theorem proxy_forwards (fuel : nat) (w : world) (a : nat) (name : string)
    (ps : list prim) (t : tid) :
  nth_error (funs (snd w)) a = Some (FnProxy name) ->
  transport (snd w) = Some t ->
  invoke (S fuel) (VFun a) (call_args ps None) w
  = Ret tt (fst w ++ [CArr (VPrim (PStr name) :: call_args ps None)],
            log (Send t (Frozen (call_wire name ps None))) (snd w)) /\
  forall (cb c : nat) (t0 : table) (k : Z),
    callbacks (snd w) = Some c -> nth_error (tables (snd w)) c = Some t0 ->
    nextKey (snd w) = Some k -> hasOwnProperty t0 k = false ->
    invoke (S fuel) (VFun a) (call_args ps (Some cb)) w
    = Ret tt (fst w ++ [CArr (VPrim (PStr name) :: call_args ps (Some cb))],
              log (Send t (Frozen (call_wire name ps (Some k))))
                (stored c t0 k cb (snd w))).
Proof.
  intros Ha Ht. split.
  - cbn [invoke]. unfold bind at 1, gets at 1. rewrite Ha.
    unfold bind at 1, gets at 1. rewrite Ht. now apply send_plain.
  - intros cb c t0 k Hc Htab Hk Hfree.
    cbn [invoke]. unfold bind at 1, gets at 1. rewrite Ha.
    unfold bind at 1, gets at 1. rewrite Ht. now apply send_callback.
Qed.

(** The proxy [add] of a live Remote is called with two numbers and a
    callback. *)
Lemma proxy_forwards_witness :
  invoke 1 (VFun 4%nat) (call_args [PNum 1; PNum 2] None) w_live
  = Ret tt (fst w_live ++ [CArr (VPrim (PStr "add") :: call_args [PNum 1; PNum 2] None)],
            log (Send 1%nat (Frozen (call_wire "add" [PNum 1; PNum 2] None))) (snd w_live)) /\
  forall (cb c : nat) (t0 : table) (k : Z),
    callbacks (snd w_live) = Some c -> nth_error (tables (snd w_live)) c = Some t0 ->
    nextKey (snd w_live) = Some k -> hasOwnProperty t0 k = false ->
    invoke 1 (VFun 4%nat) (call_args [PNum 1; PNum 2] (Some cb)) w_live
    = Ret tt (fst w_live ++ [CArr (VPrim (PStr "add") :: call_args [PNum 1; PNum 2] (Some cb))],
              log (Send 1%nat (Frozen (call_wire "add" [PNum 1; PNum 2] (Some k))))
                (stored c t0 k cb (snd w_live))).
Proof.
  apply (proxy_forwards 0 w_live 4 "add" [PNum 1; PNum 2] 1%nat).
  - vm_compute. reflexivity.
  - vm_compute. reflexivity.
Defined.

(** *** [liven] on the message of a call *)

Lemma update_same {A} (l : list A) i x : nth_error l i = Some x -> update l i x = l.
Proof.
  revert i. induction l as [|y l IH]; intros [|i]; cbn; try discriminate.
  - now intros [= ->].
  - intros H. now rewrite IH.
Qed.

Lemma update_update {A} (l : list A) i x y : update (update l i x) i y = update l i y.
Proof. revert i. induction l as [|z l IH]; intros [|i]; cbn; auto. now rewrite IH. Qed.

Lemma update_app_r {A} (l m : list A) j x :
  update (l ++ m) (List.length l + j) x = l ++ update m j x.
Proof. induction l as [|z l IH]; cbn; [reflexivity|now rewrite IH]. Qed.

Section LivenCall.
Context {St : Type}.
Variable getFunction : wire -> M St value.

(** Primitive elements are assigned one after the other. *)
Lemma forEach_prims obj o ps (rest : list wire) : forall i H (s : St) done,
  nth_error H o = Some (CArr done) -> List.length done = i ->
  forEach_arr (fun sub key => lfind getFunction obj sub o key)
    (List.map WPrim ps ++ rest) i (H, s)
  = forEach_arr (fun sub key => lfind getFunction obj sub o key)
      rest (i + List.length ps)%nat
      (update H o (CArr (done ++ List.map VPrim ps)), s).
Proof.
  induction ps as [|p ps IH]; intros i H s done Hc Hi; cbn [List.map app List.length].
  - rewrite Nat.add_0_r, app_nil_r, update_same by assumption. reflexivity.
  - cbn [forEach_arr]. unfold bind at 1. cbn [lfind unescape].
    unfold set_prop at 1. cbn [fst snd]. rewrite Hc. subst i.
    rewrite Roundtrip.arr_set_end.
    rewrite (IH (S (List.length done)) _ s (done ++ [VPrim p])).
    + rewrite update_update, <- app_assoc. cbn [app].
      replace (S (List.length done) + List.length ps)%nat
        with (List.length done + S (List.length ps))%nat by lia.
      reflexivity.
    + apply nth_error_update'. apply nth_error_Some. congruence.
    + rewrite length_app. cbn. lia.
Qed.

(** The holder and the array that [liven] makes for a message
    [[p0, p1, ..]]; [fill] is what the elements after the primitives do. *)
Lemma liven_array_of p0 ps (rest : list wire) h (s : St) :
  liven getFunction (WArr (List.map WPrim (p0 :: ps) ++ rest)) (h, s)
  = match forEach_arr (fun sub key => lfind getFunction (List.length h) sub
                                        (S (List.length h)) key)
            rest (S (List.length ps))
            (h ++ [CObj [("root", VRef (S (List.length h)))];
                   CArr (List.map VPrim (p0 :: ps))], s) with
    | Ret _ s' => Ret (root_of (fst s') (List.length h)) s'
    | Throw e s' => Throw e s'
    | NoFuel => NoFuel
    end.
Proof.
  unfold liven. unfold bind at 1, alloc at 1. cbn [fst snd].
  unfold bind at 1. cbn [lfind unescape].
  change (Ascii.eqb "r" "$") with false. cbv iota.
  unfold bind at 1, alloc at 1. cbn [fst snd]. rewrite length_snoc.
  unfold bind at 1. unfold set_prop at 1. cbn [fst snd].
  rewrite nth_error_app1 by (rewrite length_snoc; lia).
  rewrite nth_error_last. change (is_proto "root") with false. cbn [assoc_set].
  rewrite <- app_assoc. cbn [app].
  replace (update (h ++ [CObj []; CArr []]) (List.length h)
             (CObj [("root", VRef (S (List.length h)))]))
    with (h ++ [CObj [("root", VRef (S (List.length h)))]; CArr []]).
  2:{ pose proof (update_app_r h [CObj []; CArr []] 0
                    (CObj [("root", VRef (S (List.length h)))])) as E.
      rewrite Nat.add_0_r in E. now rewrite E. }
  assert (Ho : nth_error (h ++ [CObj [("root", VRef (S (List.length h)))]; CArr []])
                 (S (List.length h)) = Some (CArr [])).
  { rewrite nth_error_app2 by lia.
    replace (S (List.length h) - List.length h)%nat with 1%nat by lia. reflexivity. }
  rewrite (forEach_prims (List.length h) (S (List.length h)) (p0 :: ps) rest 0 _ s []
             Ho eq_refl).
  cbn [app Nat.add List.length].
  replace (update (h ++ [CObj [("root", VRef (S (List.length h)))]; CArr []])
             (S (List.length h)) (CArr (List.map VPrim (p0 :: ps))))
    with (h ++ [CObj [("root", VRef (S (List.length h)))];
                CArr (List.map VPrim (p0 :: ps))]).
  2:{ pose proof (update_app_r h [CObj [("root", VRef (S (List.length h)))]; CArr []] 1
                    (CArr (List.map VPrim (p0 :: ps)))) as E.
      replace (List.length h + 1)%nat with (S (List.length h)) in E by lia.
      now rewrite E. }
  unfold gets. reflexivity.
Qed.

Lemma root_of_holder h v c : root_of (h ++ [CObj [("root", v)]; c]) (List.length h) = v.
Proof.
  unfold root_of. rewrite nth_error_app2, Nat.sub_diag by lia. reflexivity.
Qed.

(** A message of primitives. *)
Lemma liven_prims p0 ps h (s : St) :
  liven getFunction (WArr (List.map WPrim (p0 :: ps))) (h, s)
  = Ret (VRef (S (List.length h)))
      (h ++ [CObj [("root", VRef (S (List.length h)))];
             CArr (List.map VPrim (p0 :: ps))], s).
Proof.
  rewrite <- (app_nil_r (List.map WPrim (p0 :: ps))), liven_array_of.
  cbn [forEach_arr]. unfold ret. cbn [fst]. now rewrite root_of_holder.
Qed.

(** A message that ends with a procedure handle [{$: k}]. *)
Lemma liven_handle p0 ps k h (s s' : St) f :
  getFunction (WPrim k) s = Ret f s' ->
  liven getFunction (WArr (List.map WPrim (p0 :: ps) ++ [WObj [("$", WPrim k)]])) (h, s)
  = Ret (VRef (S (List.length h)))
      (h ++ [CObj [("root", VRef (S (List.length h)))];
             CArr (List.map VPrim (p0 :: ps) ++ [f])], s').
Proof.
  intros Hg. rewrite liven_array_of.
  cbn [forEach_arr]. unfold bind at 1. cbn [lfind assoc unescape].
  change (String.eqb "hasOwnProperty" "$") with false.
  change (String.eqb "$" "$") with true. cbv iota.
  unfold bind at 1, on_snd at 1. cbn [fst snd]. rewrite Hg.
  unfold set_prop. cbn [fst snd].
  rewrite nth_error_app2 by lia.
  replace (S (List.length h) - List.length h)%nat with 1%nat by lia.
  cbn [nth_error].
  replace (S (List.length ps)) with (List.length (List.map VPrim (p0 :: ps)))
    by (rewrite length_map; reflexivity).
  rewrite Roundtrip.arr_set_end.
  unfold ret. cbn [fst].
  pose proof (update_app_r h [CObj [("root", VRef (S (List.length h)))];
                              CArr (List.map VPrim (p0 :: ps))] 1
                (CArr (List.map VPrim (p0 :: ps) ++ [f]))) as E.
  replace (List.length h + 1)%nat with (S (List.length h)) in E by lia.
  rewrite E. cbn [update]. now rewrite root_of_holder.
Qed.

End LivenCall.

(** *** Inbound calls *)

Lemma nth_error_second {A} (l : list A) a b : nth_error (l ++ [a; b]) (S (List.length l)) = Some b.
Proof.
  rewrite nth_error_app2 by lia.
  replace (S (List.length l) - List.length l)%nat with 1%nat by lia. reflexivity.
Qed.

Lemma nth_error_second' {A} (l : list A) a b c :
  nth_error (l ++ [a; b; c]) (S (List.length l)) = Some b.
Proof.
  rewrite nth_error_app2 by lia.
  replace (S (List.length l) - List.length l)%nat with 1%nat by lia. reflexivity.
Qed.

Lemma nth_error_third {A} (l : list A) a b c :
  nth_error (l ++ [a; b; c]) (S (S (List.length l))) = Some c.
Proof.
  rewrite nth_error_app2 by lia.
  replace (S (S (List.length l)) - List.length l)%nat with 2%nat by lia. reflexivity.
Qed.

(** The holder [{root: ...}] that [liven] makes in a heap of [n] cells. *)
Definition holder (n : nat) : cell := CObj [("root", VRef (S n))].

(** X10: An inbound call [[name, p1, .., pn]] for a procedure [name] of the
    agent's api enters that procedure with the arguments [p1 .. pn].  When
    the message ends with a handle [{$: k}], the last argument is a new
    proxy function made by [_getFunction(k)], which captures the transport
    bound at that moment.  Nothing is sent and no event is emitted. *)
Theorem call_is_dispatched (fuel : nat) (w : world) (name : string) (ps : list prim)
    (f : nat) :
  String.eqb name "ready" = false ->
  assoc name (agent_api (snd w)) = Some (VFun f) ->
  nth_error (funs (snd w)) f = Some FnApp ->
  let n := List.length (fst w) in
  let a := List.length (funs (snd w)) in
  _onMessage (S fuel) (WArr (WPrim (PStr name) :: List.map WPrim ps)) w
  = Ret tt (fst w ++ [holder n; CArr (VPrim (PStr name) :: List.map VPrim ps)],
            log (Call f (List.map VPrim ps)) (snd w)) /\
  forall k : prim,
    _onMessage (S fuel)
      (WArr (WPrim (PStr name) :: List.map WPrim ps ++ [WObj [("$", WPrim k)]])) w
    = Ret tt (fst w ++ [holder n;
                        CArr (VPrim (PStr name) :: List.map VPrim ps ++ [VFun a])],
              log (Call f (List.map VPrim ps ++ [VFun a]))
                (set_funs (funs (snd w) ++ [FnRemote (transport (snd w)) (WPrim k)])
                   (snd w))).
Proof.
  destruct w as [h r]. cbn [fst snd]. intros Hn Hf Happ. cbv zeta.
  set (a := List.length (funs r)). split.
  - unfold _onMessage. unfold bind at 1.
    change (WArr (WPrim (PStr name) :: List.map WPrim ps))
      with (WArr (List.map WPrim (PStr name :: ps))).
    rewrite (liven_prims _getFunction).
    unfold bind at 1, gets at 1. cbn [fst snd]. rewrite nth_error_second.
    cbn [List.map hd tl]. rewrite Hn.
    unfold bind at 1, gets at 1. cbn [fst snd]. rewrite Hf. cbn [isFunction].
    now rewrite invoke_app.
  - intros k. unfold _onMessage. unfold bind at 1.
    change (WArr (WPrim (PStr name) :: List.map WPrim ps ++ [WObj [("$", WPrim k)]]))
      with (WArr (List.map WPrim (PStr name :: ps) ++ [WObj [("$", WPrim k)]])).
    rewrite (liven_handle _getFunction (PStr name) ps k h r
               (set_funs (funs r ++ [FnRemote (transport r) (WPrim k)]) r) (VFun a)
               eq_refl).
    unfold bind at 1, gets at 1. cbn [fst snd]. rewrite nth_error_second.
    cbn [List.map app hd tl]. rewrite Hn.
    unfold bind at 1, gets at 1. cbn [fst snd set_funs agent_api]. rewrite Hf.
    cbn [isFunction]. rewrite invoke_app; [reflexivity|].
    cbn [snd funs set_funs]. rewrite nth_error_app1; [assumption|].
    apply nth_error_Some. congruence.
Qed.

Lemma call_is_dispatched_witness :
  let n := List.length (fst w_live) in
  let a := List.length (funs (snd w_live)) in
  _onMessage 1 (WArr (WPrim (PStr "add") :: List.map WPrim [PNum 1; PNum 2])) w_live
  = Ret tt (fst w_live ++ [holder n; CArr (VPrim (PStr "add") :: List.map VPrim [PNum 1; PNum 2])],
            log (Call 0 (List.map VPrim [PNum 1; PNum 2])) (snd w_live)) /\
  forall k : prim,
    _onMessage 1
      (WArr (WPrim (PStr "add") :: List.map WPrim [PNum 1; PNum 2] ++ [WObj [("$", WPrim k)]]))
      w_live
    = Ret tt (fst w_live ++ [holder n;
                             CArr (VPrim (PStr "add") :: List.map VPrim [PNum 1; PNum 2]
                                   ++ [VFun a])],
              log (Call 0 (List.map VPrim [PNum 1; PNum 2] ++ [VFun a]))
                (set_funs (funs (snd w_live)
                           ++ [FnRemote (transport (snd w_live)) (WPrim k)])
                   (snd w_live))).
Proof.
  apply (call_is_dispatched 0 w_live "add" [PNum 1; PNum 2] 0).
  - reflexivity.
  - vm_compute. reflexivity.
  - vm_compute. reflexivity.
Defined.

(** The members of [Object.prototype], which a plain [api] object
    inherits: for these names [this.agent.api[id]] is not [undefined]
    even when the api has no such procedure. *)
Definition inherited (s : string) : bool :=
  existsb (String.eqb s)
    ["constructor"; "hasOwnProperty"; "isPrototypeOf"; "propertyIsEnumerable";
     "toLocaleString"; "toString"; "valueOf"; "__proto__"; "__defineGetter__";
     "__defineSetter__"; "__lookupGetter__"; "__lookupSetter__"].

(** X11: An inbound call for a name the agent's api does not have (and a plain
    object does not inherit) emits the error "Should be function"; no
    procedure is entered and nothing is sent. *)
Theorem unknown_call_is_rejected (fuel : nat) (w : world) (name : string)
    (ps : list prim) :
  String.eqb name "ready" = false -> inherited name = false ->
  assoc name (agent_api (snd w)) = None ->
  _onMessage fuel (WArr (WPrim (PStr name) :: List.map WPrim ps)) w
  = Ret tt (fst w ++ [holder (List.length (fst w));
                      CArr (VPrim (PStr name) :: List.map VPrim ps)],
            log should_be_function (snd w)).
Proof.
  destruct w as [h r]. cbn [fst snd]. intros Hn _ Hf.
  unfold _onMessage. unfold bind at 1.
  change (WArr (WPrim (PStr name) :: List.map WPrim ps))
    with (WArr (List.map WPrim (PStr name :: ps))).
  rewrite (liven_prims _getFunction).
  unfold bind at 1, gets at 1. cbn [fst snd]. rewrite nth_error_second.
  cbn [List.map hd tl]. rewrite Hn.
  unfold bind at 1, gets at 1. cbn [fst snd]. rewrite Hf. reflexivity.
Qed.

Lemma unknown_call_is_rejected_witness :
  _onMessage 0 (WArr (WPrim (PStr "sub") :: List.map WPrim [PNum 1])) w_live
  = Ret tt (fst w_live ++ [holder (List.length (fst w_live));
                           CArr (VPrim (PStr "sub") :: List.map VPrim [PNum 1])],
            log should_be_function (snd w_live)).
Proof.
  apply (unknown_call_is_rejected 0 w_live "sub" [PNum 1]).
  - reflexivity.
  - reflexivity.
  - vm_compute. reflexivity.
Defined.

Lemma invoke_ready fuel (w : world) a keys args :
  nth_error (funs (snd w)) a = Some (FnReady keys) ->
  invoke (S fuel) (VFun a) args w = invoke fuel (hd (VPrim PUndefined) args) [VRef keys] w.
Proof.
  intros H. cbn [invoke]. unfold bind at 1, gets. rewrite H. reflexivity.
Qed.

Lemma invoke_remote fuel (w : world) a t key args :
  nth_error (funs (snd w)) a = Some (FnRemote (Some t) key) ->
  invoke (S fuel) (VFun a) args w = Ret tt (fst w, log (Send t (Raw key args)) (snd w)).
Proof.
  intros H. cbn [invoke]. unfold bind at 1, gets. rewrite H. reflexivity.
Qed.

(** X12: The handshake, answered.  On the message [["ready", {$: k}]] the
    Remote makes the proxy of [_getFunction(k)] and calls it with the
    array of the names of the agent's api, in the order of [Object.keys]:
    the raw message [[k, names]] goes out on the bound transport. *)
Theorem ready_is_answered (fuel : nat) (w : world) (k : prim) (t : tid) :
  transport (snd w) = Some t ->
  let n := List.length (fst w) in
  let a := List.length (funs (snd w)) in
  let names := List.map (fun kv => VPrim (PStr (fst kv))) (agent_api (snd w)) in
  _onMessage (S (S fuel)) (WArr [WPrim (PStr "ready"); WObj [("$", WPrim k)]]) w
  = Ret tt (fst w ++ [holder n; CArr [VPrim (PStr "ready"); VFun a]; CArr names],
            log (Send t (Raw (WPrim k) [VRef (S (S n))]))
              (set_funs (funs (snd w) ++ [FnRemote (Some t) (WPrim k); FnReady (S (S n))])
                 (snd w))).
Proof.
  destruct w as [h r]. cbn [fst snd]. intros Ht. cbv zeta.
  set (a := List.length (funs r)).
  set (names := List.map (fun kv => VPrim (PStr (fst kv))) (agent_api r)).
  unfold _onMessage. unfold bind at 1.
  change (WArr [WPrim (PStr "ready"); WObj [("$", WPrim k)]])
    with (WArr (List.map WPrim [PStr "ready"] ++ [WObj [("$", WPrim k)]])).
  rewrite (liven_handle _getFunction (PStr "ready") [] k h r
             (set_funs (funs r ++ [FnRemote (transport r) (WPrim k)]) r) (VFun a)
             eq_refl).
  unfold bind at 1, gets at 1. cbn [fst snd]. rewrite nth_error_second.
  cbn [List.map app hd tl]. change (String.eqb "ready" "ready") with true. cbv iota.
  unfold bind at 1. unfold bind at 1, gets at 1. cbn [fst snd set_funs agent_api].
  unfold bind at 1, new_array at 1. cbn [fst snd].
  unfold on_remote, on_snd, new_fun. cbn [fst snd set_funs funs isFunction].
  rewrite length_snoc.
  erewrite invoke_ready.
  2:{ cbn [snd funs set_funs].
      rewrite <- (length_snoc (funs r) (FnRemote (transport r) (WPrim k))).
      apply nth_error_last. }
  cbn [hd].
  erewrite invoke_remote.
  2:{ cbn [snd funs set_funs]. rewrite nth_error_app1 by (rewrite length_snoc; lia).
      rewrite Ht. apply nth_error_last. }
  cbn [fst snd].
  f_equal. f_equal.
  - rewrite <- app_assoc. reflexivity.
  - rewrite length_app. cbn [List.length].
    replace (List.length h + 2)%nat with (S (S (List.length h))) by lia.
    apply remote_ext; try reflexivity.
    cbn [funs log set_funs]. rewrite Ht, <- app_assoc. reflexivity.
Qed.

Lemma ready_is_answered_witness :
  let n := List.length (fst w_live) in
  let a := List.length (funs (snd w_live)) in
  let names := List.map (fun kv => VPrim (PStr (fst kv))) (agent_api (snd w_live)) in
  _onMessage 2 (WArr [WPrim (PStr "ready"); WObj [("$", WPrim (PNum 1))]]) w_live
  = Ret tt (fst w_live ++ [holder n; CArr [VPrim (PStr "ready"); VFun a]; CArr names],
            log (Send 1%nat (Raw (WPrim (PNum 1)) [VRef (S (S n))]))
              (set_funs (funs (snd w_live)
                         ++ [FnRemote (Some 1%nat) (WPrim (PNum 1)); FnReady (S (S n))])
                 (snd w_live))).
Proof.
  apply (ready_is_answered 0 w_live (PNum 1) 1%nat).
  vm_compute. reflexivity.
Defined.

(** *** The api proxies *)

Lemma assoc_set_same {A} k (v : A) kvs : assoc k (assoc_set k v kvs) = Some v.
Proof.
  induction kvs as [|[k' v'] kvs IH]; cbn.
  - now rewrite String.eqb_refl.
  - destruct (String.eqb k k') eqn:E; cbn; [now rewrite String.eqb_refl|].
    now rewrite E.
Qed.

Lemma assoc_set_other {A} k k' (v : A) kvs :
  k <> k' -> assoc k (assoc_set k' v kvs) = assoc k kvs.
Proof.
  intros Hne. induction kvs as [|[k2 v2] kvs IH]; cbn.
  - destruct (String.eqb_spec k k'); [contradiction|reflexivity].
  - destruct (String.eqb_spec k' k2) as [->|N]; cbn.
    + destruct (String.eqb_spec k k2); [contradiction|reflexivity].
    + destruct (String.eqb k k2); auto.
Qed.

(** The names as the elements of the array [_onReady] is given. *)
Definition name_values (names : list string) : list value :=
  List.map (fun s => VPrim (PStr s)) names.

(** [s] names a function of the api [r'] has: the value it had in [r], or
    a proxy made for it. *)
Definition proxied (r r' : remote) (s : string) : Prop :=
  exists v, assoc s (api r') = Some v /\ truthy v = true /\
            (assoc s (api r) = Some v \/
             exists a, v = VFun a /\ nth_error (funs r') a = Some (FnProxy s)).

Record installed (names : list string) (r r' : remote) : Prop := {
  inst_rest : tables r' = tables r /\ agent_api r' = agent_api r /\
              transport r' = transport r /\ callbacks r' = callbacks r /\
              nextKey r' = nextKey r /\ onReady r' = onReady r /\ trace r' = trace r;
  inst_funs : exists extra, funs r' = funs r ++ extra;
  inst_kept : forall s v, assoc s (api r) = Some v -> truthy v = true ->
                          assoc s (api r') = Some v;
  inst_names : forall s, In s names -> proxied r r' s;
  inst_others : forall s, ~ In s names -> assoc s (api r') = assoc s (api r) }.

Lemma install_one s r :
  exists r', install (VPrim (PStr s)) r = Ret tt r' /\ installed [s] r r'.
Proof.
  unfold install.
  assert (New : exists r',
            (f <- new_fun (FnProxy s) ;;
             modify (fun r => set_api (assoc_set s f (api r)) r))%js r = Ret tt r' /\
            ((forall v, assoc s (api r) = Some v -> truthy v = false) ->
             installed [s] r r')).
  { eexists. split; [reflexivity|]. intros Hold.
    split; cbn [tables agent_api transport callbacks nextKey onReady trace funs api
                set_api set_funs snd fst].
    - repeat split.
    - eauto.
    - intros s0 v Hs Hv. destruct (String.eqb_spec s0 s) as [->|N].
      + rewrite (Hold v Hs) in Hv. discriminate.
      + now rewrite assoc_set_other.
    - intros s0 [<-|[]]. exists (VFun (List.length (funs r))).
      cbn [api set_api set_funs funs]. rewrite assoc_set_same.
      split; [reflexivity|]. split; [reflexivity|]. right. eexists.
      split; [reflexivity|]. apply nth_error_last.
    - intros s0 Hn. apply assoc_set_other. intros ->. apply Hn. now left. }
  destruct New as (r' & Hr' & Hinst).
  destruct (assoc s (api r)) as [v|] eqn:E.
  - destruct (truthy v) eqn:T.
    + exists r. split; [reflexivity|]. split; auto.
      * repeat split.
      * exists []. now rewrite app_nil_r.
      * intros s0 [<-|[]]. exists v. auto.
    + exists r'. split; [exact Hr'|]. apply Hinst. now intros v0 [= <-].
  - exists r'. split; [exact Hr'|]. apply Hinst. discriminate.
Qed.

Lemma install_all_spec names : forall r,
  exists r', install_all (name_values names) r = Ret tt r' /\ installed names r r'.
Proof.
  induction names as [|s names IH]; intros r; cbn [name_values List.map install_all].
  - exists r. split; [reflexivity|]. split; auto.
    + repeat split.
    + exists []. now rewrite app_nil_r.
    + intros s [].
  - destruct (install_one s r) as (r1 & H1 & I1).
    destruct (IH r1) as (r2 & H2 & I2).
    exists r2. split.
    { unfold bind. rewrite H1. exact H2. }
    destruct I1 as [(A1 & A2 & A3 & A4 & A5 & A6 & A7) [e1 F1] K1 N1 O1].
    destruct I2 as [(B1 & B2 & B3 & B4 & B5 & B6 & B7) [e2 F2] K2 N2 O2].
    split.
    + repeat split; congruence.
    + exists (e1 ++ e2). rewrite F2, F1. now rewrite app_assoc.
    + intros s0 v Hs Hv. apply K2; auto.
    + assert (Hhead : proxied r r2 s).
      { destruct (N1 s (or_introl eq_refl)) as (v & Hv & Tv & Hsrc).
        exists v. split; [now apply K2|]. split; [assumption|].
        destruct Hsrc as [Hold|(a & -> & Ha)]; [now left|]. right.
        exists a. split; [reflexivity|]. rewrite F2.
        rewrite nth_error_app1; [assumption|]. apply nth_error_Some. congruence. }
      intros s0 [<-|Hin]; [exact Hhead|].
      destruct (String.eqb_spec s0 s) as [->|N]; [exact Hhead|].
      destruct (N2 s0 Hin) as (v & Hv & Tv & Hsrc).
      exists v. split; [assumption|]. split; [assumption|].
      destruct Hsrc as [Hold|Hnew]; [|now right]. left.
      rewrite <- Hold. symmetry. apply O1. intros [->|[]]. now apply N.
    + intros s0 Hn. rewrite O2 by (intros Hin; apply Hn; now right).
      apply O1. intros [->|[]]. apply Hn. now left.
Qed.

(** X13: [_onReady] with the array of the peer's procedure names (none of them
    a member a plain object inherits).  Afterwards each of the names is a
    function of the api: the function that was there before, unchanged,
    so that references handed out earlier stay valid, or a new proxy for
    that name.  Api entries of other names are not touched, nothing else
    of the Remote changes, and the event "connect" is emitted. *)
Theorem onReady_installs (names : list string) (l : loc) (w : world) :
  nth_error (fst w) l = Some (CArr (name_values names)) ->
  Forall (fun s => inherited s = false) names ->
  exists r',
    _onReady (VRef l) w = Ret tt (fst w, log (Emit "connect" []) r') /\
    installed names (snd w) r'.
Proof.
  destruct w as [h r]. cbn [fst snd]. intros Hl _.
  destruct (install_all_spec names r) as (r' & Hr' & Hinst).
  exists r'. split; [|assumption].
  unfold _onReady. unfold bind at 1, gets at 1. cbn [fst snd].
  unfold isArray. rewrite Hl. unfold bind at 1, ret at 1.
  unfold bind at 1, on_remote, on_snd. cbn [fst snd]. rewrite Hr'. reflexivity.
Qed.

(** The peer's names arrive at a new Remote. *)
Definition w_names : world := ([CArr (name_values ["add"; "mul"])], Remote.new 1 []).

Lemma onReady_installs_witness :
  exists r',
    _onReady (VRef 0) w_names = Ret tt (fst w_names, log (Emit "connect" []) r') /\
    installed ["add"; "mul"] (snd w_names) r'.
Proof.
  apply (onReady_installs ["add"; "mul"] 0 w_names).
  - reflexivity.
  - repeat constructor.
Defined.

(** *** The flush of [disconnect] *)

Lemma In_insert_sorted k x l : In k (insert_sorted x l) <-> k = x \/ In k l.
Proof.
  induction l as [|y l IH]; cbn; [intuition|].
  destruct (x <=? y)%Z; cbn; [intuition|]. rewrite IH. intuition.
Qed.

Lemma NoDup_insert_sorted x l : ~ In x l -> NoDup l -> NoDup (insert_sorted x l).
Proof.
  induction l as [|y l IH]; cbn; intros Hx Hl.
  - constructor; auto.
  - destruct (x <=? y)%Z.
    + constructor; auto.
    + inversion Hl as [|? ? Hy Hl']; subst. constructor.
      * rewrite In_insert_sorted. intuition.
      * apply IH; auto.
Qed.

Lemma In_sorted k l : In k (fold_right insert_sorted [] l) <-> In k l.
Proof.
  induction l as [|x l IH]; cbn; [reflexivity|].
  rewrite In_insert_sorted, IH. intuition.
Qed.

Lemma NoDup_sorted l : NoDup l -> NoDup (fold_right insert_sorted [] l).
Proof.
  induction 1 as [|x l Hx Hl IH]; cbn; [constructor|].
  apply NoDup_insert_sorted; auto. now rewrite In_sorted.
Qed.

Lemma In_own_keys k t : In k (own_keys t) <-> In k (List.map fst t).
Proof.
  unfold own_keys. rewrite in_app_iff, In_sorted, !filter_In.
  destruct (Z.leb_spec 0 k), (Z.ltb_spec k 0); try lia; intuition.
Qed.

Lemma NoDup_own_keys t : NoDup (List.map fst t) -> NoDup (own_keys t).
Proof.
  intros H. unfold own_keys. apply NoDup_app.
  - apply NoDup_sorted, NoDup_filter, H.
  - apply NoDup_filter, H.
  - intros k. rewrite In_sorted, !filter_In. intros [_ P] [_ N]. lia.
Qed.

Lemma lookup_In k a t : lookup k t = Some a -> In (k, a) t.
Proof.
  induction t as [|[k' a'] t IH]; cbn; [discriminate|].
  destruct (Z.eqb_spec k k') as [->|N]; [intros [= ->]; now left|auto].
Qed.

Lemma In_lookup k t : In k (List.map fst t) -> exists a, lookup k t = Some a.
Proof.
  induction t as [|[k' a'] t IH]; cbn; [contradiction|].
  destruct (Z.eqb_spec k k') as [->|N]; [eauto|].
  intros [E|Hin]; [congruence|auto].
Qed.

Lemma lookup_None_all t : (forall k, lookup k t = None) -> t = [].
Proof.
  destruct t as [|[k a] t]; [reflexivity|]. intros H. specialize (H k).
  cbn in H. rewrite Z.eqb_refl in H. discriminate.
Qed.

(** The table after the keys [keys] were deleted. *)
Definition deleted (keys : list Z) (t : table) : table :=
  fold_left (fun t k => delete k t) keys t.

Lemma lookup_deleted keys : forall t k,
  lookup k (deleted keys t) = if existsb (Z.eqb k) keys then None else lookup k t.
Proof.
  unfold deleted. induction keys as [|k0 keys IH]; intros t k; cbn [fold_left existsb].
  - reflexivity.
  - rewrite IH. destruct (Z.eqb_spec k k0) as [->|N]; cbn [orb].
    + destruct (existsb (Z.eqb k0) keys); [reflexivity|apply lookup_delete].
    + destruct (existsb (Z.eqb k) keys); [reflexivity|now apply lookup_delete_ne].
Qed.

Lemma deleted_all t : deleted (own_keys t) t = [].
Proof.
  apply lookup_None_all. intros k. rewrite lookup_deleted.
  destruct (existsb (Z.eqb k) (own_keys t)) eqn:E; [reflexivity|].
  destruct (lookup k t) as [a|] eqn:L; [|reflexivity].
  apply lookup_In in L.
  assert (Hin : In k (own_keys t)).
  { apply In_own_keys. apply in_map_iff. exists (k, a). auto. }
  assert (X : existsb (Z.eqb k) (own_keys t) = true).
  { apply existsb_exists. exists k. split; [assumption|apply Z.eqb_refl]. }
  congruence.
Qed.

(** The procedure the wrapper stored under [k] forwards to. *)
Definition callee (fs : list closure) (t : table) (k : Z) : nat :=
  match lookup k t with
  | Some a => match nth_error fs a with Some (FnWrapper _ _ fn) => fn | _ => O end
  | None => O
  end.

(** Every entry of the table is the wrapper of an application procedure. *)
Definition wraps_app (fs : list closure) (c : nat) (t : table) : Prop :=
  Forall (fun ka => exists fn, nth_error fs (snd ka) = Some (FnWrapper c (fst ka) fn) /\
                               nth_error fs fn = Some FnApp) t.

(** What the flush leaves of the Remote. *)
Record flushed (c : nat) (keys : list Z) (t : table) (cerr : value) (r r' : remote)
    : Prop := {
  fl_funs : funs r' = funs r;
  fl_rest : agent_api r' = agent_api r /\ api r' = api r /\ transport r' = transport r /\
            callbacks r' = callbacks r /\ onReady r' = onReady r;
  fl_table : nth_error (tables r') c = Some (deleted keys t);
  fl_trace : trace r' = trace r
                        ++ List.map (fun k => Call (callee (funs r) t k) [cerr]) keys }.

Lemma flush_spec fuel c cerr keys : forall (w : world) t,
  nth_error (tables (snd w)) c = Some t -> NoDup keys ->
  (forall k, In k keys ->
     exists a fn, lookup k t = Some a /\
                  nth_error (funs (snd w)) a = Some (FnWrapper c k fn) /\
                  nth_error (funs (snd w)) fn = Some FnApp) ->
  exists r', flush (S (S fuel)) c keys cerr w = Ret tt (fst w, r') /\
             flushed c keys t cerr (snd w) r'.
Proof.
  induction keys as [|k keys IH]; intros [h r] t Ht Hnd Hall; cbn [fst snd] in *.
  - exists r. split; [reflexivity|]. split; auto.
    cbn. now rewrite app_nil_r.
  - inversion Hnd as [|? ? Hk Hnd']; subst.
    destruct (Hall k (or_introl eq_refl)) as (a & fn & Hl & Ha & Hfn).
    cbn [flush]. unfold bind at 1, gets at 1. cbn [fst snd]. rewrite Ht, Hl.
    unfold bind at 1.
    rewrite (invoke_wrapper (S fuel) (h, r) a c k fn [cerr] Ha). cbn [fst snd].
    rewrite (invoke_app fuel (h, consumed c k r) fn [cerr] Hfn).
    cbn [fst snd].
    set (r1 := log (Call fn [cerr]) (consumed c k r)).
    assert (Ht1 : nth_error (tables (snd (h, r1))) c = Some (delete k t)).
    { subst r1. unfold consumed. cbn [snd log tables set_nextKey set_tables].
      rewrite Ht. apply nth_error_update'. apply nth_error_Some. congruence. }
    destruct (IH (h, r1) (delete k t) Ht1 Hnd') as (r' & Hr' & [F1 F2 F3 F4]).
    { intros k' Hin. destruct (Hall k' (or_intror Hin)) as (a' & fn' & Hl' & Ha' & Hfn').
      exists a', fn'. split; [|split; assumption].
      rewrite lookup_delete_ne; [assumption|]. intros ->. contradiction. }
    exists r'. split; [exact Hr'|]. cbn [fst snd] in *. split.
    + rewrite F1. reflexivity.
    + destruct F2 as (G1 & G2 & G3 & G4 & G5).
      rewrite G1, G2, G3, G4, G5. repeat split.
    + exact F3.
    + rewrite F4. subst r1. cbn [trace log consumed set_nextKey set_tables funs].
      rewrite <- app_assoc. cbn [app List.map]. f_equal. f_equal.
      * unfold callee. rewrite Hl, Ha. reflexivity.
      * apply map_ext_in. intros k' Hin. unfold callee.
        rewrite lookup_delete_ne; [reflexivity|]. intros ->. contradiction.
Qed.

(** X15: [disconnect(err)] on a connected Remote whose callback table holds
    only wrappers of application procedures (the handshake reply is not
    pending), under distinct keys.  The listeners are taken off the
    transport; every stored callback is entered exactly once with the
    error ([err], or a new EDISCONNECT error when [err] is falsy), in the
    order of [Object.keys]; the table they were in ends up empty;
    [transport], [callbacks] and [nextKey] are [undefined]; then the event
    "disconnect" is emitted with [err].  A second [disconnect] only emits
    an "error" event. *)
Theorem disconnect_flushes (fuel fuel' : nat) (w : world) (t : tid) (c : nat)
    (t0 : table) (err err' : value) :
  transport (snd w) = Some t -> callbacks (snd w) = Some c ->
  nth_error (tables (snd w)) c = Some t0 ->
  NoDup (List.map fst t0) -> wraps_app (funs (snd w)) c t0 ->
  let cerr := if truthy err then err else EDISCONNECT in
  exists r',
    disconnect (S (S fuel)) err w = Ret tt (fst w, r') /\
    trace r' = trace (snd w)
               ++ Off t :: List.map (fun k => Call (callee (funs (snd w)) t0 k) [cerr])
                             (own_keys t0)
               ++ [Emit "disconnect" [err]] /\
    transport r' = None /\ callbacks r' = None /\ nextKey r' = None /\
    nth_error (tables r') c = Some [] /\
    funs r' = funs (snd w) /\ api r' = api (snd w) /\
    disconnect fuel' err' (fst w, r')
    = Ret tt (fst w, log (Emit "error" [if truthy err' then err'
                                        else VError None "Not connected"]) r').
Proof.
  destruct w as [h r]. cbn [fst snd]. intros Ht Hc Htab Hnd Hwr. cbv zeta.
  set (cerr := if truthy err then err else EDISCONNECT).
  set (r1 := set_callbacks None (set_transport None (log (Off t) r))).
  destruct (flush_spec fuel c cerr (own_keys t0) (h, r1) t0) as (r2 & Hr2 & [F1 F2 F3 F4]).
  { exact Htab. }
  { now apply NoDup_own_keys. }
  { intros k Hin. apply In_own_keys, In_lookup in Hin. destruct Hin as [a Ha].
    unfold wraps_app in Hwr. rewrite Forall_forall in Hwr.
    destruct (Hwr (k, a) (lookup_In k a t0 Ha)) as (fn & H1 & H2). eauto. }
  cbn [fst snd] in *.
  destruct F2 as (_ & G2 & G3 & G4 & _).
  exists (log (Emit "disconnect" [err]) (set_nextKey None r2)).
  split.
  { unfold disconnect. unfold bind at 1, gets at 1. cbn [fst snd]. rewrite Ht.
    unfold bind at 1. unfold bind at 1, modify at 1. cbn [fst snd].
    unfold bind at 1, gets at 1. cbn [fst snd set_transport log callbacks]. rewrite Hc.
    unfold bind at 1, modify at 1. cbn [fst snd].
    unfold bind at 1, gets at 1. cbn [fst snd set_transport set_callbacks log tables].
    rewrite Htab. fold r1. fold cerr. rewrite Hr2.
    unfold bind, modify, emit. cbn [fst snd].
    reflexivity. }
  split.
  { change (trace (log (Emit "disconnect" [err]) (set_nextKey None r2)))
      with (trace r2 ++ [Emit "disconnect" [err]]).
    rewrite F4. subst r1. cbn [trace log set_callbacks set_transport funs].
    rewrite <- !app_assoc. reflexivity. }
  split; [exact G3|]. split; [exact G4|]. split; [reflexivity|].
  split.
  { change (tables (log (Emit "disconnect" [err]) (set_nextKey None r2)))
      with (tables r2). rewrite F3. now rewrite deleted_all. }
  split; [exact F1|]. split; [exact G2|].
  unfold disconnect. unfold bind at 1, gets at 1. cbn [fst snd].
  change (transport (log (Emit "disconnect" [err]) (set_nextKey None r2)))
    with (transport r2). rewrite G3. reflexivity.
Qed.

(** The live Remote after its proxy [add] was called with a number and
    a callback: the callback waits under key 1. *)
Definition w_call : world :=
  after (invoke 1 (VFun 4%nat) [VPrim (PNum 1); VFun 1%nat]) w_live.

Lemma disconnect_flushes_witness :
  let cerr := if truthy (VPrim PUndefined) then VPrim PUndefined else EDISCONNECT in
  exists r',
    disconnect 2 (VPrim PUndefined) w_call = Ret tt (fst w_call, r') /\
    trace r' = trace (snd w_call)
               ++ Off 1%nat
                  :: List.map (fun k => Call (callee (funs (snd w_call)) [(1, 5%nat)] k) [cerr])
                       (own_keys [(1, 5%nat)])
               ++ [Emit "disconnect" [VPrim PUndefined]] /\
    transport r' = None /\ callbacks r' = None /\ nextKey r' = None /\
    nth_error (tables r') 0 = Some [] /\
    funs r' = funs (snd w_call) /\ api r' = api (snd w_call) /\
    disconnect 0 (VPrim PUndefined) (fst w_call, r')
    = Ret tt (fst w_call,
              log (Emit "error" [if truthy (VPrim PUndefined) then VPrim PUndefined
                                 else VError None "Not connected"]) r').
Proof.
  apply (disconnect_flushes 0 0 w_call 1%nat 0 [(1, 5%nat)] (VPrim PUndefined)
           (VPrim PUndefined)).
  - vm_compute. reflexivity.
  - vm_compute. reflexivity.
  - vm_compute. reflexivity.
  - repeat constructor. simpl. tauto.
  - constructor; [|constructor]. exists 1%nat. split; vm_compute; reflexivity.
Defined.

(** *** What [liven] leaves alone *)

(** X16: [liven] builds its result in new cells: a message that livens
    leaves every object that was in the heap as it was, and of the Remote
    it changes nothing but the store of function objects, to which the
    proxies of [_getFunction] are added. *)
Theorem liven_is_fresh (message : wire) (w : world) (m : value) (w' : world) :
  liven _getFunction message w = Ret m w' ->
  (forall l, (l < List.length (fst w))%nat -> nth_error (fst w') l = nth_error (fst w) l) /\
  (List.length (fst w) < List.length (fst w'))%nat /\
  same_but_funs (snd w) (snd w').
Proof.
  intros H. split; [|split].
  3:{ eapply liven_remote; eauto. }
  all: destruct w as [h r]; cbn [fst snd];
    unfold liven in H; unfold bind at 1, alloc at 1 in H; cbn [fst snd] in H;
    unfold bind at 1 in H;
    pose proof (lfind_effect _getFunction (List.length h) message (List.length h)
                  (KStr "root") (h ++ [CObj []], r)) as E;
    cbn [fst snd] in E; rewrite length_snoc in E; specialize (E ltac:(lia));
    destruct (lfind _getFunction (List.length h) message (List.length h) (KStr "root")
                (h ++ [CObj []], r)) as [[] s1|e s1|]; try discriminate;
    unfold gets in H; injection H as <- <-;
    destruct E as [[L G] _]; cbn [fst snd] in *; rewrite length_snoc in *.
  - intros l Hl. rewrite G by lia. now apply nth_error_app1.
  - lia.
Qed.

Lemma liven_is_fresh_witness :
  (forall l, (l < List.length (fst w_live))%nat ->
     nth_error (fst (after (liven _getFunction call_with_handle) w_live)) l
     = nth_error (fst w_live) l) /\
  (List.length (fst w_live)
   < List.length (fst (after (liven _getFunction call_with_handle) w_live)))%nat /\
  same_but_funs (snd w_live) (snd (after (liven _getFunction call_with_handle) w_live)).
Proof.
  apply (liven_is_fresh call_with_handle w_live (VRef 5%nat)
           (after (liven _getFunction call_with_handle) w_live)).
  vm_compute. reflexivity.
Defined.

(** *** The handshake, completed *)

(** The names as they come in a message. *)
Definition name_wires (names : list string) : list wire :=
  List.map (fun s => WPrim (PStr s)) names.

Lemma update_app_third {A} (l : list A) a b c x :
  update (l ++ [a; b; c]) (S (S (List.length l))) x = l ++ [a; b; x].
Proof.
  pose proof (update_app_r l [a; b; c] 2 x) as E.
  replace (List.length l + 2)%nat with (S (S (List.length l))) in E by lia. exact E.
Qed.

Lemma update_app_second {A} (l : list A) a b c x :
  update (l ++ [a; b; c]) (S (List.length l)) x = l ++ [a; x; c].
Proof.
  pose proof (update_app_r l [a; b; c] 1 x) as E.
  replace (List.length l + 1)%nat with (S (List.length l)) in E by lia. exact E.
Qed.

(** [liven] on the reply [[k, [name, ..]]]. *)
Lemma liven_reply {St} (getFunction : wire -> M St value) k names h (s : St) :
  liven getFunction (WArr [WPrim (PNum k); WArr (name_wires names)]) (h, s)
  = Ret (VRef (S (List.length h)))
      (h ++ [holder (List.length h);
             CArr [VPrim (PNum k); VRef (S (S (List.length h)))];
             CArr (name_values names)], s).
Proof.
  change (WArr [WPrim (PNum k); WArr (name_wires names)])
    with (WArr (List.map WPrim [PNum k] ++ [WArr (name_wires names)])).
  rewrite liven_array_of. cbn [List.length List.map].
  cbn [forEach_arr]. unfold bind at 1. cbn [lfind unescape].
  unfold bind at 1, alloc at 1. cbn [fst snd].
  unfold bind at 1. unfold set_prop at 1. cbn [fst snd].
  assert (L : List.length (h ++ [CObj [("root", VRef (S (List.length h)))];
                                 CArr [VPrim (PNum k)]]) = S (S (List.length h))).
  { rewrite length_app. cbn. lia. }
  rewrite L.
  rewrite <- app_assoc. cbn [app].
  assert (N : nth_error (h ++ [CObj [("root", VRef (S (List.length h)))];
                               CArr [VPrim (PNum k)]; CArr []]) (S (List.length h))
              = Some (CArr [VPrim (PNum k)])).
  { rewrite nth_error_app2 by lia.
    replace (S (List.length h) - List.length h)%nat with 1%nat by lia. reflexivity. }
  rewrite N. change (arr_set [VPrim (PNum k)] 1 (VRef (S (S (List.length h)))))
    with [VPrim (PNum k); VRef (S (S (List.length h)))].
  rewrite update_app_second.
  assert (Ho : nth_error (h ++ [CObj [("root", VRef (S (List.length h)))];
                                CArr [VPrim (PNum k); VRef (S (S (List.length h)))];
                                CArr []]) (S (S (List.length h))) = Some (CArr [])).
  { rewrite nth_error_app2 by lia.
    replace (S (S (List.length h)) - List.length h)%nat with 2%nat by lia. reflexivity. }
  unfold name_wires. rewrite <- (map_map PStr WPrim names).
  rewrite <- (app_nil_r (List.map WPrim (List.map PStr names))).
  rewrite (forEach_prims getFunction (List.length h) (S (S (List.length h)))
             (List.map PStr names) [] 0 _ s [] Ho eq_refl).
  cbn [forEach_arr app]. unfold ret. cbn [fst].
  rewrite update_app_third. rewrite map_map.
  unfold root_of. rewrite nth_error_app2, Nat.sub_diag by lia. reflexivity.
Qed.

(** X14: The reply to the handshake, [[k, [name, ..]]], arrives while the
    wrapper of [_onReady] waits under key [k] (after [connect], [k] is 1).
    The key is consumed, [_onReady] installs a proxy for every name the
    api does not have yet (none of the names being a member a plain object
    inherits), and the event "connect" is emitted; nothing is sent. *)
Theorem handshake_completes (fuel : nat) (w : world) (c a onr : nat) (t0 : table)
    (k : Z) (names : list string) :
  callbacks (snd w) = Some c -> nth_error (tables (snd w)) c = Some t0 ->
  lookup k t0 = Some a ->
  nth_error (funs (snd w)) a = Some (FnWrapper c k onr) ->
  nth_error (funs (snd w)) onr = Some FnOnReady ->
  Forall (fun s => inherited s = false) names ->
  let n := List.length (fst w) in
  exists r',
    _onMessage (S (S fuel)) (WArr [WPrim (PNum k); WArr (name_wires names)]) w
    = Ret tt (fst w ++ [holder n; CArr [VPrim (PNum k); VRef (S (S n))];
                        CArr (name_values names)],
              log (Emit "connect" []) r') /\
    installed names (consumed c k (snd w)) r'.
Proof.
  destruct w as [h r]. cbn [fst snd]. intros Hc Ht Hl Ha Honr _. cbv zeta.
  destruct (install_all_spec names (consumed c k r)) as (r' & Hr' & Hinst).
  exists r'. split; [|assumption].
  unfold _onMessage. unfold bind at 1. rewrite liven_reply.
  unfold bind at 1, gets at 1. cbn [fst snd]. rewrite nth_error_second'.
  cbn [hd tl]. unfold bind at 1. unfold bind at 1, gets at 1. cbn [fst snd]. rewrite Hc.
  unfold gets at 1. cbn [fst snd]. rewrite Ht, Hl. cbn [isFunction].
  erewrite invoke_wrapper by (cbn [snd]; exact Ha). cbn [fst snd].
  cbn [invoke]. unfold bind at 1, gets at 1. cbn [fst snd].
  change (funs (consumed c k r)) with (funs r). rewrite Honr. cbn [hd].
  unfold _onReady. unfold bind at 1, gets at 1. cbn [fst snd].
  unfold isArray. rewrite nth_error_third.
  unfold bind at 1, ret at 1.
  unfold bind at 1, on_remote, on_snd. cbn [fst snd]. rewrite Hr'. reflexivity.
Qed.

Lemma handshake_completes_witness :
  let n := List.length (fst w_connecting) in
  exists r',
    _onMessage 2 (WArr [WPrim (PNum 1); WArr (name_wires ["add"; "mul"])]) w_connecting
    = Ret tt (fst w_connecting
              ++ [holder n; CArr [VPrim (PNum 1); VRef (S (S n))];
                  CArr (name_values ["add"; "mul"])],
              log (Emit "connect" []) r') /\
    installed ["add"; "mul"] (consumed 0 1 (snd w_connecting)) r'.
Proof.
  apply (handshake_completes 0 w_connecting 0 3 2 [(1, 3%nat)] 1 ["add"; "mul"]).
  - vm_compute. reflexivity.
  - vm_compute. reflexivity.
  - reflexivity.
  - vm_compute. reflexivity.
  - vm_compute. reflexivity.
  - repeat constructor.
Defined.

(** *** A mapping with an own key [hasOwnProperty] *)

(** X17: An inbound call whose last argument is a mapping that has an own key
    named [hasOwnProperty] is not dispatched: [liven] calls
    [value.hasOwnProperty("$")] on the mapping, finds the own property
    instead of the inherited method, and the TypeError leaves
    [_onMessage]; no procedure is entered, no event is emitted, nothing is
    sent. *)
Theorem shadowed_hasOwnProperty_throws (fuel : nat) (w : world) (p0 : prim)
    (ps : list prim) (kvs : list (string * wire)) (x : wire) :
  assoc "hasOwnProperty" kvs = Some x ->
  _onMessage fuel (WArr (WPrim p0 :: List.map WPrim ps ++ [WObj kvs])) w
  = Throw (TypeError "value.hasOwnProperty is not a function")
      (fst w ++ [holder (List.length (fst w)); CArr (VPrim p0 :: List.map VPrim ps)],
       snd w).
Proof.
  destruct w as [h r]. cbn [fst snd]. intros Hx.
  unfold _onMessage. unfold bind at 1.
  change (WArr (WPrim p0 :: List.map WPrim ps ++ [WObj kvs]))
    with (WArr (List.map WPrim (p0 :: ps) ++ [WObj kvs])).
  rewrite (liven_array_of _getFunction).
  cbn [forEach_arr]. unfold bind at 1. cbn [lfind]. rewrite Hx. reflexivity.
Qed.

Lemma shadowed_hasOwnProperty_throws_witness :
  _onMessage 1
    (WArr (WPrim (PStr "add") :: List.map WPrim [PNum 1]
           ++ [WObj [("a", WPrim PNull); ("hasOwnProperty", WPrim (PBool true))]])) w_live
  = Throw (TypeError "value.hasOwnProperty is not a function")
      (fst w_live ++ [holder (List.length (fst w_live));
                      CArr (VPrim (PStr "add") :: List.map VPrim [PNum 1])],
       snd w_live).
Proof.
  apply (shadowed_hasOwnProperty_throws 1 w_live (PStr "add") [PNum 1]
           [("a", WPrim PNull); ("hasOwnProperty", WPrim (PBool true))] (WPrim (PBool true))).
  reflexivity.
Defined.

(** *** A call and its reply, across two Remotes *)

(** The serialized form of the raw array [[key, args...]] that a proxy of
    [_getFunction] gives to [transport.send], for primitive arguments. *)
Definition raw_wire (key : wire) (args : list prim) : wire :=
  WArr (key :: List.map WPrim args).

(** The table of callbacks of a Remote. *)
Definition callback_table (r : remote) : table :=
  match callbacks r with
  | Some c => match nth_error (tables r) c with Some t => t | None => [] end
  | None => []
  end.

(** X18: One remote procedure call, end to end.  Side A calls its proxy
    [name] with primitive arguments [ps] and a callback [cb]; the message
    it sends is what side B dispatches to its procedure [name], whose last
    argument is a proxy for the callback; when B's procedure calls that
    proxy with primitive results [res], the raw message B sends is what
    side A dispatches to [cb], once, with [res]; afterwards the key the
    callback waited under is free again on A. *)
Theorem call_and_reply (wA wB : world) (name : string) (ps res : list prim)
    (a cb f c : nat) (tA tB : tid) (t0 : table) (k : Z) :
  nth_error (funs (snd wA)) a = Some (FnProxy name) ->
  nth_error (funs (snd wA)) cb = Some FnApp ->
  transport (snd wA) = Some tA -> callbacks (snd wA) = Some c ->
  nth_error (tables (snd wA)) c = Some t0 ->
  nextKey (snd wA) = Some k -> hasOwnProperty t0 k = false -> k <> 0%Z ->
  String.eqb name "ready" = false ->
  assoc name (agent_api (snd wB)) = Some (VFun f) ->
  nth_error (funs (snd wB)) f = Some FnApp ->
  transport (snd wB) = Some tB ->
  let p := List.length (funs (snd wB)) in
  exists (m : wire) (wA1 wB1 wB2 wA2 : world),
    invoke 1 (VFun a) (call_args ps (Some cb)) wA = Ret tt wA1 /\
    trace (snd wA1) = trace (snd wA) ++ [Send tA (Frozen m)] /\
    _onMessage 1 m wB = Ret tt wB1 /\
    trace (snd wB1) = trace (snd wB) ++ [Call f (List.map VPrim ps ++ [VFun p])] /\
    invoke 1 (VFun p) (List.map VPrim res) wB1 = Ret tt wB2 /\
    trace (snd wB2)
    = trace (snd wB1) ++ [Send tB (Raw (WPrim (PNum k)) (List.map VPrim res))] /\
    _onMessage 2 (raw_wire (WPrim (PNum k)) res) wA1 = Ret tt wA2 /\
    trace (snd wA2) = trace (snd wA1) ++ [Call cb (List.map VPrim res)] /\
    lookup k (callback_table (snd wA2)) = None.
Proof.
  destruct wA as [hA rA], wB as [hB rB]. cbn [fst snd].
  intros Ha Hcb HtA Hc Htab Hk Hfree Hk0 Hn Hf Happ HtB. cbv zeta.
  set (p := List.length (funs rB)).
  assert (Hkb : (k =? 0)%Z = false) by now apply Z.eqb_neq.
  (* A sends the call *)
  exists (call_wire name ps (Some k)).
  eexists. eexists. eexists. eexists.
  split.
  { cbn [invoke]. unfold bind at 1, gets at 1. cbn [fst snd]. rewrite Ha.
    unfold bind at 1, gets at 1. cbn [fst snd]. rewrite HtA.
    apply (send_callback name ps cb (hA, rA) tA c t0 k); assumption. }
  split; [reflexivity|].
  (* B dispatches it *)
  split.
  { unfold call_wire, handle. rewrite Hkb.
    unfold _onMessage. unfold bind at 1.
    change (WArr (WPrim (PStr name)
                  :: List.map WPrim ps ++ [WObj [("$", WPrim (PNum k))]]))
      with (WArr (List.map WPrim (PStr name :: ps) ++ [WObj [("$", WPrim (PNum k))]])).
    rewrite (liven_handle _getFunction (PStr name) ps (PNum k) hB rB
               (set_funs (funs rB ++ [FnRemote (transport rB) (WPrim (PNum k))]) rB)
               (VFun p) eq_refl).
    unfold bind at 1, gets at 1. cbn [fst snd]. rewrite nth_error_second.
    cbn [List.map app hd tl]. rewrite Hn.
    unfold bind at 1, gets at 1. cbn [fst snd set_funs agent_api]. rewrite Hf.
    cbn [isFunction]. rewrite invoke_app; [reflexivity|].
    cbn [snd funs set_funs]. rewrite nth_error_app1; [assumption|].
    apply nth_error_Some. congruence. }
  split; [reflexivity|].
  (* B's procedure answers through the proxy *)
  split.
  { apply (invoke_remote 0 _ p tB (WPrim (PNum k))).
    cbn [snd funs log set_funs]. rewrite HtB. apply nth_error_last. }
  split; [reflexivity|].
  (* A dispatches the reply *)
  assert (Hw : nth_error (funs (stored c t0 k cb rA)) (List.length (funs rA))
               = Some (FnWrapper c k cb)).
  { cbn [stored funs set_tables set_funs]. apply nth_error_last. }
  assert (Hcb' : nth_error (funs (stored c t0 k cb rA)) cb = Some FnApp).
  { cbn [stored funs set_tables set_funs]. rewrite nth_error_app1; [assumption|].
    apply nth_error_Some. congruence. }
  assert (Hlen : (c < List.length (tables rA))%nat) by (apply nth_error_Some; congruence).
  split.
  { unfold raw_wire, _onMessage. unfold bind at 1.
    change (WArr (WPrim (PNum k) :: List.map WPrim res))
      with (WArr (List.map WPrim (PNum k :: res))).
    rewrite (liven_prims _getFunction).
    unfold bind at 1, gets at 1. cbn [fst snd]. rewrite nth_error_second.
    cbn [List.map hd tl].
    unfold bind at 1. unfold bind at 1, gets at 1.
    cbn [fst snd log stored set_tables set_funs set_nextKey callbacks]. rewrite Hc.
    unfold gets at 1. cbn [fst snd log stored set_tables set_funs set_nextKey tables].
    rewrite nth_error_update' by assumption. rewrite lookup_store. cbn [isFunction].
    erewrite invoke_wrapper by (cbn [snd log funs]; exact Hw). cbn [fst snd].
    rewrite invoke_app; [reflexivity|].
    cbn [snd]. exact Hcb'. }
  split; [reflexivity|].
  unfold callback_table.
  cbn [snd log consumed stored set_tables set_funs set_nextKey callbacks tables].
  rewrite Hc. rewrite !nth_error_update' by (rewrite ?update_length; assumption).
  apply lookup_delete.
Qed.

(** Two live Remotes of the same shape: A calls [add(1, 2, cb)], B
    answers [cb(3)]. *)
Lemma call_and_reply_witness :
  let p := List.length (funs (snd w_live)) in
  exists (m : wire) (wA1 wB1 wB2 wA2 : world),
    invoke 1 (VFun 4%nat) (call_args [PNum 1; PNum 2] (Some 1%nat)) w_live = Ret tt wA1 /\
    trace (snd wA1) = trace (snd w_live) ++ [Send 1%nat (Frozen m)] /\
    _onMessage 1 m w_live = Ret tt wB1 /\
    trace (snd wB1)
    = trace (snd w_live) ++ [Call 0 (List.map VPrim [PNum 1; PNum 2] ++ [VFun p])] /\
    invoke 1 (VFun p) (List.map VPrim [PNum 3]) wB1 = Ret tt wB2 /\
    trace (snd wB2)
    = trace (snd wB1) ++ [Send 1%nat (Raw (WPrim (PNum 1)) (List.map VPrim [PNum 3]))] /\
    _onMessage 2 (raw_wire (WPrim (PNum 1)) [PNum 3]) wA1 = Ret tt wA2 /\
    trace (snd wA2) = trace (snd wA1) ++ [Call 1 (List.map VPrim [PNum 3])] /\
    lookup 1 (callback_table (snd wA2)) = None.
Proof.
  apply (call_and_reply w_live w_live "add" [PNum 1; PNum 2] [PNum 3]
           4 1 0 0 1%nat 1%nat [] 1).
  - vm_compute. reflexivity.
  - vm_compute. reflexivity.
  - vm_compute. reflexivity.
  - vm_compute. reflexivity.
  - vm_compute. reflexivity.
  - vm_compute. reflexivity.
  - reflexivity.
  - discriminate.
  - reflexivity.
  - vm_compute. reflexivity.
  - vm_compute. reflexivity.
  - vm_compute. reflexivity.
Defined.

End RemoteLaws.

(** ** The Agent (source lines 19-57)

    [Agent.prototype.connect] makes a Remote, connects it and waits for
    the first of three things: the event "connect" or the event "error"
    of the Remote, or the timer.  The Remote and Node's timers are seen
    from the closure's side: what matters is which of its three handlers
    is still registered. *)
Module Agent.
Import Js.
Open Scope string_scope.
Open Scope list_scope.

(** A call of the [callback] given to [connect]. *)
Inductive reply :=
| Connected                (* [callback(null, remote)] *)
| Failed (err : value).    (* [callback(err)] *)

Record attempt := mkAttempt {
  onConnect : bool;        (* [onConnect] listens to "connect" *)
  onError : bool;          (* [onError] listens to "error" *)
  timeout : bool;          (* the timer is pending *)
  replies : list reply }.  (* the calls of [callback], oldest first *)

(** After lines 36-38. *)
Definition start : attempt := mkAttempt true true true [].

(** [reset()]: both listeners are removed and the timer is cleared. *)
Definition reset (a : attempt) : attempt := mkAttempt false false false (replies a).

Definition callback (r : reply) (a : attempt) : attempt :=
  mkAttempt (onConnect a) (onError a) (timeout a) (replies a ++ [r]).

Definition timeout_error : value :=
  VError None "Timeout while waiting for remote agent to connect.".

(** What can happen to the closure. *)
Inductive occurrence :=
| RemoteEmits (name : string) (args : list value)
| TimerFires.

(** The handlers [onConnect], [onError] and [onTimeout]; an event without
    a listener of the closure, and a timer that was cleared, do nothing
    to it. *)
Definition occur (a : attempt) (o : occurrence) : attempt :=
  match o with
  | RemoteEmits name args =>
      if String.eqb name "connect" then
        if onConnect a then callback Connected (reset a) else a
      else if String.eqb name "error" then
        if onError a then callback (Failed (hd (VPrim PUndefined) args)) (reset a) else a
      else a
  | TimerFires =>
      if timeout a then callback (Failed timeout_error) (reset a) else a
  end.

Definition run (os : list occurrence) (a : attempt) : attempt := fold_left occur os a.

End Agent.

Module AgentLaws.
Import Js Agent.
Open Scope string_scope.
Open Scope list_scope.

(** The call of [callback] an occurrence leads to while all three
    handlers are in place. *)
Definition reply_of (o : occurrence) : option reply :=
  match o with
  | RemoteEmits name args =>
      if String.eqb name "connect" then Some Connected
      else if String.eqb name "error" then Some (Failed (hd (VPrim PUndefined) args))
      else None
  | TimerFires => Some (Failed timeout_error)
  end.

Fixpoint first_reply (os : list occurrence) : option reply :=
  match os with
  | [] => None
  | o :: rest => match reply_of o with Some r => Some r | None => first_reply rest end
  end.

Definition idle (a : attempt) : Prop :=
  onConnect a = false /\ onError a = false /\ timeout a = false.

Lemma run_idle os : forall a, idle a -> run os a = a.
Proof.
  induction os as [|o os IH]; intros a Ha; [reflexivity|].
  unfold run in *. cbn [fold_left]. destruct Ha as (H1 & H2 & H3).
  assert (E : occur a o = a).
  { destruct o as [name args|]; cbn; rewrite ?H1, ?H2, ?H3;
      repeat match goal with |- context [if ?b then _ else _] => destruct b end;
      reflexivity. }
  rewrite E. apply IH. repeat split; assumption.
Qed.

(** X19: "Only one event should happen": whatever the Remote emits and
    whenever the timer fires, the callback of [connect] is called at most
    once, for the first "connect" event, "error" event or timeout, and
    with [null], the error of the event, or the timeout error; from then
    on no handler of the closure is registered. *)
Theorem connect_calls_back_once (os : list occurrence) :
  replies (run os start) = match first_reply os with Some r => [r] | None => [] end /\
  (first_reply os <> None -> idle (run os start)).
Proof.
  assert (G : forall a, onConnect a = true -> onError a = true -> timeout a = true ->
            replies (run os a)
            = replies a ++ match first_reply os with Some r => [r] | None => [] end /\
            (first_reply os <> None -> idle (run os a))).
  { induction os as [|o os IH]; intros a H1 H2 H3.
    - cbn. rewrite app_nil_r. split; [reflexivity|congruence].
    - unfold run in *. cbn [fold_left first_reply].
      destruct (reply_of o) as [r|] eqn:E.
      + assert (Ho : occur a o = callback r (reset a)).
        { destruct o as [name args|]; cbn in *; rewrite ?H1, ?H2, ?H3.
          - destruct (String.eqb name "connect"); [now injection E as <-|].
            destruct (String.eqb name "error"); [now injection E as <-|discriminate].
          - now injection E as <-. }
        rewrite Ho.
        assert (Hi : idle (callback r (reset a))) by (repeat split).
        pose proof (run_idle os _ Hi) as R. unfold run in R. rewrite R.
        split; [reflexivity|intros _; exact Hi].
      + assert (Ho : occur a o = a).
        { destruct o as [name args|]; cbn in *; [|discriminate].
          destruct (String.eqb name "connect"); [discriminate|].
          destruct (String.eqb name "error"); [discriminate|reflexivity]. }
        rewrite Ho. now apply IH. }
  destruct (G start eq_refl eq_refl eq_refl) as [A B]. split; [exact A|exact B].
Qed.

End AgentLaws.
